(** * pydd: a reduced ordered binary decision diagram manager

    Shallow embedding of [src/pydd/bdd.py] (module [Pydd]), of the older
    copy [src/pydd/bdd/bdd.py] (module [PyddBdd]) and of its script
    [src/pydd/bdd/main.py] (module [PyddBddMain]).

    The manager is one mutable Python object.  Every method is embedded as a
    function in a state-and-exception monad: a call maps the manager before
    the call to an outcome (a value or a raised exception) and the manager
    after the call.  A raised exception keeps the mutations already done, as
    in Python.  Recursive methods and loops take a [fuel] argument that
    bounds the recursion depth (the number of iterations); [OutOfFuel] marks
    a run that was cut short, and is not a Python exception. *)

From stdpp Require Import gmap strings list fin_maps pretty.

(** ** Exceptions and the state monad *)

Inductive exn := KeyError | IndexError | TypeError | OutOfFuel.

Inductive res (A : Type) :=
| Ok (a : A)
| Raise (e : exn).
Arguments Ok {A} a.
Arguments Raise {A} e.

Definition M (S A : Type) : Type := S -> res A * S.

Definition ret {S A} (a : A) : M S A := fun s => (Ok a, s).
Definition raise {S A} (e : exn) : M S A := fun s => (Raise e, s).
Definition bind {S A B} (m : M S A) (k : A -> M S B) : M S B :=
  fun s => match m s with
           | (Ok a, s') => k a s'
           | (Raise e, s') => (Raise e, s')
           end.
Definition gets {S A} (f : S -> A) : M S A := fun s => (Ok (f s), s).
Definition modify {S} (f : S -> S) : M S unit := fun s => (Ok tt, f s).

Declare Scope py_scope.
Delimit Scope py_scope with py.
Notation "x <- m ;; k" := (bind m (fun x => k))
  (at level 63, m at next level, right associativity) : py_scope.
Notation "m ;;; k" := (bind m (fun _ => k))
  (at level 63, right associativity) : py_scope.

(** [d[k]] on a dict: [KeyError] when the key is absent. *)
Definition subscript {S A} (o : option A) : M S A :=
  match o with
  | Some a => ret a
  | None => raise KeyError
  end.

(** The value of [self._node_to_var_id[n]]: an [int], or [float("infinity")]
    for the two terminals. *)
Inductive level := Finite (l : nat) | Infinity.

Global Instance level_eq_dec : EqDecision level.
Proof. solve_decision. Defined.

Definition level_ltb (x y : level) : bool :=
  match x, y with
  | Finite a, Finite b => a <? b
  | Finite _, Infinity => true
  | Infinity, _ => false
  end.

(** [i + 1] on an index; [inf + 1] is [inf]. *)
Definition level_succ (x : level) : level :=
  match x with
  | Finite a => Finite (S a)
  | Infinity => Infinity
  end.

(** Python's [min] keeps the first of equal arguments. *)
Definition level_min (x y : level) : level :=
  if level_ltb y x then y else x.

(** [lst[i]] on a list: a float index is a [TypeError], an index past the
    end an [IndexError]. *)
Definition list_index {S A} (l : list A) (i : level) : M S A :=
  match i with
  | Infinity => raise TypeError
  | Finite n => match l !! n with
                | Some a => ret a
                | None => raise IndexError
                end
  end.

(** ** [functools.lru_cache]

    Used without arguments: [maxsize = 128], [typed = False].  A cache is the
    list of its entries, the most recently used first.  A hit moves the entry
    to the front; a miss runs the function and then stores the result, after
    dropping the least recently used entry when the cache is full.  Nothing
    is stored when the function raises. *)

Definition lru_maxsize : nat := 128.

Section lru.
Context {K V : Type} `{EqDecision K}.

Fixpoint lru_find (k : K) (c : list (K * V)) : option V :=
  match c with
  | [] => None
  | (k', v) :: c' => if decide (k = k') then Some v else lru_find k c'
  end.

Fixpoint lru_remove (k : K) (c : list (K * V)) : list (K * V) :=
  match c with
  | [] => []
  | (k', v) :: c' => if decide (k = k') then c' else (k', v) :: lru_remove k c'
  end.

Definition lru_hit (k : K) (v : V) (c : list (K * V)) : list (K * V) :=
  (k, v) :: lru_remove k c.

Definition lru_store (k : K) (v : V) (c : list (K * V)) : list (K * V) :=
  match lru_find k c with
  | Some _ => c
  | None =>
      if length c <? lru_maxsize then (k, v) :: c
      else (k, v) :: removelast c
  end.

Definition lru_cache {S} (get : S -> list (K * V))
    (set : list (K * V) -> S -> S) (k : K) (f : M S V) : M S V :=
  fun s =>
    match lru_find k (get s) with
    | Some v => (Ok v, set (lru_hit k v (get s)) s)
    | None =>
        match f s with
        | (Ok v, s') => (Ok v, set (lru_store k v (get s')) s')
        | (Raise e, s') => (Raise e, s')
        end
    end.
End lru.

(** * [src/pydd/bdd.py] *)

Module Pydd.
Local Open Scope py_scope.

Record BDDVariable := mkVar {
  name : string;
  var_id : nat;
  is_primed : bool
}.

(** A row of [_node_to_row]: [(v.var_id, n1, n0)]. *)
Abbreviation row := (nat * nat * nat)%type.

Record BDD := mkBDD {
  _variable_ordering : list BDDVariable;
  _var_id : nat;
  _node_id : nat;
  _node_to_row : gmap nat row;
  _row_to_node : gmap row nat;
  _node_to_var_id : gmap nat level;
  (* the five caches of the methods decorated with [functools.lru_cache];
     [BDDVariable.__hash__] and [__eq__] look at [var_id] only, so a
     variable in a key is its [var_id] *)
  get_cofactors_cache : list ((nat * nat) * (nat * nat));
  ite_cache : list ((nat * nat * nat) * nat);
  conjunction_cache : list ((nat * nat) * nat);
  disjunction_cache : list ((nat * nat) * nat);
  pre_image_cache : list ((nat * nat) * nat)
}.

Definition get_one_node : nat := 1.
Definition get_zero_node : nat := 0.

(** [BDD.__init__] *)
Definition new : BDD :=
  {| _variable_ordering := [];
     _var_id := 0;
     _node_id := 2;
     _node_to_row := ∅;
     _row_to_node := ∅;
     _node_to_var_id := <[get_one_node := Infinity]> (<[get_zero_node := Infinity]> ∅);
     get_cofactors_cache := [];
     ite_cache := [];
     conjunction_cache := [];
     disjunction_cache := [];
     pre_image_cache := [] |}.

(** Field updates. *)
Definition set_variable_ordering (f : list BDDVariable -> list BDDVariable) (s : BDD) : BDD :=
  mkBDD (f (_variable_ordering s)) (_var_id s) (_node_id s) (_node_to_row s)
    (_row_to_node s) (_node_to_var_id s) (get_cofactors_cache s) (ite_cache s)
    (conjunction_cache s) (disjunction_cache s) (pre_image_cache s).
Definition set_var_id (f : nat -> nat) (s : BDD) : BDD :=
  mkBDD (_variable_ordering s) (f (_var_id s)) (_node_id s) (_node_to_row s)
    (_row_to_node s) (_node_to_var_id s) (get_cofactors_cache s) (ite_cache s)
    (conjunction_cache s) (disjunction_cache s) (pre_image_cache s).
Definition set_node_id (f : nat -> nat) (s : BDD) : BDD :=
  mkBDD (_variable_ordering s) (_var_id s) (f (_node_id s)) (_node_to_row s)
    (_row_to_node s) (_node_to_var_id s) (get_cofactors_cache s) (ite_cache s)
    (conjunction_cache s) (disjunction_cache s) (pre_image_cache s).
Definition set_node_to_row (f : gmap nat row -> gmap nat row) (s : BDD) : BDD :=
  mkBDD (_variable_ordering s) (_var_id s) (_node_id s) (f (_node_to_row s))
    (_row_to_node s) (_node_to_var_id s) (get_cofactors_cache s) (ite_cache s)
    (conjunction_cache s) (disjunction_cache s) (pre_image_cache s).
Definition set_row_to_node (f : gmap row nat -> gmap row nat) (s : BDD) : BDD :=
  mkBDD (_variable_ordering s) (_var_id s) (_node_id s) (_node_to_row s)
    (f (_row_to_node s)) (_node_to_var_id s) (get_cofactors_cache s) (ite_cache s)
    (conjunction_cache s) (disjunction_cache s) (pre_image_cache s).
Definition set_node_to_var_id (f : gmap nat level -> gmap nat level) (s : BDD) : BDD :=
  mkBDD (_variable_ordering s) (_var_id s) (_node_id s) (_node_to_row s)
    (_row_to_node s) (f (_node_to_var_id s)) (get_cofactors_cache s) (ite_cache s)
    (conjunction_cache s) (disjunction_cache s) (pre_image_cache s).
Definition set_get_cofactors_cache (c : list ((nat * nat) * (nat * nat))) (s : BDD) : BDD :=
  mkBDD (_variable_ordering s) (_var_id s) (_node_id s) (_node_to_row s)
    (_row_to_node s) (_node_to_var_id s) c (ite_cache s)
    (conjunction_cache s) (disjunction_cache s) (pre_image_cache s).
Definition set_ite_cache (c : list ((nat * nat * nat) * nat)) (s : BDD) : BDD :=
  mkBDD (_variable_ordering s) (_var_id s) (_node_id s) (_node_to_row s)
    (_row_to_node s) (_node_to_var_id s) (get_cofactors_cache s) c
    (conjunction_cache s) (disjunction_cache s) (pre_image_cache s).
Definition set_conjunction_cache (c : list ((nat * nat) * nat)) (s : BDD) : BDD :=
  mkBDD (_variable_ordering s) (_var_id s) (_node_id s) (_node_to_row s)
    (_row_to_node s) (_node_to_var_id s) (get_cofactors_cache s) (ite_cache s)
    c (disjunction_cache s) (pre_image_cache s).
Definition set_disjunction_cache (c : list ((nat * nat) * nat)) (s : BDD) : BDD :=
  mkBDD (_variable_ordering s) (_var_id s) (_node_id s) (_node_to_row s)
    (_row_to_node s) (_node_to_var_id s) (get_cofactors_cache s) (ite_cache s)
    (conjunction_cache s) c (pre_image_cache s).
Definition set_pre_image_cache (c : list ((nat * nat) * nat)) (s : BDD) : BDD :=
  mkBDD (_variable_ordering s) (_var_id s) (_node_id s) (_node_to_row s)
    (_row_to_node s) (_node_to_var_id s) (get_cofactors_cache s) (ite_cache s)
    (conjunction_cache s) (disjunction_cache s) c.

(** [create_variable] *)
Definition create_variable (name : string) (is_primed : bool) : M BDD BDDVariable :=
  i <- gets _var_id ;;
  let v := mkVar name i is_primed in
  modify (set_var_id S) ;;;
  modify (set_variable_ordering (fun l => l ++ [v])) ;;;
  ret v.

(** [get_succs] *)
Definition get_succs (n : nat) : M BDD (nat * nat) :=
  r <- gets (fun s => _node_to_row s !! n) ;;
  r <- subscript r ;;
  let '(v, n1, n0) := r in
  ret (n1, n0).

(** [get_cofactors], memoised *)
Definition get_cofactors (n : nat) (v : BDDVariable) : M BDD (nat * nat) :=
  lru_cache get_cofactors_cache set_get_cofactors_cache (n, var_id v) (
    if (n =? get_zero_node) || (n =? get_one_node) then ret (n, n)
    else
      l <- gets (fun s => _node_to_var_id s !! n) ;;
      l <- subscript l ;;
      if level_ltb (Finite (var_id v)) l then ret (n, n)
      else get_succs n).

(** [make] *)
Definition make (v : BDDVariable) (n1 n0 : nat) : M BDD nat :=
  if n1 =? n0 then ret n1
  else
    hit <- gets (fun s => _row_to_node s !! (var_id v, n1, n0)) ;;
    match hit with
    | Some n => ret n
    | None =>
        i <- gets _node_id ;;
        modify (set_node_to_row <[i := (var_id v, n1, n0)]>) ;;;
        modify (set_node_to_var_id <[i := Finite (var_id v)]>) ;;;
        modify (set_row_to_node <[(var_id v, n1, n0) := i]>) ;;;
        modify (set_node_id S) ;;;
        i' <- gets _node_id ;;
        ret (i' - 1)
    end.

(** [self._node_to_var_id[n]] *)
Definition node_level (n : nat) : M BDD level :=
  l <- gets (fun s => _node_to_var_id s !! n) ;;
  subscript l.

(** [self._variable_ordering[i]] *)
Definition variable_at (i : level) : M BDD BDDVariable :=
  l <- gets _variable_ordering ;;
  list_index l i.

(** [ite], memoised *)
Fixpoint ite (fuel : nat) (a b c : nat) : M BDD nat :=
  match fuel with
  | 0 => raise OutOfFuel
  | S fuel =>
      lru_cache ite_cache set_ite_cache (a, b, c) (
        if a =? get_one_node then ret b
        else if a =? get_zero_node then ret c
        else
          la <- node_level a ;;
          lb <- node_level b ;;
          lc <- node_level c ;;
          let min_var_id := level_min (level_min la lb) lc in
          min_var <- variable_at min_var_id ;;
          ca <- get_cofactors a min_var ;;
          let '(a1, a0) := ca in
          cb <- get_cofactors b min_var ;;
          let '(b1, b0) := cb in
          cc <- get_cofactors c min_var ;;
          let '(c1, c0) := cc in
          w1 <- ite fuel a1 b1 c1 ;;
          w0 <- ite fuel a0 b0 c0 ;;
          if w0 =? w1 then ret w0
          else make min_var w1 w0)
  end.

(** [neg] *)
Definition neg (fuel : nat) (a : nat) : M BDD nat :=
  ite fuel a get_zero_node get_one_node.

(** [conjunction], memoised *)
Fixpoint conjunction (fuel : nat) (a b : nat) : M BDD nat :=
  match fuel with
  | 0 => raise OutOfFuel
  | S fuel =>
      lru_cache conjunction_cache set_conjunction_cache (a, b) (
        if (a =? get_zero_node) || (b =? get_zero_node) then ret get_zero_node
        else if (a =? b) && (a =? get_one_node) then ret get_one_node
        else
          la <- node_level a ;;
          lb <- node_level b ;;
          let min_var_id := level_min la lb in
          min_var <- variable_at min_var_id ;;
          ca <- get_cofactors a min_var ;;
          let '(a1, a0) := ca in
          cb <- get_cofactors b min_var ;;
          let '(b1, b0) := cb in
          w1 <- conjunction fuel a1 b1 ;;
          w0 <- conjunction fuel a0 b0 ;;
          make min_var w1 w0)
  end.

(** [disjunction], memoised *)
Fixpoint disjunction (fuel : nat) (a b : nat) : M BDD nat :=
  match fuel with
  | 0 => raise OutOfFuel
  | S fuel =>
      lru_cache disjunction_cache set_disjunction_cache (a, b) (
        if (a =? get_one_node) || (b =? get_one_node) then ret get_one_node
        else if (a =? b) && (a =? get_zero_node) then ret get_zero_node
        else
          la <- node_level a ;;
          lb <- node_level b ;;
          let min_var_id := level_min la lb in
          min_var <- variable_at min_var_id ;;
          ca <- get_cofactors a min_var ;;
          let '(a1, a0) := ca in
          cb <- get_cofactors b min_var ;;
          let '(b1, b0) := cb in
          w1 <- disjunction fuel a1 b1 ;;
          w0 <- disjunction fuel a0 b0 ;;
          make min_var w1 w0)
  end.

(** [pre_image], memoised *)
Fixpoint pre_image (fuel : nat) (a b : nat) : M BDD nat :=
  match fuel with
  | 0 => raise OutOfFuel
  | S fuel =>
      lru_cache pre_image_cache set_pre_image_cache (a, b) (
        if (a =? get_zero_node) || (b =? get_zero_node) then ret get_zero_node
        else if (a =? get_one_node) && (b =? get_one_node) then ret get_one_node
        else
          la <- node_level a ;;
          lb <- node_level b ;;
          let min_var_id := level_min la lb in
          min_var <- variable_at min_var_id ;;
          if is_primed min_var then
            let min_var_primed := min_var in
            ca <- get_cofactors a min_var_primed ;;
            let '(a1, a0) := ca in
            w1 <- pre_image fuel a1 b ;;
            w0 <- pre_image fuel a0 b ;;
            disjunction fuel w1 w0
          else
            min_var_primed <- variable_at (level_succ min_var_id) ;;
            ca <- get_cofactors a min_var ;;
            let '(a1, a0) := ca in
            cb <- get_cofactors b min_var ;;
            let '(b1, b0) := cb in
            ca1 <- get_cofactors a1 min_var_primed ;;
            let '(a11, a10) := ca1 in
            ca0 <- get_cofactors a0 min_var_primed ;;
            let '(a01, a00) := ca0 in
            w10 <- pre_image fuel a10 b0 ;;
            w11 <- pre_image fuel a11 b1 ;;
            w00 <- pre_image fuel a00 b0 ;;
            w01 <- pre_image fuel a01 b1 ;;
            n1 <- disjunction fuel w10 w11 ;;
            n0 <- disjunction fuel w00 w01 ;;
            make min_var n1 n0)
  end.

(** [node_from_variable] *)
Definition node_from_variable (v : BDDVariable) : M BDD nat :=
  make v get_one_node get_zero_node.

(** [create_variable_node] *)
Definition create_variable_node (name : string) (is_primed : bool) : M BDD nat :=
  v <- create_variable name is_primed ;;
  node_from_variable v.

(** The [while queue:] loop of [clear]: [queue] is the deque, [explored]
    the set; one unit of fuel per iteration. *)
Fixpoint clear_loop (fuel : nat) (queue : list nat) (explored : gset nat)
    : M BDD (gset nat) :=
  match queue with
  | [] => ret explored
  | current :: queue =>
      match fuel with
      | 0 => raise OutOfFuel
      | S fuel =>
          let explored := {[current]} ∪ explored in
          if (current =? get_one_node) || (current =? get_zero_node)
          then clear_loop fuel queue explored
          else
            succs <- get_succs current ;;
            let '(n1, n0) := succs in
            let queue := if decide (n1 ∈ explored) then queue else queue ++ [n1] in
            let queue := if decide (n0 ∈ explored) then queue else queue ++ [n0] in
            clear_loop fuel queue explored
      end
  end.

(** [del d[k]]: [KeyError] when the key is absent. *)
Definition del_node_to_var_id (n : nat) : M BDD unit :=
  l <- gets (fun s => _node_to_var_id s !! n) ;;
  subscript l ;;;
  modify (set_node_to_var_id (delete n)).
Definition del_row_to_node (r : row) : M BDD unit :=
  n <- gets (fun s => _row_to_node s !! r) ;;
  subscript n ;;;
  modify (set_row_to_node (delete r)).
Definition del_node_to_row (n : nat) : M BDD unit :=
  r <- gets (fun s => _node_to_row s !! n) ;;
  subscript r ;;;
  modify (set_node_to_row (delete n)).

(** The [for node in inactive_nodes:] loop of [clear]. *)
Fixpoint clear_sweep (inactive_nodes : list nat) : M BDD unit :=
  match inactive_nodes with
  | [] => ret tt
  | node :: rest =>
      del_node_to_var_id node ;;;
      r <- gets (fun s => _node_to_row s !! node) ;;
      r <- subscript r ;;
      del_row_to_node r ;;;
      del_node_to_row node ;;;
      clear_sweep rest
  end.

(** [clear].  The sweep visits the inactive nodes in the order of
    [elements]; Python visits them in the order of its [set], and the
    outcome does not depend on the order unless a deletion raises. *)
Definition clear (fuel : nat) (nodes : list nat) : M BDD unit :=
  explored <- clear_loop fuel nodes ∅ ;;
  keys <- gets (fun s => dom (_node_to_row s)) ;;
  let inactive_nodes := keys ∖ explored in
  clear_sweep (elements inactive_nodes).

(** [BDDVariable.__str__] *)
Definition str_variable (v : BDDVariable) : string :=
  if is_primed v then name v +:+ "_prime" else name v.

(** The characters ["\n"] and the double quote of the labels. *)
Definition newline : string := String (Ascii.ascii_of_nat 10) EmptyString.
Definition double_quote : string := String (Ascii.ascii_of_nat 34) EmptyString.

(** The local function [node_to_label] of [to_dot]. *)
Definition node_to_label (n : nat) : M BDD string :=
  if (n =? get_one_node) || (n =? get_zero_node) then ret (pretty n)
  else
    l <- node_level n ;;
    v <- variable_at l ;;
    ret (str_variable v +:+ "_id_" +:+ pretty n).

(** One [if child != self.get_zero_node(): out += ...] of [to_dot]. *)
Definition dot_edge (n child : nat) (label : string) (out : string)
    : M BDD string :=
  if child =? get_zero_node then ret out
  else
    a <- node_to_label n ;;
    b <- node_to_label child ;;
    ret (out +:+ a +:+ " -> " +:+ b +:+ " [label=" +:+ double_quote
           +:+ label +:+ double_quote +:+ "]" +:+ newline).

(** The [for] loop of [to_dot] over [self._node_to_row.items()]. *)
Fixpoint to_dot_loop (items : list (nat * row)) (out : string) : M BDD string :=
  match items with
  | [] => ret out
  | (n, (v, n1, n0)) :: items =>
      out <- dot_edge n n1 "1" out ;;
      out <- dot_edge n n0 "0" out ;;
      to_dot_loop items out
  end.

(** [to_dot].  [items] is [self._node_to_row.items()] in the order in which
    the dict gives them, which the tables of this embedding do not record:
    it is a list with the entries of [_node_to_row], each once. *)
Definition to_dot (items : list (nat * row)) : M BDD string :=
  out <- to_dot_loop items ("digraph{" +:+ newline) ;;
  ret (out +:+ "}").

End Pydd.

(** * [src/pydd/bdd/bdd.py]

    The older copy of the manager: variables carry no [is_primed] flag and
    there is no [pre_image], [node_from_variable] or [clear]. *)

Module PyddBdd.
Local Open Scope py_scope.

Record BDDVariable := mkVar {
  name : string;
  var_id : nat
}.

Abbreviation row := (nat * nat * nat)%type.

Record BDD := mkBDD {
  _variable_ordering : list BDDVariable;
  _var_id : nat;
  _node_id : nat;
  _node_to_row : gmap nat row;
  _row_to_node : gmap row nat;
  _node_to_var_id : gmap nat level;
  get_cofactors_cache : list ((nat * nat) * (nat * nat));
  ite_cache : list ((nat * nat * nat) * nat);
  conjunction_cache : list ((nat * nat) * nat);
  disjunction_cache : list ((nat * nat) * nat)
}.

Definition get_one_node : nat := 1.
Definition get_zero_node : nat := 0.

(** [BDD.__init__] *)
Definition new : BDD :=
  {| _variable_ordering := [];
     _var_id := 0;
     _node_id := 2;
     _node_to_row := ∅;
     _row_to_node := ∅;
     _node_to_var_id := <[get_one_node := Infinity]> (<[get_zero_node := Infinity]> ∅);
     get_cofactors_cache := [];
     ite_cache := [];
     conjunction_cache := [];
     disjunction_cache := [] |}.

Definition set_variable_ordering (f : list BDDVariable -> list BDDVariable) (s : BDD) : BDD :=
  mkBDD (f (_variable_ordering s)) (_var_id s) (_node_id s) (_node_to_row s)
    (_row_to_node s) (_node_to_var_id s) (get_cofactors_cache s) (ite_cache s)
    (conjunction_cache s) (disjunction_cache s).
Definition set_var_id (f : nat -> nat) (s : BDD) : BDD :=
  mkBDD (_variable_ordering s) (f (_var_id s)) (_node_id s) (_node_to_row s)
    (_row_to_node s) (_node_to_var_id s) (get_cofactors_cache s) (ite_cache s)
    (conjunction_cache s) (disjunction_cache s).
Definition set_node_id (f : nat -> nat) (s : BDD) : BDD :=
  mkBDD (_variable_ordering s) (_var_id s) (f (_node_id s)) (_node_to_row s)
    (_row_to_node s) (_node_to_var_id s) (get_cofactors_cache s) (ite_cache s)
    (conjunction_cache s) (disjunction_cache s).
Definition set_node_to_row (f : gmap nat row -> gmap nat row) (s : BDD) : BDD :=
  mkBDD (_variable_ordering s) (_var_id s) (_node_id s) (f (_node_to_row s))
    (_row_to_node s) (_node_to_var_id s) (get_cofactors_cache s) (ite_cache s)
    (conjunction_cache s) (disjunction_cache s).
Definition set_row_to_node (f : gmap row nat -> gmap row nat) (s : BDD) : BDD :=
  mkBDD (_variable_ordering s) (_var_id s) (_node_id s) (_node_to_row s)
    (f (_row_to_node s)) (_node_to_var_id s) (get_cofactors_cache s) (ite_cache s)
    (conjunction_cache s) (disjunction_cache s).
Definition set_node_to_var_id (f : gmap nat level -> gmap nat level) (s : BDD) : BDD :=
  mkBDD (_variable_ordering s) (_var_id s) (_node_id s) (_node_to_row s)
    (_row_to_node s) (f (_node_to_var_id s)) (get_cofactors_cache s) (ite_cache s)
    (conjunction_cache s) (disjunction_cache s).
Definition set_get_cofactors_cache (c : list ((nat * nat) * (nat * nat))) (s : BDD) : BDD :=
  mkBDD (_variable_ordering s) (_var_id s) (_node_id s) (_node_to_row s)
    (_row_to_node s) (_node_to_var_id s) c (ite_cache s)
    (conjunction_cache s) (disjunction_cache s).
Definition set_ite_cache (c : list ((nat * nat * nat) * nat)) (s : BDD) : BDD :=
  mkBDD (_variable_ordering s) (_var_id s) (_node_id s) (_node_to_row s)
    (_row_to_node s) (_node_to_var_id s) (get_cofactors_cache s) c
    (conjunction_cache s) (disjunction_cache s).
Definition set_conjunction_cache (c : list ((nat * nat) * nat)) (s : BDD) : BDD :=
  mkBDD (_variable_ordering s) (_var_id s) (_node_id s) (_node_to_row s)
    (_row_to_node s) (_node_to_var_id s) (get_cofactors_cache s) (ite_cache s)
    c (disjunction_cache s).
Definition set_disjunction_cache (c : list ((nat * nat) * nat)) (s : BDD) : BDD :=
  mkBDD (_variable_ordering s) (_var_id s) (_node_id s) (_node_to_row s)
    (_row_to_node s) (_node_to_var_id s) (get_cofactors_cache s) (ite_cache s)
    (conjunction_cache s) c.

(** [create_variable] *)
Definition create_variable (name : string) : M BDD BDDVariable :=
  i <- gets _var_id ;;
  let v := mkVar name i in
  modify (set_var_id S) ;;;
  modify (set_variable_ordering (fun l => l ++ [v])) ;;;
  ret v.

(** [get_succs] *)
Definition get_succs (n : nat) : M BDD (nat * nat) :=
  r <- gets (fun s => _node_to_row s !! n) ;;
  r <- subscript r ;;
  let '(v, n1, n0) := r in
  ret (n1, n0).

(** [get_cofactors], memoised *)
Definition get_cofactors (n : nat) (v : BDDVariable) : M BDD (nat * nat) :=
  lru_cache get_cofactors_cache set_get_cofactors_cache (n, var_id v) (
    if (n =? get_zero_node) || (n =? get_one_node) then ret (n, n)
    else
      l <- gets (fun s => _node_to_var_id s !! n) ;;
      l <- subscript l ;;
      if level_ltb (Finite (var_id v)) l then ret (n, n)
      else get_succs n).

(** [make] *)
Definition make (v : BDDVariable) (n1 n0 : nat) : M BDD nat :=
  if n1 =? n0 then ret n1
  else
    hit <- gets (fun s => _row_to_node s !! (var_id v, n1, n0)) ;;
    match hit with
    | Some n => ret n
    | None =>
        i <- gets _node_id ;;
        modify (set_node_to_row <[i := (var_id v, n1, n0)]>) ;;;
        modify (set_node_to_var_id <[i := Finite (var_id v)]>) ;;;
        modify (set_row_to_node <[(var_id v, n1, n0) := i]>) ;;;
        modify (set_node_id S) ;;;
        i' <- gets _node_id ;;
        ret (i' - 1)
    end.

Definition node_level (n : nat) : M BDD level :=
  l <- gets (fun s => _node_to_var_id s !! n) ;;
  subscript l.

Definition variable_at (i : level) : M BDD BDDVariable :=
  l <- gets _variable_ordering ;;
  list_index l i.

(** [ite], memoised *)
Fixpoint ite (fuel : nat) (a b c : nat) : M BDD nat :=
  match fuel with
  | 0 => raise OutOfFuel
  | S fuel =>
      lru_cache ite_cache set_ite_cache (a, b, c) (
        if a =? get_one_node then ret b
        else if a =? get_zero_node then ret c
        else
          la <- node_level a ;;
          lb <- node_level b ;;
          lc <- node_level c ;;
          let min_var_id := level_min (level_min la lb) lc in
          min_var <- variable_at min_var_id ;;
          ca <- get_cofactors a min_var ;;
          let '(a1, a0) := ca in
          cb <- get_cofactors b min_var ;;
          let '(b1, b0) := cb in
          cc <- get_cofactors c min_var ;;
          let '(c1, c0) := cc in
          w1 <- ite fuel a1 b1 c1 ;;
          w0 <- ite fuel a0 b0 c0 ;;
          if w0 =? w1 then ret w0
          else make min_var w1 w0)
  end.

(** [neg]: the then-branch is the 1-node and the else-branch the 0-node. *)
Definition neg (fuel : nat) (a : nat) : M BDD nat :=
  ite fuel a get_one_node get_zero_node.

(** [conjunction], memoised *)
Fixpoint conjunction (fuel : nat) (a b : nat) : M BDD nat :=
  match fuel with
  | 0 => raise OutOfFuel
  | S fuel =>
      lru_cache conjunction_cache set_conjunction_cache (a, b) (
        if (a =? get_zero_node) || (b =? get_zero_node) then ret get_zero_node
        else if (a =? b) && (a =? get_one_node) then ret get_one_node
        else
          la <- node_level a ;;
          lb <- node_level b ;;
          let min_var_id := level_min la lb in
          min_var <- variable_at min_var_id ;;
          ca <- get_cofactors a min_var ;;
          let '(a1, a0) := ca in
          cb <- get_cofactors b min_var ;;
          let '(b1, b0) := cb in
          w1 <- conjunction fuel a1 b1 ;;
          w0 <- conjunction fuel a0 b0 ;;
          make min_var w1 w0)
  end.

(** [disjunction], memoised: on two 0-nodes it returns the 1-node. *)
Fixpoint disjunction (fuel : nat) (a b : nat) : M BDD nat :=
  match fuel with
  | 0 => raise OutOfFuel
  | S fuel =>
      lru_cache disjunction_cache set_disjunction_cache (a, b) (
        if (a =? get_one_node) || (b =? get_one_node) then ret get_one_node
        else if (a =? b) && (a =? get_zero_node) then ret get_one_node
        else
          la <- node_level a ;;
          lb <- node_level b ;;
          let min_var_id := level_min la lb in
          min_var <- variable_at min_var_id ;;
          ca <- get_cofactors a min_var ;;
          let '(a1, a0) := ca in
          cb <- get_cofactors b min_var ;;
          let '(b1, b0) := cb in
          w1 <- disjunction fuel a1 b1 ;;
          w0 <- disjunction fuel a0 b0 ;;
          make min_var w1 w0)
  end.

(** [create_variable_node] *)
Definition create_variable_node (name : string) : M BDD nat :=
  v <- create_variable name ;;
  make v get_one_node get_zero_node.

End PyddBdd.

(** * [src/pydd/bdd/main.py]

    The script of the older copy: [n = bdd.get_one_node()], then for every
    [i] of [range(400)] a new variable node [x] with the name [f"x{i}"]
    and [n = bdd.conjunction(n, x)].  [loop fuel i count n] is the rest of
    the [for] loop at index [i] with [count] rounds to go; the script
    prints the [n] it ends with. *)

Module PyddBddMain.
Import PyddBdd.
Local Open Scope py_scope.

Fixpoint loop (fuel : nat) (i count : nat) (n : nat) : M BDD nat :=
  match count with
  | 0 => ret n
  | S count =>
      x <- create_variable_node ("x" +:+ pretty i) ;;
      n <- conjunction fuel n x ;;
      loop fuel (S i) count n
  end.

Definition main (fuel : nat) : res nat * BDD :=
  (n <- ret get_one_node ;; loop fuel 0 400 n) new.

End PyddBddMain.

(** * Specification vocabulary for [src/pydd/bdd.py] *)

Import Pydd.
Local Open Scope py_scope.

(** ** Nodes, levels and the function a node denotes *)

(** An identifier the manager knows: a terminal or a stored decision node. *)
Definition valid (s : BDD) (n : nat) : Prop :=
  n < 2 \/ is_Some (_node_to_row s !! n).

(** The level of a node as the rows give it; terminals sit at infinity. *)
Definition lvl (s : BDD) (n : nat) : level :=
  match _node_to_row s !! n with
  | Some (l, _, _) => Finite l
  | None => Infinity
  end.

Definition level_lt (x y : level) : Prop := level_ltb x y = true.
Definition level_le (x y : level) : Prop := level_ltb y x = false.

(** [interp s fuel n env]: follow the rows from [n] under the assignment
    [env] of truth values to levels. *)
Fixpoint interp (s : BDD) (fuel : nat) (n : nat) (env : nat -> bool) : bool :=
  match fuel with
  | 0 => false
  | S fuel =>
      if n =? 0 then false
      else if n =? 1 then true
      else match _node_to_row s !! n with
           | Some (l, h, lo) =>
               if env l then interp s fuel h env else interp s fuel lo env
           | None => false
           end
  end.

(** Children have smaller identifiers than their parent (see [wf_rows]), so
    [S n] steps are enough from [n]. *)
Definition sem (s : BDD) (n : nat) (env : nat -> bool) : bool :=
  interp s (S n) n env.

(** ** Invariants of the store *)

(** I1: no stored decision node has equal children. *)
Definition I1 (s : BDD) : Prop :=
  forall n l h lo, _node_to_row s !! n = Some (l, h, lo) -> h <> lo.

(** I2: no two stored identifiers share a row. *)
Definition I2 (s : BDD) : Prop :=
  forall n n' r,
    _node_to_row s !! n = Some r -> _node_to_row s !! n' = Some r -> n = n'.

(** I3: children are strictly deeper than their parent, or terminal. *)
Definition I3 (s : BDD) : Prop :=
  forall n l h lo, _node_to_row s !! n = Some (l, h, lo) ->
    level_lt (Finite l) (lvl s h) /\ level_lt (Finite l) (lvl s lo).

(** [_node_to_row] and [_row_to_node] are inverse to each other. *)
Definition mutually_inverse (s : BDD) : Prop :=
  forall n r, _node_to_row s !! n = Some r <-> _row_to_node s !! r = Some n.

(** What [make] and [clear] keep true whatever their arguments are. *)
Record store_inv (s : BDD) : Prop := {
  si_node_id : 2 <= _node_id s;
  si_zero : _node_to_var_id s !! 0 = Some Infinity;
  si_one : _node_to_var_id s !! 1 = Some Infinity;
  si_level : forall n, 2 <= n ->
    _node_to_var_id s !! n = (fun r : row => Finite r.1.1) <$> _node_to_row s !! n;
  si_inverse : mutually_inverse s;
  si_ids : forall n r, _node_to_row s !! n = Some r -> 2 <= n < _node_id s;
  si_reduced : I1 s
}.

(** A well-formed manager: the store invariants, the registry indexed by
    [var_id], and every row an ordered node over declared variables whose
    children are known and were allocated before it. *)
Record wf (s : BDD) : Prop := {
  wf_store : store_inv s;
  wf_var_id : _var_id s = length (_variable_ordering s);
  wf_ordering : forall i v, _variable_ordering s !! i = Some v -> var_id v = i;
  wf_rows : forall n l h lo, _node_to_row s !! n = Some (l, h, lo) ->
    l < length (_variable_ordering s) /\ valid s h /\ valid s lo /\
    h < n /\ lo < n;
  wf_ordered : I3 s
}.

(** [s'] keeps every variable and every row of [s]. *)
Definition extends (s s' : BDD) : Prop :=
  _variable_ordering s `prefix_of` _variable_ordering s' /\
  _node_to_row s ⊆ _node_to_row s'.

(** ** What a cache entry must say *)

(** The body of [get_cofactors] as a function of the store. *)
Definition cofactors_of (s : BDD) (n i : nat) : option (nat * nat) :=
  if (n =? 0) || (n =? 1) then Some (n, n)
  else
    match _node_to_var_id s !! n with
    | None => None
    | Some l =>
        if level_ltb (Finite i) l then Some (n, n)
        else (fun r : row => (r.1.2, r.2)) <$> _node_to_row s !! n
    end.

Definition cofactors_entry (s : BDD) (e : (nat * nat) * (nat * nat)) : Prop :=
  cofactors_of s e.1.1 e.1.2 = Some e.2.

Definition ite_entry (s : BDD) (e : (nat * nat * nat) * nat) : Prop :=
  let '((a, b, c), r) := e in
  valid s a /\ valid s b /\ valid s c /\ valid s r /\
  level_le (level_min (level_min (lvl s a) (lvl s b)) (lvl s c)) (lvl s r) /\
  forall env, sem s r env = if sem s a env then sem s b env else sem s c env.

Definition binary_entry (f : bool -> bool -> bool) (s : BDD)
    (e : (nat * nat) * nat) : Prop :=
  let '((a, b), r) := e in
  valid s a /\ valid s b /\ valid s r /\
  level_le (level_min (lvl s a) (lvl s b)) (lvl s r) /\
  forall env, sem s r env = f (sem s a env) (sem s b env).

(** A node over unprimed variables only. *)
Inductive over_unprimed (s : BDD) : nat -> Prop :=
| ou_terminal n : n < 2 -> over_unprimed s n
| ou_node n l h lo v :
    _node_to_row s !! n = Some (l, h, lo) ->
    _variable_ordering s !! l = Some v ->
    is_primed v = false ->
    over_unprimed s h -> over_unprimed s lo ->
    over_unprimed s n.

(** [env'] gives the unprimed variables (even levels) the values of [env]. *)
Definition agree_unprimed (env env' : nat -> bool) : Prop :=
  forall i, env' (2 * i) = env (2 * i).

(** Read at the level of [x_i] the value [env'] gives to [x_i']. *)
Definition primed_view (env' : nat -> bool) : nat -> bool :=
  fun l => env' (S l).

(** [r] denotes [{x | exists x', T(x, x') /\ S(x')}]. *)
Definition denotes_pre_image (s : BDD) (T S r : nat) : Prop :=
  forall env, sem s r env = true <->
    exists env', agree_unprimed env env' /\
                 sem s T env' = true /\ sem s S (primed_view env') = true.

Definition pre_image_entry (s : BDD) (e : (nat * nat) * nat) : Prop :=
  let '((a, b), r) := e in
  valid s a /\ valid s b /\ valid s r /\ over_unprimed s b /\
  level_le (level_min (lvl s a) (lvl s b)) (lvl s r) /\
  denotes_pre_image s a b r.

(** Every cache entry is right for the store as it is now. *)
Record caches_sound (s : BDD) : Prop := {
  cs_cofactors : Forall (cofactors_entry s) (get_cofactors_cache s);
  cs_ite : Forall (ite_entry s) (ite_cache s);
  cs_conjunction : Forall (binary_entry andb s) (conjunction_cache s);
  cs_disjunction : Forall (binary_entry orb s) (disjunction_cache s);
  cs_pre_image : Forall (pre_image_entry s) (pre_image_cache s)
}.

(** The invariant of a manager that went through no [clear]. *)
Definition Inv (s : BDD) : Prop := wf s /\ caches_sound s.

(** The ordering [pre_image] asks for: [x_i] at level [2i], [x_i'] at level
    [2i + 1], every unprimed variable followed by its primed one. *)
Definition interleaved (s : BDD) : Prop :=
  Nat.even (length (_variable_ordering s)) = true /\
  forall l v, _variable_ordering s !! l = Some v -> is_primed v = Nat.odd l.

(** ** Reachability from a root set *)

Inductive reach (s : BDD) (R : list nat) : nat -> Prop :=
| reach_root n : n ∈ R -> reach s R n
| reach_high m l h lo :
    reach s R m -> _node_to_row s !! m = Some (l, h, lo) -> reach s R h
| reach_low m l h lo :
    reach s R m -> _node_to_row s !! m = Some (l, h, lo) -> reach s R lo.

(** ** Formulas built with the public operators *)

Inductive formula :=
| FVar (i : nat)
| FConst (b : bool)
| FNot (f : formula)
| FAnd (f g : formula)
| FOr (f g : formula)
| FIte (f g h : formula).

Fixpoint denote (f : formula) (env : nat -> bool) : bool :=
  match f with
  | FVar i => env i
  | FConst b => b
  | FNot f => negb (denote f env)
  | FAnd f g => denote f env && denote g env
  | FOr f g => denote f env || denote g env
  | FIte f g h => if denote f env then denote g env else denote h env
  end.

(** The variables of [f] are among the first [k] declared ones. *)
Fixpoint declared (k : nat) (f : formula) : Prop :=
  match f with
  | FVar i => i < k
  | FConst _ => True
  | FNot f => declared k f
  | FAnd f g | FOr f g => declared k f /\ declared k g
  | FIte f g h => declared k f /\ declared k g /\ declared k h
  end.

(** The client code that builds [f]: [FVar i] is [node_from_variable] on the
    [i]-th declared variable, the constants are [get_one_node] and
    [get_zero_node], and each connective is one call of the operator,
    arguments first, left to right. *)
Fixpoint build (fuel : nat) (f : formula) : M BDD nat :=
  match f with
  | FVar i => v <- variable_at (Finite i) ;; node_from_variable v
  | FConst true => ret get_one_node
  | FConst false => ret get_zero_node
  | FNot f => a <- build fuel f ;; neg fuel a
  | FAnd f g => a <- build fuel f ;; b <- build fuel g ;; conjunction fuel a b
  | FOr f g => a <- build fuel f ;; b <- build fuel g ;; disjunction fuel a b
  | FIte f g h =>
      a <- build fuel f ;; b <- build fuel g ;; c <- build fuel h ;;
      ite fuel a b c
  end.

(** ** Calls of the public methods *)

Inductive call :=
| CreateVariable (name : string) (is_primed : bool)
| CreateVariableNode (name : string) (is_primed : bool)
| NodeFromVariable (v : BDDVariable)
| GetCofactors (n : nat) (v : BDDVariable)
| Make (v : BDDVariable) (n1 n0 : nat)
| Ite (fuel a b c : nat)
| Neg (fuel a : nat)
| Conjunction (fuel a b : nat)
| Disjunction (fuel a b : nat)
| PreImage (fuel a b : nat)
| Clear (fuel : nat) (nodes : list nat).

(** The manager after a call, whether it returned or raised. *)
Definition after (c : call) (s : BDD) : BDD :=
  match c with
  | CreateVariable x p => (create_variable x p s).2
  | CreateVariableNode x p => (create_variable_node x p s).2
  | NodeFromVariable v => (node_from_variable v s).2
  | GetCofactors n v => (get_cofactors n v s).2
  | Make v n1 n0 => (make v n1 n0 s).2
  | Ite fuel a b c => (ite fuel a b c s).2
  | Neg fuel a => (neg fuel a s).2
  | Conjunction fuel a b => (conjunction fuel a b s).2
  | Disjunction fuel a b => (disjunction fuel a b s).2
  | PreImage fuel a b => (pre_image fuel a b s).2
  | Clear fuel nodes => (clear fuel nodes s).2
  end.

(** The managers a client can get to from [BDD()]. *)
Inductive reachable : BDD -> Prop :=
| reachable_new : reachable new
| reachable_call c s : reachable s -> reachable (after c s).

(** The client script of [src/examples/transition_system.py], up to the
    call of [pre_image]: it returns [delta], the state sets [x00], [x01],
    [x10], [x11] and [pre]. *)
Definition transition_system (fuel : nat) : M BDD (nat * (nat * nat * nat * nat) * nat) :=
  x0 <- create_variable_node "x0" false ;;
  x0_prime <- create_variable_node "x0" true ;;
  x1 <- create_variable_node "x1" false ;;
  x1_prime <- create_variable_node "x1" true ;;
  n0 <- neg fuel x0 ;; n1 <- neg fuel x1 ;; x00 <- conjunction fuel n0 n1 ;;
  n0 <- neg fuel x0 ;; x01 <- conjunction fuel n0 x1 ;;
  n1 <- neg fuel x1 ;; x10 <- conjunction fuel x0 n1 ;;
  x11 <- conjunction fuel x0 x1 ;;
  n0 <- neg fuel x0_prime ;; n1 <- neg fuel x1_prime ;;
  x00_prime <- conjunction fuel n0 n1 ;;
  n0 <- neg fuel x0_prime ;; x01_prime <- conjunction fuel n0 x1_prime ;;
  n1 <- neg fuel x1_prime ;; x10_prime <- conjunction fuel x0_prime n1 ;;
  x11_prime <- conjunction fuel x0_prime x1_prime ;;
  t0 <- conjunction fuel x00 x01_prime ;;
  t1 <- conjunction fuel x01 x10_prime ;;
  t2 <- conjunction fuel x10 x11_prime ;;
  t3 <- conjunction fuel x11 x01_prime ;;
  d01 <- disjunction fuel t0 t1 ;;
  d23 <- disjunction fuel t2 t3 ;;
  delta <- disjunction fuel d01 d23 ;;
  pre <- pre_image fuel delta x10 ;;
  ret (delta, (x00, x01, x10, x11), pre).

(** Zero or more calls in a row. *)
Inductive steps : BDD -> BDD -> Prop :=
| steps_refl s : steps s s
| steps_call c s s' : steps s s' -> steps s (after c s').

(** * Vocabulary of the proofs and example managers *)

(** [stable R m]: the manager after [m] is [R]-related to the one before,
    whether [m] returns or raises. *)
Definition stable {A} (R : BDD -> BDD -> Prop) (m : M BDD A) : Prop :=
  forall s, R s (m s).2.

(** The manager after [make] has allocated a node for the row
    [(l, n1, n0)]. *)
Definition allocated (l n1 n0 : nat) (s : BDD) : BDD :=
  set_node_id S
    (set_row_to_node <[(l, n1, n0) := _node_id s]>
       (set_node_to_var_id <[_node_id s := Finite l]>
          (set_node_to_row <[_node_id s := (l, n1, n0)]> s))).

(** The manager after the three [del] of one round of the sweep. *)
Definition swept (n : nat) (r : row) (s : BDD) : BDD :=
  set_node_to_row (delete n)
    (set_row_to_node (delete r) (set_node_to_var_id (delete n) s)).

Definition keeps_store_inv (s s' : BDD) : Prop := store_inv s -> store_inv s'.

(** The counter does not go down, and a node stored in [s'] but not in [s]
    has an identifier the counter of [s] had not yet reached. *)
Definition allocates_above (s s' : BDD) : Prop :=
  _node_id s <= _node_id s' /\
  forall n, is_Some (_node_to_row s' !! n) -> _node_to_row s !! n = None ->
    _node_id s <= n.

Definition same_node_id (s s' : BDD) : Prop := _node_id s' = _node_id s.

(** The operators add rows and leave the registry alone. *)
Definition grows (s s' : BDD) : Prop :=
  _variable_ordering s' = _variable_ordering s /\
  _node_to_row s ⊆ _node_to_row s'.

(** Two managers that differ in their caches at most. *)
Definition same_store (s s' : BDD) : Prop :=
  _variable_ordering s' = _variable_ordering s /\
  _var_id s' = _var_id s /\
  _node_id s' = _node_id s /\
  _node_to_row s' = _node_to_row s /\
  _row_to_node s' = _row_to_node s /\
  _node_to_var_id s' = _node_to_var_id s.

(** [post s r s']: what the call promises about its result [r] and the
    manager [s'] it leaves, [s] being the manager it started from. *)
Definition returns {A} (m : M BDD A) (s : BDD) (post : A -> BDD -> Prop) : Prop :=
  exists r s', m s = (Ok r, s') /\ Inv s' /\ grows s s' /\ post r s'.

(** [h] and [lo] are the two restrictions of [n] on the variable at level
    [l], and lie strictly below that level. *)
Definition splits (s : BDD) (l n h lo : nat) : Prop :=
  valid s n /\ valid s h /\ valid s lo /\
  level_lt (Finite l) (lvl s h) /\ level_lt (Finite l) (lvl s lo) /\
  forall env, sem s n env = if env l then sem s h env else sem s lo env.

Definition rank (s : BDD) (n : nat) : nat :=
  match lvl s n with
  | Finite l => length (_variable_ordering s) - l
  | Infinity => 0
  end.

(** The recursive part of [conjunction] and [disjunction], the recursive
    calls going to [rec]. *)
Definition apply_step (rec : nat -> nat -> M BDD nat) (a b : nat) : M BDD nat :=
  la <- node_level a ;;
  lb <- node_level b ;;
  let min_var_id := level_min la lb in
  min_var <- variable_at min_var_id ;;
  ca <- get_cofactors a min_var ;;
  let '(a1, a0) := ca in
  cb <- get_cofactors b min_var ;;
  let '(b1, b0) := cb in
  w1 <- rec a1 b1 ;;
  w0 <- rec a0 b0 ;;
  make min_var w1 w0.

(** The recursive part of [ite], the recursive calls going to [rec]. *)
Definition ite_step (rec : nat -> nat -> nat -> M BDD nat) (a b c : nat)
    : M BDD nat :=
  la <- node_level a ;;
  lb <- node_level b ;;
  lc <- node_level c ;;
  let min_var_id := level_min (level_min la lb) lc in
  min_var <- variable_at min_var_id ;;
  ca <- get_cofactors a min_var ;;
  let '(a1, a0) := ca in
  cb <- get_cofactors b min_var ;;
  let '(b1, b0) := cb in
  cc <- get_cofactors c min_var ;;
  let '(c1, c0) := cc in
  w1 <- rec a1 b1 c1 ;;
  w0 <- rec a0 b0 c0 ;;
  if w0 =? w1 then ret w0
  else make min_var w1 w0.

Definition rank3 (s : BDD) (a b c : nat) : nat :=
  Nat.max (rank s a) (Nat.max (rank s b) (rank s c)).

(** The assignment [env] with level [k] set to [v]. *)
Definition upd (env : nat -> bool) (k : nat) (v : bool) : nat -> bool :=
  fun j => if j =? k then v else env j.

(** The recursive part of [pre_image], the recursive calls going to [rec]
    and the disjunctions running on [fuel]. *)
Definition pre_image_step (fuel : nat) (rec : nat -> nat -> M BDD nat)
    (a b : nat) : M BDD nat :=
  la <- node_level a ;;
  lb <- node_level b ;;
  let min_var_id := level_min la lb in
  min_var <- variable_at min_var_id ;;
  if is_primed min_var then
    let min_var_primed := min_var in
    ca <- get_cofactors a min_var_primed ;;
    let '(a1, a0) := ca in
    w1 <- rec a1 b ;;
    w0 <- rec a0 b ;;
    disjunction fuel w1 w0
  else
    min_var_primed <- variable_at (level_succ min_var_id) ;;
    ca <- get_cofactors a min_var ;;
    let '(a1, a0) := ca in
    cb <- get_cofactors b min_var ;;
    let '(b1, b0) := cb in
    ca1 <- get_cofactors a1 min_var_primed ;;
    let '(a11, a10) := ca1 in
    ca0 <- get_cofactors a0 min_var_primed ;;
    let '(a01, a00) := ca0 in
    w10 <- rec a10 b0 ;;
    w11 <- rec a11 b1 ;;
    w00 <- rec a00 b0 ;;
    w01 <- rec a01 b1 ;;
    n1 <- disjunction fuel w10 w11 ;;
    n0 <- disjunction fuel w00 w01 ;;
    make min_var n1 n0.

(** What [pre_image] promises. *)
Definition pre_image_post (a b : nat) : nat -> BDD -> Prop :=
  fun r s' => pre_image_entry s' ((a, b), r).

(** What the recursive calls of [pre_image] are asked to do: operands
    strictly below level [l], in a manager with [k] variables. *)
Definition pre_image_rec (k l : nat) (rec : nat -> nat -> M BDD nat) : Prop :=
  forall s a b, Inv s -> interleaved s ->
    length (_variable_ordering s) = k ->
    valid s a -> valid s b -> over_unprimed s b ->
    level_lt (Finite l) (lvl s a) -> level_lt (Finite l) (lvl s b) ->
    returns (rec a b) s (pre_image_post a b).

(** A bound on the rounds the marking loop still needs: a node weighs more
    than its two children together, because they were allocated before it. *)
Fixpoint weight (queue : list nat) : nat :=
  match queue with
  | [] => 0
  | n :: queue => 3 ^ n + weight queue
  end.

(** Every marked node has its children marked or waiting in the queue. *)
Definition closed_upto (s : BDD) (explored : gset nat) (queue : list nat) : Prop :=
  forall m l h lo, m ∈ explored -> _node_to_row s !! m = Some (l, h, lo) ->
    (h ∈ explored \/ h ∈ queue) /\ (lo ∈ explored \/ lo ∈ queue).

(** Two managers used as examples: one after [create_variable("x0")] and
    [create_variable("x1")], one after the two [create_variable_node]. *)
Definition two_variables : BDD :=
  (create_variable "x1" false (create_variable "x0" false new).2).2.

Definition two_nodes : BDD :=
  (build 3 (FAnd (FVar 0) (FVar 1)) two_variables).2.

(** A manager after two [create_variable_node], a [conjunction], a [clear]
    that drops the conjunction, and a [pre_image] that raises. *)
Definition after_clear : BDD :=
  after (PreImage 5 2 7)
    (after (Clear 10 [2; 3])
       (after (Conjunction 3 2 3)
          (after (CreateVariableNode "x1" false)
             (after (CreateVariableNode "x0" false) new)))).

(** A manager in which node 4, the conjunction of the two variables, is
    stored, and the one a [clear] that drops it leads to. *)
Definition before_clear : BDD :=
  after (Conjunction 3 2 3)
    (after (CreateVariableNode "x1" false)
       (after (CreateVariableNode "x0" false) new)).

Definition stale : BDD := after (Clear 10 [2; 3]) before_clear.

(** [f.cache_clear()] on the five memoised methods: what "from scratch"
    means for a recomputation. *)
Definition cache_clear (s : BDD) : BDD :=
  set_get_cofactors_cache []
    (set_ite_cache []
       (set_conjunction_cache []
          (set_disjunction_cache [] (set_pre_image_cache [] s)))).

(** A manager with a row whose child is gone: three
    [create_variable_node] (nodes 2, 3, 4), [conjunction(3, 4)] = 5,
    [clear([2, 3, 4])], which removes node 5 and leaves the cache entry
    [(3, 4) -> 5], then [conjunction(2, 3)] = 6 and [conjunction(6, 4)],
    whose recursive call [conjunction(3, 4)] is answered 5 by the cache, so
    that [make] stores node 7 with the row [(0, 5, 0)]. *)
Definition dangling : BDD :=
  after (Conjunction 4 6 4)
    (after (Conjunction 4 2 3)
       (after (Clear 10 [2; 3; 4])
          (after (Conjunction 4 3 4)
             (after (CreateVariableNode "x2" false)
                (after (CreateVariableNode "x1" false)
                   (after (CreateVariableNode "x0" false) new)))))).

(** The seed system once more, this time built as formulas: [x0], [x0'],
    [x1], [x1'] at levels 0 to 3. *)
Definition four_variables : BDD :=
  (create_variable "x1" true (create_variable "x1" false
     (create_variable "x0" true (create_variable "x0" false new).2).2).2).2.

Definition state_formula (i0 i1 : nat) (b0 b1 : bool) : formula :=
  FAnd (if b0 then FVar i0 else FNot (FVar i0))
       (if b1 then FVar i1 else FNot (FVar i1)).

Definition transition_formula : formula :=
  FOr (FOr (FAnd (state_formula 0 2 false false) (state_formula 1 3 false true))
           (FAnd (state_formula 0 2 false true) (state_formula 1 3 true false)))
      (FOr (FAnd (state_formula 0 2 true false) (state_formula 1 3 true true))
           (FAnd (state_formula 0 2 true true) (state_formula 1 3 false true))).

Definition seed_system : BDD := (build 5 transition_formula four_variables).2.

(** A manager with [x0] and its primed copy [x0'], their two nodes (2 and
    3) and the node of their conjunction (4). *)
Definition primed_pair : BDD :=
  (build 3 (FAnd (FVar 0) (FVar 1))
     (create_variable "x0" true (create_variable "x0" false new).2).2).2.

(** What [clear] never touches: the ordering, the two counters and the five
    caches. *)
Definition same_registry (s s' : BDD) : Prop :=
  _variable_ordering s' = _variable_ordering s /\
  _var_id s' = _var_id s /\
  _node_id s' = _node_id s /\
  get_cofactors_cache s' = get_cofactors_cache s /\
  ite_cache s' = ite_cache s /\
  conjunction_cache s' = conjunction_cache s /\
  disjunction_cache s' = disjunction_cache s /\
  pre_image_cache s' = pre_image_cache s.

(** A variable of [src/pydd/bdd.py] without its [is_primed] flag. *)
Definition older_variable (v : BDDVariable) : PyddBdd.BDDVariable :=
  PyddBdd.mkVar (name v) (var_id v).

(** The manager of the older copy that holds what [s] holds, with [d] as
    the cache of its own [disjunction]. *)
Definition older (d : list ((nat * nat) * nat)) (s : BDD) : PyddBdd.BDD :=
  PyddBdd.mkBDD (older_variable <$> _variable_ordering s) (_var_id s)
    (_node_id s) (_node_to_row s) (_row_to_node s) (_node_to_var_id s)
    (get_cofactors_cache s) (ite_cache s) (conjunction_cache s) d.

(** A manager of the older copy seen as one of [src/pydd/bdd.py]: no
    variable is primed, and the caches of [disjunction] and [pre_image]
    are empty. *)
Definition newer_variable (v : PyddBdd.BDDVariable) : BDDVariable :=
  mkVar (PyddBdd.name v) (PyddBdd.var_id v) false.

Definition newer (t : PyddBdd.BDD) : BDD :=
  mkBDD (newer_variable <$> PyddBdd._variable_ordering t) (PyddBdd._var_id t)
    (PyddBdd._node_id t) (PyddBdd._node_to_row t) (PyddBdd._row_to_node t)
    (PyddBdd._node_to_var_id t) (PyddBdd.get_cofactors_cache t)
    (PyddBdd.ite_cache t) (PyddBdd.conjunction_cache t) [] [].

Definition res_map {A B} (f : A -> B) (r : res A) : res B :=
  match r with
  | Ok a => Ok (f a)
  | Raise e => Raise e
  end.

(** The outcome of a call of [src/pydd/bdd.py] as the older copy shows it. *)
Definition older_run {A B} (f : A -> B) (d : list ((nat * nat) * nat))
    (p : res A * BDD) : res B * PyddBdd.BDD :=
  (res_map f p.1, older d p.2).

(** [m'] does in the older copy what [m] does in [src/pydd/bdd.py]. *)
Definition agrees {A B} (f : A -> B) (m : M BDD A) (m' : M PyddBdd.BDD B) : Prop :=
  forall d s, m' (older d s) = older_run f d (m s).

(** The manager of the older copy after [create_variable_node("x0")],
    [create_variable_node("x1")] and the [conjunction] of the two nodes. *)
Definition older_two_nodes : PyddBdd.BDD := older [] two_nodes.

(** The loop of the script run on a manager of [src/pydd/bdd.py]. *)
Fixpoint conjoin_fresh (fuel : nat) (i count : nat) (n : nat) : M BDD nat :=
  match count with
  | 0 => ret n
  | S count =>
      x <- create_variable_node ("x" +:+ pretty i) false ;;
      n <- conjunction fuel n x ;;
      conjoin_fresh fuel (S i) count n
  end.

(** [clear] removes rows and leaves the five caches as they are, so a cache
    can answer with an identifier that is stored no longer, and [make] can
    store a row with such a child.  What survives a [clear] is the order in
    which the identifiers were allocated and the level each was allocated
    at: an identifier is never given out twice.  [L n] is the level the
    identifier [n >= 2] was allocated at, whether its row is still stored or
    not; the terminals sit at infinity. *)
Definition hlvl (L : nat -> nat) (n : nat) : level :=
  if n <? 2 then Infinity else Finite (L n).

(** [n] was allocated, and at level [k] or deeper. *)
Definition lev (L : nat -> nat) (s : BDD) (k n : nat) : Prop :=
  n < _node_id s /\ level_le (Finite k) (hlvl L n).

(** An entry of the cache of [get_cofactors]: it was right when it was
    made.  The identifiers are allocated ones, the cofactors are not above
    the node, and when the node is still stored the entry is what the body
    of [get_cofactors] computes from its row. *)
Definition cofactors_kept (L : nat -> nat) (s : BDD)
    (e : (nat * nat) * (nat * nat)) : Prop :=
  let '((n, i), (h, lo)) := e in
  n < _node_id s /\ h < _node_id s /\ lo < _node_id s /\
  level_le (hlvl L n) (hlvl L h) /\ level_le (hlvl L n) (hlvl L lo) /\
  forall l h0 lo0, _node_to_row s !! n = Some (l, h0, lo0) ->
    (h, lo) = if i <? l then (n, n) else (h0, lo0).

(** An entry of the cache of [ite]: the result is the second or the third
    operand as it is, or an allocated identifier not above the topmost of
    the three allocated operands. *)
Definition ite_kept (L : nat -> nat) (s : BDD)
    (e : (nat * nat * nat) * nat) : Prop :=
  let '((a, b, c), r) := e in
  (a = 1 /\ r = b) \/ (a = 0 /\ r = c) \/
  (a < _node_id s /\ b < _node_id s /\ c < _node_id s /\ r < _node_id s /\
   level_le (level_min (level_min (hlvl L a) (hlvl L b)) (hlvl L c)) (hlvl L r)).

(** An entry of the cache of [conjunction], [disjunction] or [pre_image]:
    the result is a terminal, or an allocated identifier not above the
    topmost of the two allocated operands. *)
Definition binary_kept (L : nat -> nat) (s : BDD)
    (e : (nat * nat) * nat) : Prop :=
  let '((a, b), r) := e in
  r < 2 \/
  (a < _node_id s /\ b < _node_id s /\ r < _node_id s /\
   level_le (level_min (hlvl L a) (hlvl L b)) (hlvl L r)).

(** What every call keeps true, [clear] included: the store invariants,
    the registry indexed by [var_id], every row made of identifiers that
    were allocated before its own, at deeper levels, and caches whose
    entries were right when they were made. *)
Record history (L : nat -> nat) (s : BDD) : Prop := {
  h_store : store_inv s;
  h_var_id : _var_id s = length (_variable_ordering s);
  h_ordering : forall i v, _variable_ordering s !! i = Some v -> var_id v = i;
  h_rows : forall n l h lo, _node_to_row s !! n = Some (l, h, lo) ->
    L n = l /\ h < n /\ lo < n /\
    level_lt (Finite l) (hlvl L h) /\ level_lt (Finite l) (hlvl L lo);
  h_cofactors : Forall (cofactors_kept L s) (get_cofactors_cache s);
  h_ite : Forall (ite_kept L s) (ite_cache s);
  h_conjunction : Forall (binary_kept L s) (conjunction_cache s);
  h_disjunction : Forall (binary_kept L s) (disjunction_cache s);
  h_pre_image : Forall (binary_kept L s) (pre_image_cache s)
}.

(** From [s] to [s'] an operator ran: the registry is the same, the
    identifiers allocated in [s] have the rows and the levels they had, and
    new ones may have been allocated above them. *)
Definition later (L : nat -> nat) (s : BDD) (L' : nat -> nat) (s' : BDD) : Prop :=
  _variable_ordering s' = _variable_ordering s /\
  _node_id s <= _node_id s' /\
  (forall n, n < _node_id s -> _node_to_row s' !! n = _node_to_row s !! n) /\
  (forall n, n < _node_id s -> L' n = L n).

(** The call [m] in the manager [s]: whatever the outcome, the manager it
    leaves has a history; a value it returns satisfies [Q]; and when
    [strict] holds, the call is not cut short. *)
Definition ends {A} (strict : Prop) (L : nat -> nat) (s : BDD) (m : M BDD A)
    (Q : (nat -> nat) -> BDD -> A -> Prop) : Prop :=
  exists L', history L' (m s).2 /\ later L s L' (m s).2 /\
    match (m s).1 with
    | Ok r => Q L' (m s).2 r
    | Raise e => strict -> e <> OutOfFuel
    end.

(** The bound on the operand [n] of a call: none ([k = 0]), or [n] was
    allocated at level [k] or deeper. *)
Definition floor (L : nat -> nat) (s : BDD) (k n : nat) : Prop :=
  k = 0 \/ lev L s k n.

(** The recursion depth [fuel] is enough for the levels from [k] on. *)
Definition deep (s : BDD) (k fuel : nat) : Prop :=
  length (_variable_ordering s) - k < fuel.

(** The function [L] after [make] allocated the identifier [n] at level
    [l]. *)
Definition allocated_at (n l : nat) (L : nat -> nat) : nat -> nat :=
  fun m => if m =? n then l else L m.

(** What a binary operator run at recursion depth [fuel] does: the entry
    for its result is right, and it is not cut short when its operands lie
    at a level [k] or deeper from which [fuel] levels reach the end of the
    ordering. *)
Definition binary_rec (fuel : nat) (rec : nat -> nat -> M BDD nat) : Prop :=
  forall L s a b, history L s ->
    ends (exists k, floor L s k a /\ floor L s k b /\ deep s k fuel) L s (rec a b)
      (fun L' s' r => binary_kept L' s' ((a, b), r)).

(** The same for [ite], on three operands. *)
Definition ite_rec (fuel : nat) (rec : nat -> nat -> nat -> M BDD nat) : Prop :=
  forall L s a b c, history L s ->
    ends (exists k, floor L s k a /\ floor L s k b /\ floor L s k c /\
                    deep s k fuel) L s (rec a b c)
      (fun L' s' r => ite_kept L' s' ((a, b, c), r)).

(** What the target set of a recursive call of [pre_image] must be like
    for the call not to be cut short: over unprimed variables, and with
    [fuel] levels left from level [k] on.  It is asked for under the
    condition [P] of the outermost call only. *)
Definition under (P : Prop) (s : BDD) (k fuel n : nat) : Prop :=
  P -> over_unprimed s n /\ deep s k fuel.

(** What [pre_image] run at recursion depth [fuel] does: the entry for its
    result is right, and it is not cut short when its target set is over
    unprimed variables and the operands lie at a level [k] or deeper from
    which [fuel] levels reach the end of the ordering. *)
Definition pre_image_call (fuel : nat) (rec : nat -> nat -> M BDD nat) : Prop :=
  forall L s a b, history L s ->
    ends (over_unprimed s b /\
          exists k, floor L s k a /\ floor L s k b /\ deep s k fuel) L s (rec a b)
      (fun L' s' r => binary_kept L' s' ((a, b), r)).

(** What the spec asks of a caller of [make] (section 4.2): the two
    children are known and lie strictly below the variable.  The other
    methods take any argument. *)
Definition within_contract (s : BDD) (c : call) : Prop :=
  match c with
  | Make v n1 n0 =>
      valid s n1 /\ valid s n0 /\
      level_lt (Finite (var_id v)) (lvl s n1) /\
      level_lt (Finite (var_id v)) (lvl s n0)
  | _ => True
  end.

(** The managers a client can get to from [BDD()] by calls of the public
    methods, [clear] among them, whether the calls return or raise, when
    its own calls of [make] respect the contract of [make]. *)
Inductive client_reachable : BDD -> Prop :=
| client_new : client_reachable new
| client_call c s :
    client_reachable s -> within_contract s c -> client_reachable (after c s).

(** The seed system of [src/examples/transition_system.py] after
    [clear([pre, x10])]: the store is well formed, the ordering is
    interleaved, and the caches still hold what the script computed. *)
Definition seed_cleared : BDD :=
  after (Clear 100 [33; 10]) (transition_system 5 new).2.

(** [clear] removes rows and nothing else. *)
Definition shrinks (s s' : BDD) : Prop := _node_to_row s' ⊆ _node_to_row s.

(** * Frame reasoning: what every public method keeps *)

Section stable.
Context (R : BDD -> BDD -> Prop) `{!PreOrder R}.

Lemma stable_ret {A} (a : A) : stable R (ret a).
Proof. intros s. reflexivity. Qed.

Lemma stable_raise {A} e : stable R (raise (A:=A) e).
Proof. intros s. reflexivity. Qed.

Lemma stable_gets {A} (f : BDD -> A) : stable R (gets f).
Proof. intros s. reflexivity. Qed.

Lemma stable_subscript {A} (o : option A) : stable R (subscript o).
Proof. destruct o; [apply stable_ret | apply stable_raise]. Qed.

Lemma stable_list_index {A} (l : list A) i : stable R (list_index l i).
Proof.
  destruct i as [n|]; simpl; [|apply stable_raise].
  destruct (l !! n); [apply stable_ret | apply stable_raise].
Qed.

Lemma stable_bind {A B} (m : M BDD A) (k : A -> M BDD B) :
  stable R m -> (forall a, stable R (k a)) -> stable R (bind m k).
Proof.
  intros Hm Hk s. unfold bind. specialize (Hm s).
  destruct (m s) as [[a|e] s1]; simpl in *; [|done].
  etrans; [exact Hm | apply Hk].
Qed.

Lemma stable_modify (f : BDD -> BDD) :
  (forall s, R s (f s)) -> stable R (modify f).
Proof. intros Hf s. apply Hf. Qed.

Lemma stable_lru_cache {K V} `{EqDecision K} (get : BDD -> list (K * V))
    (set : list (K * V) -> BDD -> BDD) k (f : M BDD V) :
  (forall c s, R s (set c s)) -> stable R f -> stable R (lru_cache get set k f).
Proof.
  intros Hset Hf s. unfold lru_cache.
  destruct (lru_find k (get s)); simpl; [apply Hset|].
  specialize (Hf s). destruct (f s) as [[v|e] s1]; simpl in *; [|done].
  etrans; [exact Hf | apply Hset].
Qed.
End stable.

Ltac stable_step :=
  first
    [ assumption
    | solve [ first [ apply stable_ret | apply stable_raise | apply stable_gets
                    | apply stable_subscript | apply stable_list_index ];
              apply _ ]
    | apply stable_bind; [apply _ | | intros ?]
    | apply stable_lru_cache; [apply _ | solve [auto] | ]
    | match goal with
      | |- stable _ (if ?b then _ else _) => destruct b
      | |- stable _ (match ?x with _ => _ end) => destruct x
      end ].

(** A relation kept by the four kinds of writes the methods do is kept by
    every call. *)
Section frame.
Context (R : BDD -> BDD -> Prop) `{!PreOrder R}.
Hypothesis R_cofactors : forall c s, R s (set_get_cofactors_cache c s).
Hypothesis R_ite : forall c s, R s (set_ite_cache c s).
Hypothesis R_conjunction : forall c s, R s (set_conjunction_cache c s).
Hypothesis R_disjunction : forall c s, R s (set_disjunction_cache c s).
Hypothesis R_pre_image : forall c s, R s (set_pre_image_cache c s).
Hypothesis R_make : forall v n1 n0, stable R (make v n1 n0).
Hypothesis R_create_variable : forall x p, stable R (create_variable x p).
Hypothesis R_sweep : forall explored s,
  R s (clear_sweep (elements (dom (_node_to_row s) ∖ explored)) s).2.

Lemma stable_get_succs n : stable R (get_succs n).
Proof using PreOrder0. unfold get_succs. repeat stable_step. Qed.

Lemma stable_get_cofactors n v : stable R (get_cofactors n v).
Proof using PreOrder0 R_cofactors.
  unfold get_cofactors.
  pose proof (stable_get_succs n). repeat stable_step.
Qed.

Lemma stable_node_level n : stable R (node_level n).
Proof using PreOrder0. unfold node_level. repeat stable_step. Qed.

Lemma stable_variable_at i : stable R (variable_at i).
Proof using PreOrder0. unfold variable_at. repeat stable_step. Qed.

Lemma stable_ite fuel a b c : stable R (ite fuel a b c).
Proof using PreOrder0 R_cofactors R_ite R_make.
  revert a b c. induction fuel as [|fuel IH]; intros a b c; simpl.
  { stable_step. }
  repeat first
    [ apply stable_node_level | apply stable_variable_at
    | apply stable_get_cofactors | apply IH | apply R_make | stable_step ].
Qed.

Lemma stable_conjunction fuel a b : stable R (conjunction fuel a b).
Proof using PreOrder0 R_cofactors R_conjunction R_make.
  revert a b. induction fuel as [|fuel IH]; intros a b; simpl.
  { stable_step. }
  repeat first
    [ apply stable_node_level | apply stable_variable_at
    | apply stable_get_cofactors | apply IH | apply R_make | stable_step ].
Qed.

Lemma stable_disjunction fuel a b : stable R (disjunction fuel a b).
Proof using PreOrder0 R_cofactors R_disjunction R_make.
  revert a b. induction fuel as [|fuel IH]; intros a b; simpl.
  { stable_step. }
  repeat first
    [ apply stable_node_level | apply stable_variable_at
    | apply stable_get_cofactors | apply IH | apply R_make | stable_step ].
Qed.

Lemma stable_pre_image fuel a b : stable R (pre_image fuel a b).
Proof using PreOrder0 R_cofactors R_disjunction R_pre_image R_make.
  revert a b. induction fuel as [|fuel IH]; intros a b; simpl.
  { stable_step. }
  repeat first
    [ apply stable_node_level | apply stable_variable_at
    | apply stable_get_cofactors | apply IH | apply R_make
    | apply stable_disjunction | stable_step ].
Qed.

Lemma stable_clear_loop fuel queue explored :
  stable R (clear_loop fuel queue explored).
Proof using PreOrder0.
  revert queue explored. induction fuel as [|fuel IH]; intros queue explored.
  - destruct queue; simpl; stable_step.
  - destruct queue as [|current queue]; simpl; [stable_step|].
    repeat first [ apply IH | apply stable_get_succs | stable_step ].
Qed.

Lemma stable_clear fuel nodes : stable R (clear fuel nodes).
Proof using PreOrder0 R_sweep.
  unfold clear. apply stable_bind; [apply _ | apply stable_clear_loop |].
  intros explored s. apply R_sweep.
Qed.

Lemma stable_after c s : R s (after c s).
Proof using All.
  destruct c; simpl.
  - apply R_create_variable.
  - unfold create_variable_node, node_from_variable.
    repeat first [ apply R_create_variable | apply R_make | stable_step ].
  - apply R_make.
  - apply stable_get_cofactors.
  - apply R_make.
  - apply stable_ite.
  - apply stable_ite.
  - apply stable_conjunction.
  - apply stable_disjunction.
  - apply stable_pre_image.
  - apply stable_clear.
Qed.
End frame.

(** * [make] *)

Lemma make_eq v n1 n0 s :
  make v n1 n0 s =
    if n1 =? n0 then (Ok n1, s)
    else match _row_to_node s !! (var_id v, n1, n0) with
         | Some n => (Ok n, s)
         | None => (Ok (_node_id s), allocated (var_id v) n1 n0 s)
         end.
Proof.
  unfold make. destruct (n1 =? n0); [done|].
  unfold bind, gets, modify, ret; simpl.
  destruct (_row_to_node s !! (var_id v, n1, n0)); [done|].
  by rewrite Nat.sub_0_r.
Qed.

Lemma allocated_store_inv l n1 n0 s :
  store_inv s -> n1 <> n0 -> _row_to_node s !! (l, n1, n0) = None ->
  store_inv (allocated l n1 n0 s).
Proof.
  intros [Hid H0 H1 Hlev Hinv Hids Hred] Hne Hfresh.
  assert (Hnew : _node_to_row s !! _node_id s = None).
  { destruct (_node_to_row s !! _node_id s) as [r|] eqn:E; [|done].
    apply Hids in E. lia. }
  split; unfold I1, mutually_inverse in *; simpl.
  - lia.
  - rewrite lookup_insert_ne; [done | lia].
  - rewrite lookup_insert_ne; [done | lia].
  - intros n Hn. destruct (decide (_node_id s = n)) as [<-|Hd].
    + by rewrite !lookup_insert_eq.
    + rewrite !lookup_insert_ne by done. by apply Hlev.
  - intros n r. simpl.
    destruct (decide (_node_id s = n)) as [<-|Hd];
      destruct (decide ((l, n1, n0) = r)) as [<-|Hr].
    + by rewrite !lookup_insert_eq.
    + rewrite lookup_insert_eq, lookup_insert_ne by done. split.
      * intros [= ?]. done.
      * intros E. apply (proj2 (Hinv _ _)) in E. congruence.
    + rewrite lookup_insert_ne, lookup_insert_eq by done. split.
      * intros E. apply (proj1 (Hinv _ _)) in E. congruence.
      * intros [= ?]. done.
    + rewrite !lookup_insert_ne by done. apply Hinv.
  - intros n r. destruct (decide (_node_id s = n)) as [<-|Hd].
    + intros _. lia.
    + rewrite lookup_insert_ne by done. intros E. apply Hids in E. lia.
  - intros n l' h lo. destruct (decide (_node_id s = n)) as [<-|Hd].
    + rewrite lookup_insert_eq. intros [= -> -> ->]. done.
    + rewrite lookup_insert_ne by done. apply Hred.
Qed.

Lemma make_store_inv v n1 n0 s :
  store_inv s -> store_inv (make v n1 n0 s).2.
Proof.
  intros Hs. rewrite make_eq. destruct (n1 =? n0) eqn:E; [done|].
  destruct (_row_to_node s !! _) eqn:E'; [done|]. simpl.
  apply allocated_store_inv; [done | by apply Nat.eqb_neq | done].
Qed.

Lemma make_node_id v n1 n0 s :
  _node_id s <= _node_id (make v n1 n0 s).2.
Proof.
  rewrite make_eq. destruct (n1 =? n0); [done|].
  destruct (_row_to_node s !! _); simpl; lia.
Qed.

(** * [create_variable] *)

Lemma create_variable_eq x p s :
  create_variable x p s =
    (Ok (mkVar x (_var_id s) p),
     set_variable_ordering (fun l => l ++ [mkVar x (_var_id s) p])
       (set_var_id S s)).
Proof. done. Qed.

Lemma create_variable_store_inv x p s :
  store_inv s -> store_inv (create_variable x p s).2.
Proof. intros [? ? ? ? ? ? ?]. by split. Qed.

(** * The sweep of [clear] *)

Lemma clear_sweep_cons n rest s r :
  store_inv s -> _node_to_row s !! n = Some r ->
  clear_sweep (n :: rest) s = clear_sweep rest (swept n r s).
Proof.
  intros Hs Hn. pose proof (si_ids _ Hs _ _ Hn) as Hn2.
  pose proof (si_level _ Hs n (proj1 Hn2)) as Hl. rewrite Hn in Hl.
  pose proof (proj1 (si_inverse _ Hs n r) Hn) as Hr.
  simpl. unfold del_node_to_var_id, del_row_to_node, del_node_to_row.
  unfold bind, gets, modify; simpl. rewrite Hl; simpl.
  rewrite Hn; simpl. rewrite Hr; simpl. rewrite Hn; simpl. done.
Qed.

Lemma swept_store_inv n r s :
  store_inv s -> _node_to_row s !! n = Some r -> store_inv (swept n r s).
Proof.
  intros Hs Hn. pose proof (si_ids _ Hs _ _ Hn) as Hn2.
  destruct Hs as [Hid H0 H1 Hlev Hinv Hids Hred].
  split; unfold I1, mutually_inverse in *; simpl.
  - done.
  - rewrite lookup_delete_ne; [done | lia].
  - rewrite lookup_delete_ne; [done | lia].
  - intros m Hm. destruct (decide (n = m)) as [<-|Hd].
    + by rewrite !lookup_delete_eq.
    + rewrite !lookup_delete_ne by done. by apply Hlev.
  - intros m r'. simpl.
    destruct (decide (n = m)) as [<-|Hd]; destruct (decide (r = r')) as [<-|Hr].
    + by rewrite !lookup_delete_eq.
    + rewrite lookup_delete_eq, lookup_delete_ne by done. split; [done|].
      intros E. apply (proj2 (Hinv _ _)) in E. congruence.
    + rewrite lookup_delete_ne, lookup_delete_eq by done. split; [|done].
      intros E. apply (proj1 (Hinv _ _)) in E.
      apply (proj1 (Hinv _ _)) in Hn. congruence.
    + rewrite !lookup_delete_ne by done. apply Hinv.
  - intros m r'. destruct (decide (n = m)) as [<-|Hd].
    + by rewrite lookup_delete_eq.
    + rewrite lookup_delete_ne by done. apply Hids.
  - intros m l h lo. destruct (decide (n = m)) as [<-|Hd].
    + by rewrite lookup_delete_eq.
    + rewrite lookup_delete_ne by done. apply Hred.
Qed.

(** Sweeping a duplicate-free list of stored nodes returns, keeps the store
    invariants and removes exactly these nodes from [_node_to_row]. *)
Lemma clear_sweep_spec (l : list nat) s :
  store_inv s -> NoDup l -> (forall n, n ∈ l -> is_Some (_node_to_row s !! n)) ->
  exists s', clear_sweep l s = (Ok tt, s') /\ store_inv s' /\
    _node_id s' = _node_id s /\
    _variable_ordering s' = _variable_ordering s /\
    (forall n, _node_to_row s' !! n =
               if decide (n ∈ l) then None else _node_to_row s !! n).
Proof.
  revert s. induction l as [|n l IH]; intros s Hs Hnd Hin.
  - exists s. split_and!; try done.
  - apply NoDup_cons in Hnd as [Hn Hnd].
    destruct (Hin n) as [r Hr]; [set_solver|].
    rewrite (clear_sweep_cons _ _ _ _ Hs Hr).
    destruct (IH (swept n r s)) as (s' & Hrun & Hs' & Hid & Hord & Hrows).
    + by apply swept_store_inv.
    + done.
    + intros m Hm. simpl. rewrite lookup_delete_ne; [|intros ->; done].
      apply Hin. set_solver.
    + exists s'. split_and!; try done. intros m. rewrite Hrows. simpl.
      destruct (decide (m ∈ l)) as [Hm|Hm].
      * rewrite decide_True; [done | set_solver].
      * destruct (decide (n = m)) as [<-|Hd].
        -- rewrite decide_True; [|set_solver]. by rewrite lookup_delete_eq.
        -- rewrite decide_False; [|intros [?|?]%elem_of_cons; done].
           by rewrite lookup_delete_ne.
Qed.

Lemma clear_sweep_inactive explored s :
  store_inv s ->
  exists s',
    clear_sweep (elements (dom (_node_to_row s) ∖ explored)) s = (Ok tt, s') /\
    store_inv s' /\ _node_id s' = _node_id s /\
    _variable_ordering s' = _variable_ordering s /\
    (forall n, _node_to_row s' !! n =
               if decide (n ∈ explored) then _node_to_row s !! n else None).
Proof.
  intros Hs.
  destruct (clear_sweep_spec (elements (dom (_node_to_row s) ∖ explored)) s)
    as (s' & Hrun & Hs' & Hid & Hord & Hrows); [done | apply NoDup_elements | |].
  { intros n Hn. apply elem_of_elements, elem_of_difference in Hn as [Hn _].
    by apply elem_of_dom. }
  exists s'. split_and!; try done. intros n. rewrite Hrows.
  destruct (decide (n ∈ explored)) as [Hn|Hn].
  - rewrite decide_False; [done|].
    rewrite elem_of_elements, elem_of_difference. tauto.
  - destruct (_node_to_row s !! n) as [r|] eqn:E.
    + rewrite decide_True; [done|].
      rewrite elem_of_elements, elem_of_difference, elem_of_dom. split; [|done].
      by rewrite E.
    + by destruct (decide _).
Qed.

(** Whatever the list, the sweep only deletes. *)
Section sweep_stable.
Context (R : BDD -> BDD -> Prop) `{!PreOrder R}.
Hypothesis R_del_level : forall n s, R s (set_node_to_var_id (delete n) s).
Hypothesis R_del_node : forall r s, R s (set_row_to_node (delete r) s).
Hypothesis R_del_row : forall n s, R s (set_node_to_row (delete n) s).

Lemma stable_clear_sweep l : stable R (clear_sweep l).
Proof using All.
  induction l as [|n l IH]; simpl; [stable_step|].
  unfold del_node_to_var_id, del_row_to_node, del_node_to_row.
  repeat first [ apply stable_modify; solve [auto] | stable_step ].
Qed.
End sweep_stable.

(** * The store invariants hold in every manager a client can get to *)

Global Instance keeps_store_inv_preorder : PreOrder keeps_store_inv.
Proof. split; unfold keeps_store_inv; [intros ?|intros ? ? ?]; tauto. Qed.

Lemma store_inv_insensitive s s' :
  _node_id s' = _node_id s -> _node_to_row s' = _node_to_row s ->
  _row_to_node s' = _row_to_node s -> _node_to_var_id s' = _node_to_var_id s ->
  store_inv s -> store_inv s'.
Proof.
  intros E1 E2 E3 E4 [? ? ? ? ? ? ?].
  split; unfold I1, mutually_inverse in *; rewrite ?E1, ?E2, ?E3, ?E4; done.
Qed.

Lemma store_inv_new : store_inv new.
Proof.
  split; unfold I1, mutually_inverse; simpl; try done.
  intros n Hn. rewrite lookup_empty. simpl.
  rewrite !lookup_insert_ne; [done | unfold get_zero_node; lia | unfold get_one_node; lia].
Qed.

Lemma after_store_inv c s : store_inv s -> store_inv (after c s).
Proof.
  revert c s. apply (stable_after keeps_store_inv).
  - intros c s Hs. by apply (store_inv_insensitive s).
  - intros c s Hs. by apply (store_inv_insensitive s).
  - intros c s Hs. by apply (store_inv_insensitive s).
  - intros c s Hs. by apply (store_inv_insensitive s).
  - intros c s Hs. by apply (store_inv_insensitive s).
  - intros v n1 n0 s Hs. by apply make_store_inv.
  - intros x p s Hs. by apply create_variable_store_inv.
  - intros explored s Hs.
    destruct (clear_sweep_inactive explored s Hs) as (s' & -> & Hs' & _). done.
Qed.

Lemma reachable_store_inv s : reachable s -> store_inv s.
Proof.
  induction 1 as [|c s _ IH]; [apply store_inv_new | by apply after_store_inv].
Qed.

Lemma store_inv_I2 s : store_inv s -> I2 s.
Proof.
  intros Hs n n' r Hn Hn'.
  apply (proj1 (si_inverse _ Hs _ _)) in Hn, Hn'. congruence.
Qed.

(** * The allocation counter *)

Global Instance allocates_above_preorder : PreOrder allocates_above.
Proof.
  split.
  - intros s. split; [done|]. intros n [r Hr] Hn. congruence.
  - intros s1 s2 s3 [H12 N12] [H23 N23]. split; [lia|].
    intros n Hn3 Hn1.
    destruct (_node_to_row s2 !! n) as [r|] eqn:E.
    + apply N12; [by rewrite E | done].
    + etrans; [exact H12 | by apply N23].
Qed.

Lemma allocates_above_shrink s s' :
  _node_id s' = _node_id s -> _node_to_row s' ⊆ _node_to_row s ->
  allocates_above s s'.
Proof.
  intros E Hsub. split; [lia|]. intros n [r Hr] Hn.
  eapply lookup_weaken in Hr; [|exact Hsub]. congruence.
Qed.

Lemma after_allocates_above c s : allocates_above s (after c s).
Proof.
  revert c s. apply (stable_after allocates_above).
  - intros c s. by apply allocates_above_shrink.
  - intros c s. by apply allocates_above_shrink.
  - intros c s. by apply allocates_above_shrink.
  - intros c s. by apply allocates_above_shrink.
  - intros c s. by apply allocates_above_shrink.
  - intros v n1 n0 s. rewrite make_eq. destruct (n1 =? n0); [done|].
    destruct (_row_to_node s !! _); [done|]. simpl. split; simpl; [lia|].
    intros n [r Hr] Hn. destruct (decide (_node_id s = n)) as [<-|Hd]; [done|].
    rewrite lookup_insert_ne in Hr by done. congruence.
  - intros x p s. by apply allocates_above_shrink.
  - intros explored s. apply stable_clear_sweep; [apply _|..]; intros n s0.
    + by apply allocates_above_shrink.
    + by apply allocates_above_shrink.
    + apply allocates_above_shrink; [done | apply delete_subseteq].
Qed.

Global Instance same_node_id_preorder : PreOrder same_node_id.
Proof. split; unfold same_node_id; [intros ?|intros ? ? ?]; congruence. Qed.

Lemma clear_node_id fuel nodes s :
  _node_id (clear fuel nodes s).2 = _node_id s.
Proof.
  revert s. change (stable same_node_id (clear fuel nodes)).
  unfold clear. apply stable_bind; [apply _ | apply stable_clear_loop; apply _ |].
  intros explored. apply stable_bind; [apply _ | stable_step |].
  intros keys. by apply stable_clear_sweep; [apply _|..].
Qed.

Lemma steps_allocates_above s s' : steps s s' -> allocates_above s s'.
Proof.
  induction 1 as [|c s s' _ IH]; [reflexivity|].
  etrans; [exact IH | apply after_allocates_above].
Qed.

(** * Levels *)

Ltac level_solve :=
  unfold level_lt, level_le, level_min, level_succ in *;
  repeat match goal with
         | x : level |- _ => destruct x
         end;
  simpl in *;
  repeat match goal with
         | H : context [?a <? ?b] |- _ => destruct (Nat.ltb_spec a b); simpl in H
         | |- context [?a <? ?b] => destruct (Nat.ltb_spec a b); simpl
         end;
  try done; try lia; try (f_equal; lia).

Lemma level_lt_le x y : level_lt x y -> level_le x y.
Proof. level_solve. Qed.

Lemma level_le_refl x : level_le x x.
Proof. level_solve. Qed.

Lemma level_lt_le_trans x y z : level_lt x y -> level_le y z -> level_lt x z.
Proof. level_solve. Qed.

Lemma level_le_trans x y z : level_le x y -> level_le y z -> level_le x z.
Proof. level_solve. Qed.

Lemma level_le_infinity x : level_le x Infinity.
Proof. level_solve. Qed.

Lemma level_min_le_l x y : level_le (level_min x y) x.
Proof. level_solve. Qed.

Lemma level_min_le_r x y : level_le (level_min x y) y.
Proof. level_solve. Qed.

Lemma level_min_glb x y z : level_le z x -> level_le z y -> level_le z (level_min x y).
Proof. level_solve. Qed.

Lemma level_min_glb_lt x y z : level_lt z x -> level_lt z y -> level_lt z (level_min x y).
Proof. level_solve. Qed.

Lemma level_lt_finite l x : level_lt x (Finite l) -> exists k, x = Finite k /\ k < l.
Proof. destruct x as [k|]; [|done]. exists k. level_solve. Qed.

(** * Nodes of a well-formed store *)

Section wf_facts.
Context (s : BDD) (Hwf : wf s).

Lemma wf_terminal_row n : n < 2 -> _node_to_row s !! n = None.
Proof using Hwf.
  intros Hn. destruct (_node_to_row s !! n) as [r|] eqn:E; [|done].
  apply (si_ids _ (wf_store _ Hwf)) in E. lia.
Qed.

Lemma lvl_terminal n : n < 2 -> lvl s n = Infinity.
Proof using Hwf. intros Hn. unfold lvl. by rewrite wf_terminal_row. Qed.

Lemma lvl_row n l h lo :
  _node_to_row s !! n = Some (l, h, lo) -> lvl s n = Finite l.
Proof. intros E. unfold lvl. by rewrite E. Qed.

Lemma lvl_finite n l : lvl s n = Finite l ->
  exists h lo, _node_to_row s !! n = Some (l, h, lo).
Proof.
  unfold lvl. destruct (_node_to_row s !! n) as [[[l' h] lo]|]; [|done].
  intros [= ->]. eauto.
Qed.

Lemma lvl_bound n l : lvl s n = Finite l -> l < length (_variable_ordering s).
Proof using Hwf.
  intros (h & lo & E)%lvl_finite. by apply (wf_rows _ Hwf) in E as (? & _).
Qed.

Lemma valid_terminal n : n < 2 -> valid s n.
Proof. by left. Qed.

Lemma valid_row n r : _node_to_row s !! n = Some r -> valid s n.
Proof. intros E. right. by rewrite E. Qed.

Lemma valid_cases n :
  valid s n ->
  n = 0 \/ n = 1 \/
  exists l h lo, _node_to_row s !! n = Some (l, h, lo) /\ 2 <= n.
Proof using Hwf.
  intros [Hn|[[[l h] lo] E]].
  - lia.
  - right; right. exists l, h, lo. split; [done|].
    apply (si_ids _ (wf_store _ Hwf)) in E. lia.
Qed.

(** [self._node_to_var_id[n]] is the level of [n]. *)
Lemma node_level_valid n :
  valid s n -> node_level n s = (Ok (lvl s n), s).
Proof using Hwf.
  intros Hn. unfold node_level, bind, gets; simpl.
  destruct (valid_cases n Hn) as [->|[->|(l & h & lo & E & Hn2)]].
  - rewrite (si_zero _ (wf_store _ Hwf)). by rewrite lvl_terminal by lia.
  - rewrite (si_one _ (wf_store _ Hwf)). by rewrite lvl_terminal by lia.
  - rewrite (si_level _ (wf_store _ Hwf)) by done. rewrite E. simpl.
    by rewrite (lvl_row _ _ _ _ E).
Qed.


(** ** The function a node denotes *)

Lemma interp_fuel fuel1 fuel2 n env :
  n < fuel1 -> n < fuel2 -> interp s fuel1 n env = interp s fuel2 n env.
Proof using Hwf.
  revert fuel2 n. induction fuel1 as [|fuel1 IH]; intros fuel2 n H1 H2; [lia|].
  destruct fuel2 as [|fuel2]; [lia|]. simpl.
  destruct (n =? 0); [done|]. destruct (n =? 1); [done|].
  destruct (_node_to_row s !! n) as [[[l h] lo]|] eqn:E; [|done].
  apply (wf_rows _ Hwf) in E as (_ & _ & _ & Hh & Hlo).
  destruct (env l); apply IH; lia.
Qed.

Lemma sem_zero env : sem s 0 env = false.
Proof. done. Qed.

Lemma sem_one env : sem s 1 env = true.
Proof. done. Qed.

Lemma sem_row n l h lo env :
  _node_to_row s !! n = Some (l, h, lo) ->
  sem s n env = if env l then sem s h env else sem s lo env.
Proof using Hwf.
  intros E. pose proof (si_ids _ (wf_store _ Hwf) _ _ E) as Hn.
  pose proof (wf_rows _ Hwf _ _ _ _ E) as (_ & _ & _ & Hh & Hlo).
  unfold sem at 1. simpl.
  destruct (Nat.eqb_spec n 0); [lia|]. destruct (Nat.eqb_spec n 1); [lia|].
  rewrite E. unfold sem. destruct (env l); apply interp_fuel; lia.
Qed.

(** A node does not look at the levels above its own. *)
Lemma sem_independent n env env' :
  valid s n ->
  (forall l, level_le (lvl s n) (Finite l) -> env l = env' l) ->
  sem s n env = sem s n env'.
Proof using Hwf.
  induction (lt_wf n) as [n _ IH]. intros Hn Henv.
  destruct (valid_cases n Hn) as [->|[->|(l & h & lo & E & Hn2)]]; [done..|].
  rewrite !(sem_row _ _ _ _ _ E).
  pose proof (wf_rows _ Hwf _ _ _ _ E) as (_ & Hvh & Hvlo & Hh & Hlo).
  pose proof (wf_ordered _ Hwf _ _ _ _ E) as [Hoh Holo].
  rewrite (lvl_row _ _ _ _ E) in Henv.
  rewrite <- (Henv l) by level_solve.
  destruct (env l).
  - apply IH; [done..|]. intros k Hk. apply Henv.
    destruct (lvl s h); level_solve.
  - apply IH; [done..|]. intros k Hk. apply Henv.
    destruct (lvl s lo); level_solve.
Qed.

(** The children of a node are its two restrictions. *)
Lemma sem_high n l h lo env :
  _node_to_row s !! n = Some (l, h, lo) ->
  sem s h env = sem s n (fun k => if k =? l then true else env k).
Proof using Hwf.
  intros E. rewrite (sem_row _ _ _ _ _ E), Nat.eqb_refl.
  pose proof (wf_rows _ Hwf _ _ _ _ E) as (_ & Hvh & _).
  pose proof (wf_ordered _ Hwf _ _ _ _ E) as [Hoh _].
  apply sem_independent; [done|]. intros k Hk.
  destruct (Nat.eqb_spec k l) as [->|]; [|done].
  destruct (lvl s h); level_solve.
Qed.

Lemma sem_low n l h lo env :
  _node_to_row s !! n = Some (l, h, lo) ->
  sem s lo env = sem s n (fun k => if k =? l then false else env k).
Proof using Hwf.
  intros E. rewrite (sem_row _ _ _ _ _ E), Nat.eqb_refl.
  pose proof (wf_rows _ Hwf _ _ _ _ E) as (_ & _ & Hvlo & _).
  pose proof (wf_ordered _ Hwf _ _ _ _ E) as [_ Holo].
  apply sem_independent; [done|]. intros k Hk.
  destruct (Nat.eqb_spec k l) as [->|]; [|done].
  destruct (lvl s lo); level_solve.
Qed.

(** Canonicity of the store: two known nodes that denote the same function
    are the same node. *)
Lemma sem_injective a b :
  valid s a -> valid s b -> (forall env, sem s a env = sem s b env) -> a = b.
Proof using Hwf.
  remember (a + b) as k eqn:Hk. revert a b Hk.
  induction (lt_wf k) as [k _ IH]. intros a b -> Ha Hb Hsem.
  (* a node strictly above [a] cannot denote the same function as [a] *)
  assert (Hskip : forall a b l h lo,
    valid s a -> _node_to_row s !! b = Some (l, h, lo) ->
    level_lt (Finite l) (lvl s a) ->
    (forall a' b', a' + b' < a + b -> valid s a' -> valid s b' ->
       (forall env, sem s a' env = sem s b' env) -> a' = b') ->
    (forall env, sem s a env = sem s b env) -> False).
  { clear dependent a b. intros a b l h lo Ha E Hl IH Hsem.
    pose proof (wf_rows _ Hwf _ _ _ _ E) as (_ & Hvh & Hvlo & Hh & Hlo).
    assert (Hind : forall v env,
      sem s a (fun k => if k =? l then v else env k) = sem s a env).
    { intros v env. apply sem_independent; [done|]. intros k Hk.
      destruct (Nat.eqb_spec k l) as [->|]; [|done].
      destruct (lvl s a); level_solve. }
    assert (a = h) as <-.
    { apply IH; [lia | done..|]. intros env.
      by rewrite (sem_high _ _ _ _ _ E), <- Hsem, Hind. }
    assert (a = lo) as <-.
    { apply IH; [lia | done..|]. intros env.
      by rewrite (sem_low _ _ _ _ _ E), <- Hsem, Hind. }
    by apply (si_reduced _ (wf_store _ Hwf)) in E. }
  assert (IH' : forall a' b', a' + b' < a + b -> valid s a' -> valid s b' ->
    (forall env, sem s a' env = sem s b' env) -> a' = b').
  { intros a' b' Hlt. by apply (IH (a' + b')). }
  destruct (valid_cases a Ha) as [->|[->|(la & ha & loa & Ea & Ha2)]];
    destruct (valid_cases b Hb) as [->|[->|(lb & hb & lob & Eb & Hb2)]];
    try done.
  - specialize (Hsem (fun _ => true)). done.
  - destruct (Hskip 0 b lb hb lob); try done. by rewrite lvl_terminal by lia.
  - specialize (Hsem (fun _ => true)). done.
  - destruct (Hskip 1 b lb hb lob); try done. by rewrite lvl_terminal by lia.
  - destruct (Hskip 0 a la ha loa); try done.
    + by rewrite lvl_terminal by lia.
    + intros a' b' Hlt. apply IH'. lia.
  - destruct (Hskip 1 a la ha loa); try done.
    + by rewrite lvl_terminal by lia.
    + intros a' b' Hlt. apply IH'. lia.
  - destruct (lt_eq_lt_dec la lb) as [[Hlt| ->]|Hlt].
    + destruct (Hskip b a la ha loa); try done.
      * rewrite (lvl_row _ _ _ _ Eb). level_solve.
      * intros a' b' Hlt'. apply IH'. lia.
    + pose proof (wf_rows _ Hwf _ _ _ _ Ea) as (_ & Hvha & Hvloa & Hha & Hloa).
      pose proof (wf_rows _ Hwf _ _ _ _ Eb) as (_ & Hvhb & Hvlob & Hhb & Hlob).
      assert (ha = hb) as <-.
      { apply IH'; [lia | done..|]. intros env.
        by rewrite (sem_high _ _ _ _ _ Ea), (sem_high _ _ _ _ _ Eb). }
      assert (loa = lob) as <-.
      { apply IH'; [lia | done..|]. intros env.
        by rewrite (sem_low _ _ _ _ _ Ea), (sem_low _ _ _ _ _ Eb). }
      by apply (store_inv_I2 _ (wf_store _ Hwf) _ _ _ Ea).
    + destruct (Hskip a b lb hb lob); try done.
      rewrite (lvl_row _ _ _ _ Ea). level_solve.
Qed.
End wf_facts.

(** * The entries of an [lru_cache] *)

Section lru_facts.
Context {K V : Type} `{EqDecision K}.
Implicit Types (c : list (K * V)) (P : K * V -> Prop).

Lemma lru_find_Some k v c : lru_find k c = Some v -> (k, v) ∈ c.
Proof.
  induction c as [|[k' v'] c IH]; simpl; [done|].
  destruct (decide (k = k')) as [->|].
  - intros [= ->]. apply list_elem_of_here.
  - intros E. apply list_elem_of_further. by apply IH.
Qed.

Lemma Forall_lru_remove P k c : Forall P c -> Forall P (lru_remove k c).
Proof.
  induction 1 as [|[k' v'] c HP Hc IH]; simpl; [done|].
  destruct (decide (k = k')); [done | by constructor].
Qed.

Lemma Forall_removelast P c : Forall P c -> Forall P (removelast c).
Proof.
  induction 1 as [|x c HP Hc IH]; simpl; [done|].
  destruct c; [done | by constructor].
Qed.

Lemma Forall_lru_hit P k v c :
  lru_find k c = Some v -> Forall P c -> Forall P (lru_hit k v c).
Proof.
  intros Hf Hc. constructor; [|by apply Forall_lru_remove].
  rewrite Forall_forall in Hc. by apply Hc, lru_find_Some.
Qed.

Lemma Forall_lru_store P k v c :
  P (k, v) -> Forall P c -> Forall P (lru_store k v c).
Proof.
  intros Hkv Hc. unfold lru_store. destruct (lru_find k c); [done|].
  destruct (length c <? lru_maxsize); constructor; try done.
  by apply Forall_removelast.
Qed.
End lru_facts.

(** * Growing stores *)

Global Instance grows_preorder : PreOrder grows.
Proof.
  split.
  - intros s. by split.
  - intros s1 s2 s3 [E1 H1] [E2 H2]. split; [congruence | by etrans].
Qed.

Global Instance extends_preorder : PreOrder extends.
Proof.
  split.
  - intros s. by split.
  - intros s1 s2 s3 [E1 H1] [E2 H2]. split; by etrans.
Qed.

Lemma grows_extends s s' : grows s s' -> extends s s'.
Proof. intros [E H]. split; [by rewrite E | done]. Qed.

Lemma extends_row s s' n r :
  extends s s' -> _node_to_row s !! n = Some r -> _node_to_row s' !! n = Some r.
Proof. intros [_ H] E. by eapply lookup_weaken. Qed.

Lemma extends_variable s s' l v :
  extends s s' -> _variable_ordering s !! l = Some v ->
  _variable_ordering s' !! l = Some v.
Proof. intros [H _] E. by eapply prefix_lookup_Some. Qed.

Lemma extends_valid s s' n : extends s s' -> valid s n -> valid s' n.
Proof.
  intros H [Hn|[r E]]; [by left|]. right. by rewrite (extends_row _ _ _ _ H E).
Qed.

Lemma extends_lvl s s' n :
  wf s' -> extends s s' -> valid s n -> lvl s' n = lvl s n.
Proof.
  intros Hwf H [Hn|[r E]].
  - rewrite (lvl_terminal _ Hwf) by done. unfold lvl.
    destruct (_node_to_row s !! n) as [r|] eqn:E; [|done].
    apply (extends_row _ _ _ _ H) in E. by rewrite (wf_terminal_row _ Hwf) in E.
  - unfold lvl. by rewrite (extends_row _ _ _ _ H E), E.
Qed.

Lemma extends_sem s s' n env :
  wf s -> wf s' -> extends s s' -> valid s n -> sem s' n env = sem s n env.
Proof.
  intros Hwf Hwf' H. induction (lt_wf n) as [n _ IH]. intros Hn.
  destruct (valid_cases _ Hwf n Hn) as [->|[->|(l & h & lo & E & Hn2)]]; [done..|].
  rewrite (sem_row _ Hwf _ _ _ _ _ E).
  rewrite (sem_row _ Hwf' _ _ _ _ _ (extends_row _ _ _ _ H E)).
  apply (wf_rows _ Hwf) in E as (_ & Hvh & Hvlo & Hh & Hlo).
  by rewrite !IH.
Qed.

Lemma extends_over_unprimed s s' n :
  extends s s' -> over_unprimed s n -> over_unprimed s' n.
Proof.
  intros H. induction 1 as [n Hn|n l h lo v E Ev Hp _ IHh _ IHlo].
  - by apply ou_terminal.
  - eapply ou_node; eauto using extends_row, extends_variable.
Qed.

Lemma extends_node_to_var_id s s' n l :
  wf s -> wf s' -> extends s s' ->
  _node_to_var_id s !! n = Some l -> _node_to_var_id s' !! n = Some l.
Proof.
  intros Hwf Hwf' H E.
  destruct (decide (n = 0)) as [->|].
  { rewrite (si_zero _ (wf_store _ Hwf)) in E.
    by rewrite (si_zero _ (wf_store _ Hwf')). }
  destruct (decide (n = 1)) as [->|].
  { rewrite (si_one _ (wf_store _ Hwf)) in E.
    by rewrite (si_one _ (wf_store _ Hwf')). }
  rewrite (si_level _ (wf_store _ Hwf)) in E by lia.
  rewrite (si_level _ (wf_store _ Hwf')) by lia.
  destruct (_node_to_row s !! n) as [r|] eqn:Er; [|done].
  by rewrite (extends_row _ _ _ _ H Er).
Qed.

(** Cache entries stay right when the store grows. *)
Section entries.
Context (s s' : BDD) (Hwf : wf s) (Hwf' : wf s') (H : extends s s').

Lemma cofactors_entry_extends e : cofactors_entry s e -> cofactors_entry s' e.
Proof using All.
  destruct e as [[n i] p]. unfold cofactors_entry, cofactors_of; cbn [fst snd].
  destruct ((n =? 0) || (n =? 1)); [tauto|].
  destruct (_node_to_var_id s !! n) as [l|] eqn:E; [|intros [=]].
  rewrite (extends_node_to_var_id _ _ _ _ Hwf Hwf' H E).
  destruct (level_ltb (Finite i) l); [tauto|].
  destruct (_node_to_row s !! n) as [r|] eqn:Er; [|intros [=]].
  by rewrite (extends_row _ _ _ _ H Er).
Qed.

Lemma ite_entry_extends e : ite_entry s e -> ite_entry s' e.
Proof using All.
  destruct e as [[[a b] c] r]. intros (Ha & Hb & Hc & Hr & Hl & Hsem).
  split_and!; try by eapply extends_valid.
  - by rewrite !(extends_lvl s s') by done.
  - intros env. by rewrite !(extends_sem s s') by done.
Qed.

Lemma binary_entry_extends f e : binary_entry f s e -> binary_entry f s' e.
Proof using All.
  destruct e as [[a b] r]. intros (Ha & Hb & Hr & Hl & Hsem).
  split_and!; try by eapply extends_valid.
  - by rewrite !(extends_lvl s s') by done.
  - intros env. by rewrite !(extends_sem s s') by done.
Qed.

Lemma pre_image_entry_extends e : pre_image_entry s e -> pre_image_entry s' e.
Proof using All.
  destruct e as [[a b] r]. intros (Ha & Hb & Hr & Hu & Hl & Hsem).
  split_and!; try by eapply extends_valid.
  - by eapply extends_over_unprimed.
  - by rewrite !(extends_lvl s s') by done.
  - intros env. rewrite (extends_sem s s') by done. rewrite (Hsem env).
    split; intros (env' & ? & ? & ?); exists env'.
    + by rewrite !(extends_sem s s') by done.
    + by rewrite <- !(extends_sem s s') by done.
Qed.

Lemma caches_sound_extends :
  get_cofactors_cache s' = get_cofactors_cache s ->
  ite_cache s' = ite_cache s ->
  conjunction_cache s' = conjunction_cache s ->
  disjunction_cache s' = disjunction_cache s ->
  pre_image_cache s' = pre_image_cache s ->
  caches_sound s -> caches_sound s'.
Proof using All.
  intros E1 E2 E3 E4 E5 [H1 H2 H3 H4 H5].
  split; rewrite ?E1, ?E2, ?E3, ?E4, ?E5;
    (eapply Forall_impl; [eassumption|]);
    eauto using cofactors_entry_extends, ite_entry_extends,
      binary_entry_extends, pre_image_entry_extends.
Qed.
End entries.

(** * Managers with the same store *)

Lemma same_store_grows s s' : same_store s s' -> grows s s'.
Proof. intros (E1 & _ & _ & E4 & _). split; [done | by rewrite E4]. Qed.

Lemma same_store_wf s s' : same_store s s' -> wf s -> wf s'.
Proof.
  intros (E1 & E2 & E3 & E4 & E5 & E6) [Hst Hv Ho Hr Hord].
  split.
  - by apply (store_inv_insensitive s).
  - by rewrite E1, E2.
  - by rewrite E1.
  - unfold valid. rewrite E1, E4. apply Hr.
  - unfold I3, lvl in *. rewrite E4. apply Hord.
Qed.

Lemma Inv_same_store s s' :
  Inv s -> same_store s s' ->
  Forall (cofactors_entry s) (get_cofactors_cache s') ->
  Forall (ite_entry s) (ite_cache s') ->
  Forall (binary_entry andb s) (conjunction_cache s') ->
  Forall (binary_entry orb s) (disjunction_cache s') ->
  Forall (pre_image_entry s) (pre_image_cache s') ->
  Inv s'.
Proof.
  intros [Hwf Hc] Hs H1 H2 H3 H4 H5.
  pose proof (same_store_wf _ _ Hs Hwf) as Hwf'.
  pose proof (grows_extends _ _ (same_store_grows _ _ Hs)) as He.
  split; [done|].
  split; (eapply Forall_impl; [eassumption|]);
    eauto using cofactors_entry_extends, ite_entry_extends,
      binary_entry_extends, pre_image_entry_extends.
Qed.

Lemma Inv_set_get_cofactors_cache c s :
  Inv s -> Forall (cofactors_entry s) c -> Inv (set_get_cofactors_cache c s).
Proof.
  intros HI Hc. apply (Inv_same_store s); try done; apply HI.
Qed.

Lemma Inv_set_ite_cache c s :
  Inv s -> Forall (ite_entry s) c -> Inv (set_ite_cache c s).
Proof.
  intros HI Hc. apply (Inv_same_store s); try done; apply HI.
Qed.

Lemma Inv_set_conjunction_cache c s :
  Inv s -> Forall (binary_entry andb s) c -> Inv (set_conjunction_cache c s).
Proof.
  intros HI Hc. apply (Inv_same_store s); try done; apply HI.
Qed.

Lemma Inv_set_disjunction_cache c s :
  Inv s -> Forall (binary_entry orb s) c -> Inv (set_disjunction_cache c s).
Proof.
  intros HI Hc. apply (Inv_same_store s); try done; apply HI.
Qed.

Lemma Inv_set_pre_image_cache c s :
  Inv s -> Forall (pre_image_entry s) c -> Inv (set_pre_image_cache c s).
Proof.
  intros HI Hc. apply (Inv_same_store s); try done; apply HI.
Qed.

(** * The outcome of a memoised call *)

Lemma returns_ret {A} (a : A) s (post : A -> BDD -> Prop) :
  Inv s -> post a s -> returns (ret a) s post.
Proof. intros HI Hp. exists a, s. split_and!; [done | done | reflexivity | done]. Qed.

Lemma returns_bind {A B} (m : M BDD A) (k : A -> M BDD B) s
    (mid : A -> BDD -> Prop) (post : B -> BDD -> Prop) :
  returns m s mid ->
  (forall a s1, Inv s1 -> grows s s1 -> mid a s1 ->
     returns (k a) s1 post) ->
  returns (bind m k) s post.
Proof.
  intros (a & s1 & Hm & HI1 & Hg1 & Hmid) Hk.
  destruct (Hk a s1 HI1 Hg1 Hmid) as (b & s2 & Hk' & HI2 & Hg2 & Hpost).
  exists b, s2. unfold bind. rewrite Hm. split_and!; try done. by etrans.
Qed.

Lemma returns_weaken {A} (m : M BDD A) s (post post' : A -> BDD -> Prop) :
  returns m s post ->
  (forall r s', Inv s' -> grows s s' -> post r s' -> post' r s') ->
  returns m s post'.
Proof.
  intros (r & s' & Hm & HI & Hg & Hp) Hw. exists r, s'. split_and!; auto.
Qed.

(** A memoised method whose body keeps the invariant and leaves a right
    entry behind does so itself, on a hit and on a miss. *)
Lemma returns_lru_cache {K} `{EqDecision K}
    (get : BDD -> list (K * nat)) (set : list (K * nat) -> BDD -> BDD)
    (entry : BDD -> K * nat -> Prop) (k : K) (body : M BDD nat) s :
  (forall c s, same_store s (set c s)) ->
  (forall c s, Inv s -> Forall (entry s) c -> Inv (set c s)) ->
  (forall s, Inv s -> Forall (entry s) (get s)) ->
  (forall s s' e, wf s -> wf s' -> extends s s' -> entry s e -> entry s' e) ->
  Inv s ->
  (lru_find k (get s) = None -> returns body s (fun r s' => entry s' (k, r))) ->
  returns (lru_cache get set k body) s (fun r s' => entry s' (k, r)).
Proof.
  intros Hsame Hset Hget Hmono HI Hbody. unfold returns, lru_cache.
  destruct (lru_find k (get s)) as [v|] eqn:Hf.
  - exists v, (set (lru_hit k v (get s)) s).
    assert (HI' : Inv (set (lru_hit k v (get s)) s)).
    { apply Hset; [done|]. apply Forall_lru_hit; [done | by apply Hget]. }
    split_and!; [done | done | apply same_store_grows, Hsame |].
    apply (Hmono s); [apply HI | apply HI' | apply grows_extends, same_store_grows, Hsame |].
    pose proof (Hget s HI) as Hc. rewrite Forall_forall in Hc.
    by apply Hc, lru_find_Some.
  - destruct (Hbody eq_refl) as (r & s' & -> & HI' & Hg & He).
    exists r, (set (lru_store k r (get s')) s').
    assert (HI'' : Inv (set (lru_store k r (get s')) s')).
    { apply Hset; [done|]. apply Forall_lru_store; [done | by apply Hget]. }
    split_and!; [done | done | |].
    + etrans; [exact Hg | apply same_store_grows, Hsame].
    + apply (Hmono s'); [apply HI' | apply HI'' | apply grows_extends, same_store_grows, Hsame | done].
Qed.

(** * Cofactors *)

Lemma splits_extends s s' l n h lo :
  wf s -> wf s' -> extends s s' -> splits s l n h lo -> splits s' l n h lo.
Proof.
  intros Hwf Hwf' H (Hn & Hh & Hlo & Lh & Llo & Hsem).
  split_and!; try by eapply extends_valid.
  - by rewrite (extends_lvl s s').
  - by rewrite (extends_lvl s s').
  - intros env. by rewrite !(extends_sem s s') by done.
Qed.

Lemma valid_lt_node_id s n : wf s -> valid s n -> n < _node_id s.
Proof.
  intros Hwf [Hn|[r E]].
  - pose proof (si_node_id _ (wf_store _ Hwf)). lia.
  - apply (si_ids _ (wf_store _ Hwf)) in E. lia.
Qed.

Lemma cofactors_of_splits s n l :
  wf s -> valid s n -> level_le (Finite l) (lvl s n) ->
  exists h lo, cofactors_of s n l = Some (h, lo) /\ splits s l n h lo /\
    (over_unprimed s n -> over_unprimed s h /\ over_unprimed s lo).
Proof.
  intros Hwf Hn Hl. unfold cofactors_of.
  destruct (valid_cases _ Hwf n Hn) as [->|[->|(ln & h & lo & E & Hn2)]].
  - exists 0, 0. split_and!; try done.
    split_and!; try done; try (by rewrite lvl_terminal by (done || lia)).
    intros env. by destruct (env l).
  - exists 1, 1. split_and!; try done.
    split_and!; try done; try (by rewrite lvl_terminal by (done || lia)).
    intros env. by destruct (env l).
  - destruct (Nat.eqb_spec n 0); [lia|]. destruct (Nat.eqb_spec n 1); [lia|].
    simpl. rewrite (si_level _ (wf_store _ Hwf)) by done. rewrite E. simpl.
    rewrite (lvl_row _ _ _ _ _ E) in Hl.
    pose proof (wf_rows _ Hwf _ _ _ _ E) as (_ & Hvh & Hvlo & _).
    pose proof (wf_ordered _ Hwf _ _ _ _ E) as [Hoh Holo].
    destruct (Nat.ltb_spec l ln) as [Hlt|Hge].
    + exists n, n. split_and!; try done.
      split_and!; try done; try (rewrite (lvl_row _ _ _ _ _ E); level_solve).
      intros env. by destruct (env l).
    + assert (l = ln) as -> by level_solve.
      exists h, lo. split_and!; try done.
      * split_and!; try done. intros env. by apply sem_row.
      * intros Hu. inversion Hu as [? Hlt|? ? ? ? ? E' ? ? ? ?]; [lia|].
        rewrite E in E'. by simplify_eq.
Qed.

(** The body of [get_cofactors] computes [cofactors_of]. *)
Lemma get_cofactors_body n v s :
  (if (n =? get_zero_node) || (n =? get_one_node) then ret (n, n)
   else
     l <- gets (fun s => _node_to_var_id s !! n) ;;
     l <- subscript l ;;
     if level_ltb (Finite (var_id v)) l then ret (n, n)
     else get_succs n) s =
  (match cofactors_of s n (var_id v) with
   | Some p => Ok p
   | None => Raise KeyError
   end, s).
Proof.
  unfold cofactors_of, get_zero_node, get_one_node.
  destruct ((n =? 0) || (n =? 1)); [done|].
  cbv beta iota delta [bind gets subscript ret raise get_succs].
  destruct (_node_to_var_id s !! n) as [ln|]; [|done].
  destruct (level_ltb (Finite (var_id v)) ln); [done|].
  by destruct (_node_to_row s !! n) as [[[l' h'] lo']|].
Qed.

Lemma get_cofactors_run s n v p :
  Forall (cofactors_entry s) (get_cofactors_cache s) ->
  cofactors_of s n (var_id v) = Some p ->
  exists c, get_cofactors n v s = (Ok p, set_get_cofactors_cache c s) /\
            Forall (cofactors_entry s) c.
Proof.
  intros Hcs Hc. unfold get_cofactors, lru_cache.
  destruct (lru_find _ _) as [p'|] eqn:Hf.
  - pose proof (lru_find_Some _ _ _ Hf) as Hin.
    rewrite Forall_forall in Hcs. pose proof (Hcs _ Hin) as He.
    unfold cofactors_entry in He; simpl in He.
    rewrite Hc in He. injection He as <-.
    eexists. split; [done|]. apply Forall_lru_hit; [done|].
    by rewrite Forall_forall.
  - rewrite get_cofactors_body, Hc.
    eexists. split; [done|]. by apply Forall_lru_store.
Qed.

Lemma get_cofactors_spec s n v l :
  Inv s -> valid s n -> var_id v = l -> level_le (Finite l) (lvl s n) ->
  returns (get_cofactors n v) s (fun p s' =>
    splits s' l n p.1 p.2 /\
    (over_unprimed s n -> over_unprimed s' p.1 /\ over_unprimed s' p.2)).
Proof.
  intros HI Hn <- Hl.
  destruct (cofactors_of_splits s n (var_id v) (proj1 HI) Hn Hl)
    as (h & lo & Hc & Hs & Hu).
  destruct (get_cofactors_run s n v (h, lo) (cs_cofactors _ (proj2 HI)) Hc)
    as (c & Hrun & Hc').
  pose proof (Inv_set_get_cofactors_cache c s HI Hc') as HI'.
  assert (Hg : grows s (set_get_cofactors_cache c s)) by (by split).
  exists (h, lo), (set_get_cofactors_cache c s). split_and!; try done.
  - eapply splits_extends; [apply HI | apply HI' | by apply grows_extends | done].
  - intros Hun. destruct (Hu Hun).
    split; eapply extends_over_unprimed; eauto using grows_extends.
Qed.

(** * [variable_at] and [make] on a well-formed manager *)

Lemma variable_at_spec s l :
  wf s -> l < length (_variable_ordering s) ->
  exists v, variable_at (Finite l) s = (Ok v, s) /\
            _variable_ordering s !! l = Some v /\ var_id v = l.
Proof.
  intros Hwf Hl. destruct (lookup_lt_is_Some_2 _ _ Hl) as [v Hv].
  exists v. split_and!; [|done|by apply (wf_ordering _ Hwf)].
  unfold variable_at, bind, gets; simpl. by rewrite Hv.
Qed.

Lemma allocated_wf l n1 n0 v s :
  wf s -> _variable_ordering s !! l = Some v -> n1 <> n0 ->
  _row_to_node s !! (l, n1, n0) = None ->
  valid s n1 -> valid s n0 ->
  level_lt (Finite l) (lvl s n1) -> level_lt (Finite l) (lvl s n0) ->
  wf (allocated l n1 n0 s).
Proof.
  intros Hwf Hv Hne Hfresh Hv1 Hv0 Hl1 Hl0.
  assert (Hnew : _node_to_row s !! _node_id s = None).
  { destruct (_node_to_row s !! _node_id s) as [r|] eqn:E; [|done].
    apply (si_ids _ (wf_store _ Hwf)) in E. lia. }
  assert (Hvalid : forall n, valid s n -> valid (allocated l n1 n0 s) n).
  { intros n [Hn|[r E]]; [by left|]. right. simpl.
    rewrite lookup_insert_ne; [by rewrite E|]. intros <-. congruence. }
  assert (Hlvl : forall n, valid s n -> lvl (allocated l n1 n0 s) n = lvl s n).
  { intros n Hn. pose proof (valid_lt_node_id _ _ Hwf Hn). unfold lvl. simpl.
    rewrite lookup_insert_ne; [done | lia]. }
  destruct Hwf as [Hst Hvar Hord Hrows Hordered]. split.
  - by apply allocated_store_inv.
  - done.
  - done.
  - intros n l' h lo. simpl.
    destruct (decide (_node_id s = n)) as [<-|Hd].
    + rewrite lookup_insert_eq. intros [= <- <- <-].
      split_and!; [by eapply lookup_lt_Some | by apply Hvalid | by apply Hvalid | |].
      * apply valid_lt_node_id; [by split | done].
      * apply valid_lt_node_id; [by split | done].
    + rewrite lookup_insert_ne by done. intros E.
      destruct (Hrows _ _ _ _ E) as (? & ? & ? & ? & ?).
      split_and!; try done; by apply Hvalid.
  - intros n l' h lo. simpl.
    destruct (decide (_node_id s = n)) as [<-|Hd].
    + rewrite lookup_insert_eq. intros [= <- <- <-]. by rewrite !Hlvl.
    + rewrite lookup_insert_ne by done. intros E.
      destruct (Hrows _ _ _ _ E) as (? & ? & ? & ? & ?).
      rewrite !Hlvl by done. by apply (Hordered _ _ _ _ E).
Qed.

(** [make] returns the node whose cofactors on [v] are [n1] and [n0]. *)
Lemma make_spec v l n1 n0 s :
  Inv s -> _variable_ordering s !! l = Some v ->
  valid s n1 -> valid s n0 ->
  level_lt (Finite l) (lvl s n1) -> level_lt (Finite l) (lvl s n0) ->
  returns (make v n1 n0) s (fun r s' =>
    splits s' l r n1 n0 /\ level_le (Finite l) (lvl s' r)).
Proof.
  intros [Hwf Hc] Hv Hv1 Hv0 Hl1 Hl0.
  pose proof (wf_ordering _ Hwf _ _ Hv) as Hid.
  unfold returns. rewrite make_eq, Hid. destruct (Nat.eqb_spec n1 n0) as [->|Hne].
  { exists n0, s. split_and!; try done.
    - split_and!; try done. intros env. by destruct (env l).
    - by apply level_lt_le. }
  destruct (_row_to_node s !! (l, n1, n0)) as [r|] eqn:Er.
  { apply (si_inverse _ (wf_store _ Hwf)) in Er.
    exists r, s. split_and!; try done.
    - split_and!; try done; [by eapply valid_row|]. intros env. by apply sem_row.
    - rewrite (lvl_row _ _ _ _ _ Er). apply level_le_refl. }
  pose proof (allocated_wf l n1 n0 v s Hwf Hv Hne Er Hv1 Hv0 Hl1 Hl0) as Hwf'.
  assert (Hnew : _node_to_row s !! _node_id s = None).
  { destruct (_node_to_row s !! _node_id s) as [r|] eqn:E; [|done].
    apply (si_ids _ (wf_store _ Hwf)) in E. lia. }
  assert (Hg : grows s (allocated l n1 n0 s)).
  { split; [done|]. simpl. by apply insert_subseteq. }
  assert (Erow : _node_to_row (allocated l n1 n0 s) !! _node_id s = Some (l, n1, n0)).
  { simpl. apply lookup_insert_eq. }
  exists (_node_id s), (allocated l n1 n0 s). split_and!; try done.
  - split; [done|].
    by apply (caches_sound_extends s); [| |apply grows_extends|..].
  - pose proof (grows_extends _ _ Hg) as He.
    split_and!; try (by eapply extends_valid); try (by rewrite (extends_lvl s)).
    + by eapply valid_row.
    + intros env. by apply sem_row.
  - rewrite (lvl_row _ _ _ _ _ Erow). apply level_le_refl.
Qed.

(** * The depth left below a node *)

Lemma rank_below s l n :
  wf s -> l < length (_variable_ordering s) ->
  level_lt (Finite l) (lvl s n) -> rank s n < length (_variable_ordering s) - l.
Proof.
  intros Hwf Hl Hlt. unfold rank. destruct (lvl s n) as [k|] eqn:E; [|lia].
  apply (lvl_bound _ Hwf) in E. level_solve.
Qed.

Lemma rank_grows s s' n :
  wf s' -> grows s s' -> valid s n -> rank s' n = rank s n.
Proof.
  intros Hwf' Hg Hn. unfold rank.
  rewrite (extends_lvl s s') by (done || by apply grows_extends).
  by rewrite (proj1 Hg).
Qed.

Lemma rank_terminal s n : wf s -> valid s n -> rank s n = 0 -> n < 2.
Proof.
  intros Hwf Hn. unfold rank.
  destruct (valid_cases _ Hwf n Hn) as [->|[->|(l & h & lo & E & Hn2)]]; [lia..|].
  rewrite (lvl_row _ _ _ _ _ E).
  apply (wf_rows _ Hwf) in E as (Hl & _). lia.
Qed.

Lemma rank_level s n l :
  lvl s n = Finite l -> rank s n = length (_variable_ordering s) - l.
Proof. intros E. unfold rank. by rewrite E. Qed.

Lemma rank_bound s n : rank s n <= length (_variable_ordering s).
Proof. unfold rank. destruct (lvl s n); lia. Qed.

(** * The binary operators *)

Lemma returns_bind_pure {A B} (m : M BDD A) (k : A -> M BDD B) s a
    (post : B -> BDD -> Prop) :
  m s = (Ok a, s) -> returns (k a) s post -> returns (bind m k) s post.
Proof.
  intros Hm (b & s' & Hk & H). exists b, s'. unfold bind. by rewrite Hm.
Qed.

Lemma lvl_infinity_terminal s n :
  wf s -> valid s n -> lvl s n = Infinity -> n < 2.
Proof.
  intros Hwf Hn E.
  destruct (valid_cases _ Hwf n Hn) as [->|[->|(l & h & lo & Er & Hn2)]]; [lia..|].
  by rewrite (lvl_row _ _ _ _ _ Er) in E.
Qed.

Lemma min_level_rank s a b :
  wf s -> valid s a -> valid s b -> ~ (a < 2 /\ b < 2) ->
  exists l, level_min (lvl s a) (lvl s b) = Finite l /\
            l < length (_variable_ordering s) /\
            length (_variable_ordering s) - l <= Nat.max (rank s a) (rank s b).
Proof.
  intros Hwf Ha Hb Hnt. unfold rank.
  pose proof (lvl_bound s Hwf a) as Ba. pose proof (lvl_bound s Hwf b) as Bb.
  pose proof (lvl_infinity_terminal s a Hwf Ha) as Ta.
  pose proof (lvl_infinity_terminal s b Hwf Hb) as Tb.
  destruct (lvl s a) as [la|], (lvl s b) as [lb|].
  - specialize (Ba la eq_refl). specialize (Bb lb eq_refl).
    unfold level_min, level_ltb. destruct (Nat.ltb_spec lb la).
    + exists lb. split_and!; [done | done | lia].
    + exists la. split_and!; [done | done | lia].
  - specialize (Ba la eq_refl). exists la. split_and!; [done | done | lia].
  - specialize (Bb lb eq_refl). exists lb. split_and!; [done | done | lia].
  - destruct Hnt. split; auto.
Qed.

(** The result of an operator from the results on the cofactors. *)
Lemma binary_combine f s l a a1 a0 b b1 b0 r w1 w0 :
  splits s l a a1 a0 -> splits s l b b1 b0 -> splits s l r w1 w0 ->
  binary_entry f s ((a1, b1), w1) -> binary_entry f s ((a0, b0), w0) ->
  level_le (level_min (lvl s a) (lvl s b)) (Finite l) ->
  level_le (Finite l) (lvl s r) ->
  binary_entry f s ((a, b), r).
Proof.
  intros (Ha & _ & _ & _ & _ & Sa) (Hb & _ & _ & _ & _ & Sb)
    (Hr & _ & _ & _ & _ & Sr) (_ & _ & _ & _ & S1) (_ & _ & _ & _ & S0) Hmin Hl.
  split_and!; try done.
  - by eapply level_le_trans.
  - intros env. rewrite Sr, Sa, Sb, S1, S0. by destruct (env l).
Qed.

Lemma binary_entry_grows f s s' e :
  Inv s -> Inv s' -> grows s s' -> binary_entry f s e -> binary_entry f s' e.
Proof.
  intros [Hwf _] [Hwf' _] Hg. by apply binary_entry_extends, grows_extends.
Qed.

Lemma splits_grows s s' l n h lo :
  Inv s -> Inv s' -> grows s s' -> splits s l n h lo -> splits s' l n h lo.
Proof.
  intros [Hwf _] [Hwf' _] Hg. by apply splits_extends, grows_extends.
Qed.

Lemma valid_grows s s' n : grows s s' -> valid s n -> valid s' n.
Proof. intros Hg. by apply extends_valid, grows_extends. Qed.

Lemma lvl_grows s s' n :
  Inv s' -> grows s s' -> valid s n -> lvl s' n = lvl s n.
Proof. intros [Hwf' _] Hg. by apply extends_lvl, grows_extends. Qed.

Lemma apply_step_spec f rec k s a b :
  (forall s a b, Inv s -> valid s a -> valid s b ->
     Nat.max (rank s a) (rank s b) < k ->
     returns (rec a b) s (fun r s' => binary_entry f s' ((a, b), r))) ->
  Inv s -> valid s a -> valid s b -> ~ (a < 2 /\ b < 2) ->
  Nat.max (rank s a) (rank s b) <= k ->
  returns (apply_step rec a b) s (fun r s' => binary_entry f s' ((a, b), r)).
Proof.
  intros Hrec HI Ha Hb Hnt Hk. pose proof HI as [Hwf _]. unfold apply_step.
  apply returns_bind_pure with (lvl s a); [by apply node_level_valid|].
  apply returns_bind_pure with (lvl s b); [by apply node_level_valid|].
  destruct (min_level_rank s a b Hwf Ha Hb Hnt) as (l & Hmin & Hl & Hrank).
  assert (Hla : level_le (Finite l) (lvl s a)).
  { rewrite <- Hmin. apply level_min_le_l. }
  assert (Hlb : level_le (Finite l) (lvl s b)).
  { rewrite <- Hmin. apply level_min_le_r. }
  cbn zeta. rewrite Hmin.
  destruct (variable_at_spec s l Hwf Hl) as (v & Hrun & Hv & Hid).
  apply returns_bind_pure with v; [done|].
  eapply returns_bind; [by apply (get_cofactors_spec s a v l)|].
  intros [a1 a0] s1 HI1 G1 [Sa _]. cbn [fst snd] in Sa.
  eapply returns_bind.
  { apply (get_cofactors_spec s1 b v l); [done | by eapply valid_grows | done |].
    by rewrite (lvl_grows s s1). }
  intros [b1 b0] s2 HI2 G2 [Sb _]. cbn [fst snd] in Sb.
  pose proof (splits_grows _ _ _ _ _ _ HI1 HI2 G2 Sa) as Sa2.
  assert (E2 : _variable_ordering s2 = _variable_ordering s).
  { rewrite (proj1 G2). apply G1. }
  assert (Hl2 : l < length (_variable_ordering s2)) by (by rewrite E2).
  eapply returns_bind.
  { apply Hrec; [done | apply Sa2 | apply Sb |].
    pose proof (rank_below s2 l a1 (proj1 HI2) Hl2 ltac:(apply Sa2)).
    pose proof (rank_below s2 l b1 (proj1 HI2) Hl2 ltac:(apply Sb)).
    rewrite E2 in *. lia. }
  intros w1 s3 HI3 G3 E1. cbn beta in E1.
  pose proof (splits_grows _ _ _ _ _ _ HI2 HI3 G3 Sa2) as Sa3.
  pose proof (splits_grows _ _ _ _ _ _ HI2 HI3 G3 Sb) as Sb3.
  assert (E3 : _variable_ordering s3 = _variable_ordering s).
  { rewrite (proj1 G3). done. }
  assert (Hl3 : l < length (_variable_ordering s3)) by (by rewrite E3).
  eapply returns_bind.
  { apply Hrec; [done | apply Sa3 | apply Sb3 |].
    pose proof (rank_below s3 l a0 (proj1 HI3) Hl3 ltac:(apply Sa3)).
    pose proof (rank_below s3 l b0 (proj1 HI3) Hl3 ltac:(apply Sb3)).
    rewrite E3 in *. lia. }
  intros w0 s4 HI4 G4 E0. cbn beta in E0.
  pose proof (splits_grows _ _ _ _ _ _ HI3 HI4 G4 Sa3) as Sa4.
  pose proof (splits_grows _ _ _ _ _ _ HI3 HI4 G4 Sb3) as Sb4.
  pose proof (binary_entry_grows _ _ _ _ HI3 HI4 G4 E1) as E14.
  assert (E4 : _variable_ordering s4 = _variable_ordering s).
  { rewrite (proj1 G4). done. }
  eapply returns_weaken.
  { apply (make_spec v l w1 w0 s4); [done | by rewrite E4 | apply E14 | apply E0 | |].
    - destruct E14 as (_ & _ & _ & Hle & _).
      eapply level_lt_le_trans; [|exact Hle].
      apply level_min_glb_lt; [apply Sa4 | apply Sb4].
    - destruct E0 as (_ & _ & _ & Hle & _).
      eapply level_lt_le_trans; [|exact Hle].
      apply level_min_glb_lt; [apply Sa4 | apply Sb4]. }
  intros r s5 HI5 G5 [Sr Hlr]. cbn beta.
  assert (G05 : grows s s5).
  { etrans; [exact G1|]. etrans; [exact G2|]. etrans; [exact G3|].
    etrans; [exact G4 | exact G5]. }
  apply (binary_combine f s5 l a a1 a0 b b1 b0 r w1 w0);
    eauto using splits_grows, binary_entry_grows.
  rewrite !(lvl_grows s s5) by done. rewrite Hmin. apply level_le_refl.
Qed.

Lemma binary_entry_get_conjunction s :
  Inv s -> Forall (binary_entry andb s) (conjunction_cache s).
Proof. intros [_ Hc]. apply Hc. Qed.

Lemma binary_entry_get_disjunction s :
  Inv s -> Forall (binary_entry orb s) (disjunction_cache s).
Proof. intros [_ Hc]. apply Hc. Qed.

Lemma binary_entry_terminal f s a b r :
  wf s -> valid s a -> valid s b -> r < 2 ->
  (forall env, sem s r env = f (sem s a env) (sem s b env)) ->
  binary_entry f s ((a, b), r).
Proof.
  intros Hwf Ha Hb Hr Hsem. split_and!; try done; [by left|].
  rewrite (lvl_terminal s Hwf r Hr). apply level_le_infinity.
Qed.

(** [conjunction] returns, within [fuel] levels of recursion, a node that
    denotes the conjunction of its operands. *)
Lemma conjunction_spec fuel s a b :
  Inv s -> valid s a -> valid s b ->
  Nat.max (rank s a) (rank s b) < fuel ->
  returns (conjunction fuel a b) s (fun r s' => binary_entry andb s' ((a, b), r)).
Proof.
  revert s a b. induction fuel as [|fuel IH]; intros s a b HI Ha Hb Hk; [lia|].
  change (conjunction (S fuel) a b) with
    (lru_cache conjunction_cache set_conjunction_cache (a, b)
       (if (a =? get_zero_node) || (b =? get_zero_node) then ret get_zero_node
        else if (a =? b) && (a =? get_one_node) then ret get_one_node
        else apply_step (conjunction fuel) a b)).
  apply (returns_lru_cache _ _ (binary_entry andb)); try done.
  - apply Inv_set_conjunction_cache.
  - apply binary_entry_get_conjunction.
  - intros s1 s2 e ? ? ?. by apply binary_entry_extends.
  - intros _. unfold get_zero_node, get_one_node.
    destruct (Nat.eqb_spec a 0) as [->|Ha0]; simpl.
    { apply returns_ret; [done|].
      apply (binary_entry_terminal andb); try done; [apply HI | lia]. }
    destruct (Nat.eqb_spec b 0) as [->|Hb0]; simpl.
    { apply returns_ret; [done|].
      apply (binary_entry_terminal andb); try done; [apply HI | lia |].
      intros env. by rewrite andb_false_r. }
    destruct (Nat.eqb_spec a b) as [->|Hab]; simpl.
    + destruct (Nat.eqb_spec b 1) as [->|Hb1].
      { apply returns_ret; [done|].
        apply (binary_entry_terminal andb); try done; [apply HI | lia]. }
      apply (apply_step_spec andb _ fuel); try done; lia.
    + apply (apply_step_spec andb _ fuel); try done; lia.
Qed.

(** [disjunction] returns, within [fuel] levels of recursion, a node that
    denotes the disjunction of its operands. *)
Lemma disjunction_spec fuel s a b :
  Inv s -> valid s a -> valid s b ->
  Nat.max (rank s a) (rank s b) < fuel ->
  returns (disjunction fuel a b) s (fun r s' => binary_entry orb s' ((a, b), r)).
Proof.
  revert s a b. induction fuel as [|fuel IH]; intros s a b HI Ha Hb Hk; [lia|].
  change (disjunction (S fuel) a b) with
    (lru_cache disjunction_cache set_disjunction_cache (a, b)
       (if (a =? get_one_node) || (b =? get_one_node) then ret get_one_node
        else if (a =? b) && (a =? get_zero_node) then ret get_zero_node
        else apply_step (disjunction fuel) a b)).
  apply (returns_lru_cache _ _ (binary_entry orb)); try done.
  - apply Inv_set_disjunction_cache.
  - apply binary_entry_get_disjunction.
  - intros s1 s2 e ? ? ?. by apply binary_entry_extends.
  - intros _. unfold get_zero_node, get_one_node.
    destruct (Nat.eqb_spec a 1) as [->|Ha1]; simpl.
    { apply returns_ret; [done|].
      apply (binary_entry_terminal orb); try done; [apply HI | lia]. }
    destruct (Nat.eqb_spec b 1) as [->|Hb1]; simpl.
    { apply returns_ret; [done|].
      apply (binary_entry_terminal orb); try done; [apply HI | lia |].
      intros env. by rewrite orb_true_r. }
    destruct (Nat.eqb_spec a b) as [->|Hab]; simpl.
    + destruct (Nat.eqb_spec b 0) as [->|Hb0].
      { apply returns_ret; [done|].
        apply (binary_entry_terminal orb); try done; [apply HI | lia]. }
      apply (apply_step_spec orb _ fuel); try done; lia.
    + apply (apply_step_spec orb _ fuel); try done; lia.
Qed.

(** * [ite] *)

Lemma min_level_rank3 s a b c :
  wf s -> valid s a -> valid s b -> valid s c -> 2 <= a ->
  exists l, level_min (level_min (lvl s a) (lvl s b)) (lvl s c) = Finite l /\
            l < length (_variable_ordering s) /\
            length (_variable_ordering s) - l <= rank3 s a b c.
Proof.
  intros Hwf Ha Hb Hc Ha2. unfold rank3, rank.
  pose proof (lvl_bound s Hwf a) as Ba. pose proof (lvl_bound s Hwf b) as Bb.
  pose proof (lvl_bound s Hwf c) as Bc.
  pose proof (lvl_infinity_terminal s a Hwf Ha) as Ta.
  destruct (lvl s a) as [la|]; [|specialize (Ta eq_refl); lia].
  specialize (Ba la eq_refl).
  destruct (lvl s b) as [lb|], (lvl s c) as [lc|];
    try specialize (Bb lb eq_refl); try specialize (Bc lc eq_refl);
    unfold level_min, level_ltb;
    repeat match goal with
           | |- context [?x <? ?y] => destruct (Nat.ltb_spec x y)
           end;
    eexists; (split_and!; [reflexivity | lia | lia]).
Qed.

Lemma ite_entry_grows s s' e :
  Inv s -> Inv s' -> grows s s' -> ite_entry s e -> ite_entry s' e.
Proof.
  intros [Hwf _] [Hwf' _] Hg. by apply ite_entry_extends, grows_extends.
Qed.

Lemma ite_combine s l a a1 a0 b b1 b0 c c1 c0 r w1 w0 :
  splits s l a a1 a0 -> splits s l b b1 b0 -> splits s l c c1 c0 ->
  splits s l r w1 w0 ->
  ite_entry s ((a1, b1, c1), w1) -> ite_entry s ((a0, b0, c0), w0) ->
  level_le (level_min (level_min (lvl s a) (lvl s b)) (lvl s c)) (Finite l) ->
  level_le (Finite l) (lvl s r) ->
  ite_entry s ((a, b, c), r).
Proof.
  intros (Ha & _ & _ & _ & _ & Sa) (Hb & _ & _ & _ & _ & Sb)
    (Hc & _ & _ & _ & _ & Sc) (Hr & _ & _ & _ & _ & Sr)
    (_ & _ & _ & _ & _ & S1) (_ & _ & _ & _ & _ & S0) Hmin Hl.
  split_and!; try done.
  - by eapply level_le_trans.
  - intros env. rewrite Sr, Sa, Sb, Sc, S1, S0. by destruct (env l).
Qed.

Lemma make_unless_equal v w1 w0 s :
  (if w0 =? w1 then ret w0 else make v w1 w0) s = make v w1 w0 s.
Proof.
  rewrite make_eq. destruct (Nat.eqb_spec w0 w1) as [->|Hne].
  - by rewrite Nat.eqb_refl.
  - destruct (Nat.eqb_spec w1 w0); [congruence|]. by rewrite make_eq,
      (proj2 (Nat.eqb_neq w1 w0)) by done.
Qed.

Lemma ite_step_spec rec k s a b c :
  (forall s a b c, Inv s -> valid s a -> valid s b -> valid s c ->
     rank3 s a b c < k ->
     returns (rec a b c) s (fun r s' => ite_entry s' ((a, b, c), r))) ->
  Inv s -> valid s a -> valid s b -> valid s c -> 2 <= a ->
  rank3 s a b c <= k ->
  returns (ite_step rec a b c) s (fun r s' => ite_entry s' ((a, b, c), r)).
Proof.
  intros Hrec HI Ha Hb Hc Ha2 Hk. pose proof HI as [Hwf _]. unfold ite_step.
  apply returns_bind_pure with (lvl s a); [by apply node_level_valid|].
  apply returns_bind_pure with (lvl s b); [by apply node_level_valid|].
  apply returns_bind_pure with (lvl s c); [by apply node_level_valid|].
  destruct (min_level_rank3 s a b c Hwf Ha Hb Hc Ha2) as (l & Hmin & Hl & Hrank).
  assert (Hla : level_le (Finite l) (lvl s a)).
  { rewrite <- Hmin. eapply level_le_trans; apply level_min_le_l. }
  assert (Hlb : level_le (Finite l) (lvl s b)).
  { rewrite <- Hmin. eapply level_le_trans; [apply level_min_le_l|apply level_min_le_r]. }
  assert (Hlc : level_le (Finite l) (lvl s c)).
  { rewrite <- Hmin. apply level_min_le_r. }
  cbn zeta. rewrite Hmin.
  destruct (variable_at_spec s l Hwf Hl) as (v & Hrun & Hv & Hid).
  apply returns_bind_pure with v; [done|].
  eapply returns_bind; [by apply (get_cofactors_spec s a v l)|].
  intros [a1 a0] s1 HI1 G1 [Sa _]. cbn [fst snd] in Sa.
  eapply returns_bind.
  { apply (get_cofactors_spec s1 b v l); [done | by eapply valid_grows | done |].
    by rewrite (lvl_grows s s1). }
  intros [b1 b0] s2 HI2 G2 [Sb _]. cbn [fst snd] in Sb.
  pose proof (splits_grows _ _ _ _ _ _ HI1 HI2 G2 Sa) as Sa2.
  assert (G02 : grows s s2) by (by etrans).
  eapply returns_bind.
  { apply (get_cofactors_spec s2 c v l); [done | by eapply valid_grows | done |].
    by rewrite (lvl_grows s s2). }
  intros [c1 c0] s3 HI3 G3 [Sc _]. cbn [fst snd] in Sc.
  pose proof (splits_grows _ _ _ _ _ _ HI2 HI3 G3 Sa2) as Sa3.
  pose proof (splits_grows _ _ _ _ _ _ HI2 HI3 G3 Sb) as Sb3.
  assert (G03 : grows s s3) by (by etrans).
  assert (E3 : _variable_ordering s3 = _variable_ordering s) by apply G03.
  assert (Hl3 : l < length (_variable_ordering s3)) by (by rewrite E3).
  eapply returns_bind.
  { apply Hrec; [done | apply Sa3 | apply Sb3 | apply Sc |].
    pose proof (rank_below s3 l a1 (proj1 HI3) Hl3 ltac:(apply Sa3)).
    pose proof (rank_below s3 l b1 (proj1 HI3) Hl3 ltac:(apply Sb3)).
    pose proof (rank_below s3 l c1 (proj1 HI3) Hl3 ltac:(apply Sc)).
    unfold rank3. rewrite E3 in *. lia. }
  intros w1 s4 HI4 G4 E1. cbn beta in E1.
  pose proof (splits_grows _ _ _ _ _ _ HI3 HI4 G4 Sa3) as Sa4.
  pose proof (splits_grows _ _ _ _ _ _ HI3 HI4 G4 Sb3) as Sb4.
  pose proof (splits_grows _ _ _ _ _ _ HI3 HI4 G4 Sc) as Sc4.
  assert (G04 : grows s s4) by (by etrans).
  assert (E4 : _variable_ordering s4 = _variable_ordering s) by apply G04.
  assert (Hl4 : l < length (_variable_ordering s4)) by (by rewrite E4).
  eapply returns_bind.
  { apply Hrec; [done | apply Sa4 | apply Sb4 | apply Sc4 |].
    pose proof (rank_below s4 l a0 (proj1 HI4) Hl4 ltac:(apply Sa4)).
    pose proof (rank_below s4 l b0 (proj1 HI4) Hl4 ltac:(apply Sb4)).
    pose proof (rank_below s4 l c0 (proj1 HI4) Hl4 ltac:(apply Sc4)).
    unfold rank3. rewrite E4 in *. lia. }
  intros w0 s5 HI5 G5 E0. cbn beta in E0.
  pose proof (splits_grows _ _ _ _ _ _ HI4 HI5 G5 Sa4) as Sa5.
  pose proof (splits_grows _ _ _ _ _ _ HI4 HI5 G5 Sb4) as Sb5.
  pose proof (splits_grows _ _ _ _ _ _ HI4 HI5 G5 Sc4) as Sc5.
  pose proof (ite_entry_grows _ _ _ HI4 HI5 G5 E1) as E15.
  assert (G05 : grows s s5) by (by etrans).
  assert (E5 : _variable_ordering s5 = _variable_ordering s) by apply G05.
  assert (Hmake : returns (make v w1 w0) s5 (fun r s' =>
    splits s' l r w1 w0 /\ level_le (Finite l) (lvl s' r))).
  { apply (make_spec v l w1 w0 s5); [done | by rewrite E5 | apply E15 | apply E0 | |].
    - destruct E15 as (_ & _ & _ & _ & Hle & _).
      eapply level_lt_le_trans; [|exact Hle].
      repeat apply level_min_glb_lt; [apply Sa5 | apply Sb5 | apply Sc5].
    - destruct E0 as (_ & _ & _ & _ & Hle & _).
      eapply level_lt_le_trans; [|exact Hle].
      repeat apply level_min_glb_lt; [apply Sa5 | apply Sb5 | apply Sc5]. }
  destruct Hmake as (r & s6 & Hrun6 & HI6 & G6 & Sr & Hlr).
  exists r, s6. rewrite make_unless_equal. split_and!; try done.
  assert (G06 : grows s s6) by (by etrans).
  apply (ite_combine s6 l a a1 a0 b b1 b0 c c1 c0 r w1 w0);
    eauto using splits_grows, ite_entry_grows.
  rewrite !(lvl_grows s s6) by done. rewrite Hmin. apply level_le_refl.
Qed.

Lemma ite_entry_get s : Inv s -> Forall (ite_entry s) (ite_cache s).
Proof. intros [_ Hc]. apply Hc. Qed.

(** [ite] returns, within [fuel] levels of recursion, a node that denotes
    "if [a] then [b] else [c]". *)
Lemma ite_spec fuel s a b c :
  Inv s -> valid s a -> valid s b -> valid s c ->
  rank3 s a b c < fuel ->
  returns (ite fuel a b c) s (fun r s' => ite_entry s' ((a, b, c), r)).
Proof.
  revert s a b c. induction fuel as [|fuel IH]; intros s a b c HI Ha Hb Hc Hk; [lia|].
  change (ite (S fuel) a b c) with
    (lru_cache ite_cache set_ite_cache (a, b, c)
       (if a =? get_one_node then ret b
        else if a =? get_zero_node then ret c
        else ite_step (ite fuel) a b c)).
  apply (returns_lru_cache _ _ ite_entry); try done.
  - apply Inv_set_ite_cache.
  - apply ite_entry_get.
  - intros s1 s2 e ? ? ?. by apply ite_entry_extends.
  - intros _. unfold get_zero_node, get_one_node.
    destruct (Nat.eqb_spec a 1) as [->|Ha1].
    { apply returns_ret; [done|]. split_and!; try done.
      eapply level_le_trans; [apply level_min_le_l | apply level_min_le_r]. }
    destruct (Nat.eqb_spec a 0) as [->|Ha0].
    { apply returns_ret; [done|]. split_and!; try done.
      apply level_min_le_r. }
    apply (ite_step_spec _ fuel); try done; lia.
Qed.

(** * [pre_image] *)

Lemma upd_eq env k v : upd env k v k = v.
Proof. unfold upd. by rewrite Nat.eqb_refl. Qed.

Lemma upd_ne env k v j : j <> k -> upd env k v j = env j.
Proof. unfold upd. intros Hj. by destruct (Nat.eqb_spec j k). Qed.

Lemma sem_upd_above s n k v env :
  wf s -> valid s n -> level_lt (Finite k) (lvl s n) ->
  sem s n (upd env k v) = sem s n env.
Proof.
  intros Hwf Hn Hk. apply sem_independent; [done..|]. intros j Hj.
  apply upd_ne. intros ->. destruct (lvl s n); level_solve.
Qed.

Lemma sem_primed_view_upd s n k v env :
  wf s -> valid s n -> level_lt (Finite k) (lvl s n) ->
  sem s n (primed_view (upd env (S k) v)) = sem s n (primed_view env).
Proof.
  intros Hwf Hn Hk. apply sem_independent; [done..|]. intros j Hj.
  unfold primed_view. apply upd_ne. intros [= ->].
  destruct (lvl s n); level_solve.
Qed.

Lemma agree_unprimed_upd env env' k v :
  Nat.odd k = true -> agree_unprimed env env' ->
  agree_unprimed env (upd env' k v).
Proof.
  intros Hk Ha i. rewrite upd_ne; [apply Ha|]. intros E.
  rewrite <- E, Nat.odd_mul, Nat.odd_2 in Hk. done.
Qed.

Lemma agree_unprimed_even env env' l :
  Nat.even l = true -> agree_unprimed env env' -> env' l = env l.
Proof.
  intros [m ->]%Nat.even_spec Ha. apply Ha.
Qed.

Lemma over_unprimed_level s n l :
  wf s -> over_unprimed s n -> lvl s n = Finite l ->
  exists v, _variable_ordering s !! l = Some v /\ is_primed v = false.
Proof.
  intros Hwf Hu El. destruct Hu as [n Hn|n l' h lo v E Ev Hp _ _].
  - by rewrite (lvl_terminal s Hwf n Hn) in El.
  - rewrite (lvl_row _ _ _ _ _ E) in El. injection El as <-. eauto.
Qed.

Lemma pre_image_entry_grows s s' e :
  Inv s -> Inv s' -> grows s s' -> pre_image_entry s e -> pre_image_entry s' e.
Proof.
  intros [Hwf _] [Hwf' _] Hg. by apply pre_image_entry_extends, grows_extends.
Qed.

Lemma over_unprimed_grows s s' n :
  grows s s' -> over_unprimed s n -> over_unprimed s' n.
Proof. intros Hg. by apply extends_over_unprimed, grows_extends. Qed.

Lemma interleaved_grows s s' : grows s s' -> interleaved s -> interleaved s'.
Proof. intros [E _]. unfold interleaved. by rewrite E. Qed.

(** The primed case: the variable is quantified away. *)
Lemma pre_image_primed_combine s l a a1 a0 b w1 w0 r :
  wf s -> Nat.odd l = true ->
  splits s l a a1 a0 -> valid s b -> level_lt (Finite l) (lvl s b) ->
  denotes_pre_image s a1 b w1 -> denotes_pre_image s a0 b w0 ->
  (forall env, sem s r env = sem s w1 env || sem s w0 env) ->
  denotes_pre_image s a b r.
Proof.
  intros Hwf Hodd (Ha & Ha1 & Ha0 & La1 & La0 & Sa) Hb Lb D1 D0 Sr env.
  rewrite Sr, orb_true_iff, (D1 env), (D0 env). split.
  - intros [(env' & Hag & H1 & H2)|(env' & Hag & H1 & H2)].
    + exists (upd env' l true). split_and!.
      * by apply agree_unprimed_upd.
      * rewrite Sa, upd_eq. by rewrite sem_upd_above.
      * destruct l as [|k]; [done|]. rewrite sem_primed_view_upd; [done..|].
        destruct (lvl s b); level_solve.
    + exists (upd env' l false). split_and!.
      * by apply agree_unprimed_upd.
      * rewrite Sa, upd_eq. by rewrite sem_upd_above.
      * destruct l as [|k]; [done|]. rewrite sem_primed_view_upd; [done..|].
        destruct (lvl s b); level_solve.
  - intros (env' & Hag & H1 & H2). rewrite Sa in H1.
    destruct (env' l); [left|right]; by exists env'.
Qed.

(** The unprimed case: the result tests [x], and below it [x'] is
    quantified away, [S] being read on [x] where [T] is read on [x']. *)
Lemma pre_image_unprimed_combine s l a a1 a0 a11 a10 a01 a00 b b1 b0
    w10 w11 w00 w01 n1 n0 r :
  wf s -> Nat.even l = true ->
  splits s l a a1 a0 -> splits s l b b1 b0 ->
  splits s (S l) a1 a11 a10 -> splits s (S l) a0 a01 a00 ->
  denotes_pre_image s a10 b0 w10 -> denotes_pre_image s a11 b1 w11 ->
  denotes_pre_image s a00 b0 w00 -> denotes_pre_image s a01 b1 w01 ->
  (forall env, sem s n1 env = sem s w10 env || sem s w11 env) ->
  (forall env, sem s n0 env = sem s w00 env || sem s w01 env) ->
  (forall env, sem s r env = if env l then sem s n1 env else sem s n0 env) ->
  denotes_pre_image s a b r.
Proof.
  intros Hwf Heven (Ha & Ha1 & Ha0 & La1 & La0 & Sa)
    (Hb & Hb1 & Hb0 & Lb1 & Lb0 & Sb)
    (_ & Ha11 & Ha10 & La11 & La10 & Sa1) (_ & Ha01 & Ha00 & La01 & La00 & Sa0)
    D10 D11 D00 D01 N1 N0 Sr env.
  assert (Hodd : Nat.odd (S l) = true) by (by rewrite Nat.odd_succ).
  assert (Hpv : forall env' v, primed_view (upd env' (S l) v) l = v).
  { intros env' v. unfold primed_view. apply upd_eq. }
  assert (Hl : forall env' v, agree_unprimed env env' ->
            upd env' (S l) v l = env l).
  { intros env' v Hag. rewrite upd_ne by lia. by apply agree_unprimed_even. }
  rewrite Sr. split.
  - destruct (env l) eqn:El.
    + rewrite N1, orb_true_iff, (D10 env), (D11 env).
      intros [(env' & Hag & H1 & H2)|(env' & Hag & H1 & H2)].
      * exists (upd env' (S l) false). split_and!.
        -- by apply agree_unprimed_upd.
        -- rewrite Sa, Hl by done. rewrite Sa1, upd_eq.
           by rewrite sem_upd_above.
        -- rewrite Sb, Hpv. by rewrite sem_primed_view_upd.
      * exists (upd env' (S l) true). split_and!.
        -- by apply agree_unprimed_upd.
        -- rewrite Sa, Hl by done. rewrite Sa1, upd_eq.
           by rewrite sem_upd_above.
        -- rewrite Sb, Hpv. by rewrite sem_primed_view_upd.
    + rewrite N0, orb_true_iff, (D00 env), (D01 env).
      intros [(env' & Hag & H1 & H2)|(env' & Hag & H1 & H2)].
      * exists (upd env' (S l) false). split_and!.
        -- by apply agree_unprimed_upd.
        -- rewrite Sa, Hl by done. rewrite Sa0, upd_eq.
           by rewrite sem_upd_above.
        -- rewrite Sb, Hpv. by rewrite sem_primed_view_upd.
      * exists (upd env' (S l) true). split_and!.
        -- by apply agree_unprimed_upd.
        -- rewrite Sa, Hl by done. rewrite Sa0, upd_eq.
           by rewrite sem_upd_above.
        -- rewrite Sb, Hpv. by rewrite sem_primed_view_upd.
  - intros (env' & Hag & H1 & H2).
    rewrite Sa, (agree_unprimed_even env env' l Heven Hag) in H1.
    rewrite Sb in H2. unfold primed_view at 1 in H2.
    destruct (env l).
    + rewrite N1, orb_true_iff, (D10 env), (D11 env). rewrite Sa1 in H1.
      destruct (env' (S l)); [right|left]; by exists env'.
    + rewrite N0, orb_true_iff, (D00 env), (D01 env). rewrite Sa0 in H1.
      destruct (env' (S l)); [right|left]; by exists env'.
Qed.

Lemma pre_image_entry_level s a b r l :
  pre_image_entry s ((a, b), r) ->
  level_lt (Finite l) (lvl s a) -> level_lt (Finite l) (lvl s b) ->
  level_lt (Finite l) (lvl s r).
Proof.
  intros (_ & _ & _ & _ & Hle & _) La Lb.
  eapply level_lt_le_trans; [|exact Hle]. by apply level_min_glb_lt.
Qed.

Lemma binary_entry_level f s a b r l :
  binary_entry f s ((a, b), r) ->
  level_lt (Finite l) (lvl s a) -> level_lt (Finite l) (lvl s b) ->
  level_lt (Finite l) (lvl s r).
Proof.
  intros (_ & _ & _ & Hle & _) La Lb.
  eapply level_lt_le_trans; [|exact Hle]. by apply level_min_glb_lt.
Qed.

Lemma level_lt_grows s s' l n :
  Inv s' -> grows s s' -> valid s n ->
  level_lt (Finite l) (lvl s n) -> level_lt (Finite l) (lvl s' n).
Proof. intros HI Hg Hn. by rewrite (lvl_grows s s'). Qed.

Lemma disjunction_below fuel s l a b :
  Inv s -> valid s a -> valid s b ->
  l < length (_variable_ordering s) ->
  length (_variable_ordering s) - l <= fuel ->
  level_lt (Finite l) (lvl s a) -> level_lt (Finite l) (lvl s b) ->
  returns (disjunction fuel a b) s (fun r s' => binary_entry orb s' ((a, b), r)).
Proof.
  intros HI Ha Hb Hl Hk La Lb. apply disjunction_spec; try done.
  pose proof (rank_below s l a (proj1 HI) Hl La).
  pose proof (rank_below s l b (proj1 HI) Hl Lb). lia.
Qed.

Lemma grows_trans s0 s s' : grows s0 s -> grows s s' -> grows s0 s'.
Proof. intros. by etrans. Qed.

Lemma length_grows s s' k :
  grows s s' -> length (_variable_ordering s) = k ->
  length (_variable_ordering s') = k.
Proof. intros [E _]. by rewrite E. Qed.

(** Carry what is known of the manager [s] over to [s'], which grew from
    it. *)
Ltac advance s s' HI HI' G :=
  repeat match goal with
    | H : splits s _ _ _ _ |- _ =>
        apply (splits_grows s s' _ _ _ _ HI HI' G) in H
    | H : pre_image_entry s _ |- _ =>
        apply (pre_image_entry_grows s s' _ HI HI' G) in H
    | H : binary_entry _ s _ |- _ =>
        apply (binary_entry_grows _ s s' _ HI HI' G) in H
    | H : over_unprimed s _ |- _ =>
        apply (over_unprimed_grows s s' _ G) in H
    | H : interleaved s |- _ => apply (interleaved_grows s s' G) in H
    | H : length (_variable_ordering s) = _ |- _ =>
        apply (length_grows s s' _ G) in H
    | H : grows _ s |- _ => apply (fun X => grows_trans _ s s' X G) in H
    | H : level_lt _ (lvl s ?n) |- _ =>
        apply (level_lt_grows s s' _ n HI' G) in H; [|assumption]
    | H : valid s _ |- _ => apply (valid_grows s s' _ G) in H
    end.

Lemma interleaved_succ s l :
  interleaved s -> Nat.even l = true -> l < length (_variable_ordering s) ->
  S l < length (_variable_ordering s).
Proof.
  intros [Hlen _] Hl Hlt.
  destruct (decide (S l = length (_variable_ordering s))) as [E|]; [|lia].
  rewrite <- E, Nat.even_succ, <- Nat.negb_even, Hl in Hlen. done.
Qed.

Lemma pre_image_step_spec fuel rec s a b l k :
  Inv s -> interleaved s -> length (_variable_ordering s) = k ->
  valid s a -> valid s b -> over_unprimed s b ->
  level_min (lvl s a) (lvl s b) = Finite l -> l < k -> k - l <= fuel ->
  pre_image_rec k l rec ->
  returns (pre_image_step fuel rec a b) s (pre_image_post a b).
Proof.
  intros HI Hint Hlen Ha Hb Hu Hmin Hl Hk Hrec. pose proof HI as [Hwf _].
  assert (G0 : grows s s) by reflexivity.
  assert (Hla : level_le (Finite l) (lvl s a)).
  { rewrite <- Hmin. apply level_min_le_l. }
  assert (Hlb : level_le (Finite l) (lvl s b)).
  { rewrite <- Hmin. apply level_min_le_r. }
  assert (Hmin' : forall s', Inv s' -> grows s s' ->
            level_min (lvl s' a) (lvl s' b) = Finite l).
  { intros s' HI' G'. by rewrite !(lvl_grows s s') by done. }
  unfold pre_image_step, pre_image_post in *.
  apply returns_bind_pure with (lvl s a); [by apply node_level_valid|].
  apply returns_bind_pure with (lvl s b); [by apply node_level_valid|].
  cbn zeta. rewrite Hmin.
  destruct (variable_at_spec s l Hwf ltac:(lia)) as (v & Hrun & Hv & Hid).
  apply returns_bind_pure with v; [done|].
  pose proof (proj2 Hint l v Hv) as Hpar.
  destruct (is_primed v) eqn:Ep.
  - (* the primed variable [x'] comes first *)
    assert (Lb : level_lt (Finite l) (lvl s b)).
    { destruct (lvl s b) as [lb|] eqn:Eb; [|done].
      destruct (over_unprimed_level s b lb Hwf Hu Eb) as (vb & Hvb & Hpb).
      assert (lb <> l) by (intros ->; congruence). level_solve. }
    eapply returns_bind; [by apply (get_cofactors_spec s a v l)|].
    intros [a1 a0] s1 HI1 G1 [Sa _]. cbn [fst snd] in Sa.
    advance s s1 HI HI1 G1.
    eapply returns_bind.
    { apply Hrec; try done; apply Sa. }
    intros w1 s2 HI2 G2 E1. unfold pre_image_post in E1.
    advance s1 s2 HI1 HI2 G2.
    eapply returns_bind.
    { apply Hrec; try done; apply Sa. }
    intros w0 s3 HI3 G3 E0. unfold pre_image_post in E0.
    advance s2 s3 HI2 HI3 G3.
    eapply returns_weaken.
    { apply (disjunction_below fuel s3 l w1 w0); try done; try lia.
      - apply E1.
      - apply E0.
      - eapply pre_image_entry_level; [exact E1 | apply Sa | done].
      - eapply pre_image_entry_level; [exact E0 | apply Sa | done]. }
    intros r s4 HI4 G4 Er. cbn beta in Er.
    advance s3 s4 HI3 HI4 G4.
    split_and!; try done.
    + apply Er.
    + rewrite (Hmin' s4 HI4 G0).
      apply level_lt_le. eapply binary_entry_level; [exact Er | |].
      * eapply pre_image_entry_level; [exact E1 | apply Sa | done].
      * eapply pre_image_entry_level; [exact E0 | apply Sa | done].
    + apply (pre_image_primed_combine s4 l a a1 a0 b w1 w0 r);
        try done; try apply HI4; try apply E1; try apply E0; try apply Er.
  - (* the unprimed variable [x] comes first, [x'] is the next one *)
    assert (Heven : Nat.even l = true).
    { rewrite <- Nat.negb_odd, <- Hpar. done. }
    assert (Hl' : S l < length (_variable_ordering s)).
    { apply interleaved_succ; try done. lia. }
    destruct (variable_at_spec s (S l) Hwf Hl') as (v' & Hrun' & Hv' & Hid').
    cbn [level_succ]. apply returns_bind_pure with v'; [done|].
    eapply returns_bind; [by apply (get_cofactors_spec s a v l)|].
    intros [a1 a0] s1 HI1 G1 [Sa _]. cbn [fst snd] in Sa.
    advance s s1 HI HI1 G1.
    eapply returns_bind.
    { apply (get_cofactors_spec s1 b v l); try done.
      rewrite <- (Hmin' s1 HI1 G0). apply level_min_le_r. }
    intros [b1 b0] s2 HI2 G2 [Sb Hub]. cbn [fst snd] in Sb, Hub.
    destruct (Hub Hu) as [Hu1 Hu0]. clear Hub.
    advance s1 s2 HI1 HI2 G2.
    eapply returns_bind.
    { apply (get_cofactors_spec s2 a1 v' (S l)); try done; [apply Sa|].
      destruct Sa as (_ & _ & _ & L1 & _). destruct (lvl s2 a1); level_solve. }
    intros [a11 a10] s3 HI3 G3 [Sa1 _]. cbn [fst snd] in Sa1.
    advance s2 s3 HI2 HI3 G3.
    eapply returns_bind.
    { apply (get_cofactors_spec s3 a0 v' (S l)); try done; [apply Sa|].
      destruct Sa as (_ & _ & _ & _ & L0 & _). destruct (lvl s3 a0); level_solve. }
    intros [a01 a00] s4 HI4 G4 [Sa0 _]. cbn [fst snd] in Sa0.
    advance s3 s4 HI3 HI4 G4.
    assert (Hbelow : forall s x y z, splits s (S l) x y z ->
              level_lt (Finite l) (lvl s y) /\ level_lt (Finite l) (lvl s z)).
    { intros s' x y z (_ & _ & _ & Ly & Lz & _).
      split; [destruct (lvl s' y)|destruct (lvl s' z)]; level_solve. }
    eapply returns_bind.
    { apply Hrec; try done; try apply Sa1; try apply Sb.
      apply (Hbelow _ _ _ _ Sa1). }
    intros w10 s5 HI5 G5 E10. unfold pre_image_post in E10.
    advance s4 s5 HI4 HI5 G5.
    eapply returns_bind.
    { apply Hrec; try done; try apply Sa1; try apply Sb.
      apply (Hbelow _ _ _ _ Sa1). }
    intros w11 s6 HI6 G6 E11. unfold pre_image_post in E11.
    advance s5 s6 HI5 HI6 G6.
    eapply returns_bind.
    { apply Hrec; try done; try apply Sa0; try apply Sb.
      apply (Hbelow _ _ _ _ Sa0). }
    intros w00 s7 HI7 G7 E00. unfold pre_image_post in E00.
    advance s6 s7 HI6 HI7 G7.
    eapply returns_bind.
    { apply Hrec; try done; try apply Sa0; try apply Sb.
      apply (Hbelow _ _ _ _ Sa0). }
    intros w01 s8 HI8 G8 E01. unfold pre_image_post in E01.
    advance s7 s8 HI7 HI8 G8.
    assert (Hw : forall s x y w, pre_image_entry s ((x, y), w) ->
              level_lt (Finite l) (lvl s x) -> level_lt (Finite l) (lvl s y) ->
              level_lt (Finite l) (lvl s w)).
    { intros. by eapply pre_image_entry_level. }
    eapply returns_bind.
    { apply (disjunction_below fuel s8 l w10 w11); try done; try lia.
      - apply E10.
      - apply E11.
      - eapply Hw; [exact E10 | apply (Hbelow _ _ _ _ Sa1) | apply Sb].
      - eapply Hw; [exact E11 | apply (Hbelow _ _ _ _ Sa1) | apply Sb]. }
    intros n1 s9 HI9 G9 N1. cbn beta in N1.
    advance s8 s9 HI8 HI9 G9.
    eapply returns_bind.
    { apply (disjunction_below fuel s9 l w00 w01); try done; try lia.
      - apply E00.
      - apply E01.
      - eapply Hw; [exact E00 | apply (Hbelow _ _ _ _ Sa0) | apply Sb].
      - eapply Hw; [exact E01 | apply (Hbelow _ _ _ _ Sa0) | apply Sb]. }
    intros n0 s10 HI10 G10 N0. cbn beta in N0.
    advance s9 s10 HI9 HI10 G10.
    eapply returns_weaken.
    { apply (make_spec v l n1 n0 s10); try done.
      - by rewrite (proj1 G0).
      - apply N1.
      - apply N0.
      - eapply binary_entry_level; [exact N1 | |].
        + eapply Hw; [exact E10 | apply (Hbelow _ _ _ _ Sa1) | apply Sb].
        + eapply Hw; [exact E11 | apply (Hbelow _ _ _ _ Sa1) | apply Sb].
      - eapply binary_entry_level; [exact N0 | |].
        + eapply Hw; [exact E00 | apply (Hbelow _ _ _ _ Sa0) | apply Sb].
        + eapply Hw; [exact E01 | apply (Hbelow _ _ _ _ Sa0) | apply Sb]. }
    intros r s11 HI11 G11 [Sr Lr]. cbn beta.
    advance s10 s11 HI10 HI11 G11.
    split_and!; try done.
    + apply Sr.
    + by rewrite (Hmin' s11 HI11 G0).
    + apply (pre_image_unprimed_combine s11 l a a1 a0 a11 a10 a01 a00 b b1 b0
               w10 w11 w00 w01 n1 n0 r);
        try done; try apply HI11; try apply E10; try apply E11;
        try apply E00; try apply E01; try apply N1; try apply N0; apply Sr.
Qed.

Lemma pre_image_entry_get s :
  Inv s -> Forall (pre_image_entry s) (pre_image_cache s).
Proof. intros [_ Hc]. apply Hc. Qed.

(** [pre_image] returns, within [fuel] levels of recursion, a node that
    denotes the predecessors of [b] under [a]. *)
Lemma pre_image_spec fuel s a b :
  Inv s -> interleaved s -> valid s a -> valid s b -> over_unprimed s b ->
  Nat.max (rank s a) (rank s b) < fuel ->
  returns (pre_image fuel a b) s (pre_image_post a b).
Proof.
  revert s a b. induction fuel as [|fuel IH]; intros s a b HI Hint Ha Hb Hu Hk; [lia|].
  change (pre_image (S fuel) a b) with
    (lru_cache pre_image_cache set_pre_image_cache (a, b)
       (if (a =? get_zero_node) || (b =? get_zero_node) then ret get_zero_node
        else if (a =? get_one_node) && (b =? get_one_node) then ret get_one_node
        else pre_image_step fuel (pre_image fuel) a b)).
  unfold pre_image_post.
  apply (returns_lru_cache _ _ pre_image_entry); try done.
  - apply Inv_set_pre_image_cache.
  - apply pre_image_entry_get.
  - intros s1 s2 e ? ? ?. by apply pre_image_entry_extends.
  - intros _. unfold get_zero_node, get_one_node. pose proof HI as [Hwf _].
    assert (Hterm : forall r, r < 2 -> denotes_pre_image s a b r ->
              returns (ret r) s (fun r s' => pre_image_entry s' (a, b, r))).
    { intros r Hr Hd. apply returns_ret; [done|].
      split_and!; try done; [by left|].
      rewrite (lvl_terminal s Hwf r Hr). apply level_le_infinity. }
    destruct (Nat.eqb_spec a 0) as [->|Ha0]; simpl.
    { apply Hterm; [lia|]. intros env. split; [done|].
      by intros (env' & _ & ? & _). }
    destruct (Nat.eqb_spec b 0) as [->|Hb0]; simpl.
    { apply Hterm; [lia|]. intros env. split; [done|].
      by intros (env' & _ & _ & ?). }
    destruct (Nat.eqb_spec a 1) as [->|Ha1]; simpl.
    + destruct (Nat.eqb_spec b 1) as [->|Hb1].
      { apply Hterm; [lia|]. intros env. split; [|done].
        intros _. by exists env. }
      destruct (min_level_rank s 1 b Hwf Ha Hb ltac:(lia)) as (l & Hmin & Hl & Hr).
      apply (pre_image_step_spec fuel _ s 1 b l (length (_variable_ordering s)));
        try done; [lia|].
      intros s' a' b' HI' Hint' Hlen' Ha' Hb' Hu' La' Lb'. apply IH; try done.
      pose proof (rank_below s' l a' (proj1 HI') ltac:(lia) La').
      pose proof (rank_below s' l b' (proj1 HI') ltac:(lia) Lb'). lia.
    + destruct (min_level_rank s a b Hwf Ha Hb ltac:(lia)) as (l & Hmin & Hl & Hr).
      apply (pre_image_step_spec fuel _ s a b l (length (_variable_ordering s)));
        try done; [lia|].
      intros s' a' b' HI' Hint' Hlen' Ha' Hb' Hu' La' Lb'. apply IH; try done.
      pose proof (rank_below s' l a' (proj1 HI') ltac:(lia) La').
      pose proof (rank_below s' l b' (proj1 HI') ltac:(lia) Lb'). lia.
Qed.

(** * [clear] *)

Lemma weight_app q1 q2 : weight (q1 ++ q2) = weight q1 + weight q2.
Proof. induction q1 as [|n q1 IH]; simpl; lia. Qed.

Lemma pow3_pos n : 0 < 3 ^ n.
Proof. induction n; simpl; lia. Qed.

Lemma pow3_children n h lo : h < n -> lo < n -> 3 ^ h + 3 ^ lo < 3 ^ n.
Proof.
  intros Hh Hlo. destruct n as [|n]; [lia|].
  pose proof (Nat.pow_le_mono_r 3 h n). pose proof (Nat.pow_le_mono_r 3 lo n).
  pose proof (pow3_pos n). simpl. lia.
Qed.

Lemma reach_mono s R R' n :
  (forall m, m ∈ R -> reach s R' m) -> reach s R n -> reach s R' n.
Proof.
  intros HR. induction 1 as [n Hn|m l h lo _ IH E|m l h lo _ IH E].
  - by apply HR.
  - by eapply reach_high.
  - by eapply reach_low.
Qed.

Lemma closed_step (explored : gset nat) (current : nat) (queue : list nat) x :
  x ∈ explored \/ x ∈ current :: queue ->
  x ∈ ({[current]} ∪ explored : gset nat) \/ x ∈ queue.
Proof. rewrite elem_of_cons, elem_of_union, elem_of_singleton. tauto. Qed.

Lemma clear_loop_terminal fuel current queue explored s :
  current < 2 ->
  clear_loop (S fuel) (current :: queue) explored s =
  clear_loop fuel queue ({[current]} ∪ explored) s.
Proof.
  intros Hc. simpl. unfold get_one_node, get_zero_node.
  by destruct current as [|[|?]]; [| |lia].
Qed.

Lemma clear_loop_node fuel current queue explored s l h lo :
  2 <= current -> _node_to_row s !! current = Some (l, h, lo) ->
  clear_loop (S fuel) (current :: queue) explored s =
  clear_loop fuel
    (let queue := if decide (h ∈ {[current]} ∪ explored) then queue
                  else queue ++ [h] in
     if decide (lo ∈ {[current]} ∪ explored) then queue else queue ++ [lo])
    ({[current]} ∪ explored) s.
Proof.
  intros Hc E. simpl. unfold get_one_node, get_zero_node.
  destruct (Nat.eqb_spec current 1); [lia|].
  destruct (Nat.eqb_spec current 0); [lia|]. simpl.
  unfold get_succs, bind, gets; simpl. by rewrite E.
Qed.

Lemma clear_loop_spec fuel queue explored s :
  wf s -> Forall (valid s) queue -> weight queue < fuel ->
  closed_upto s explored queue ->
  exists marked,
    clear_loop fuel queue explored s = (Ok marked, s) /\
    explored ⊆ marked /\ (forall n, n ∈ queue -> n ∈ marked) /\
    closed_upto s marked [] /\
    (forall n, n ∈ marked -> n ∈ explored \/ reach s queue n).
Proof.
  intros Hwf. revert queue explored.
  induction fuel as [|fuel IH]; intros queue explored Hq Hw Hcl; [lia|].
  destruct queue as [|current queue].
  { exists explored. split_and!; try done.
    - intros n Hn. by apply elem_of_nil in Hn.
    - intros n Hn. by left. }
  apply Forall_cons in Hq as [Hc Hq]. simpl in Hw.
  pose proof (pow3_pos current) as Hpos.
  assert (Hstep : forall queue',
    Forall (valid s) queue' -> weight queue' < fuel ->
    closed_upto s ({[current]} ∪ explored) queue' ->
    (forall n, n ∈ queue -> n ∈ queue') ->
    (forall n, n ∈ queue' -> reach s (current :: queue) n) ->
    exists marked,
      clear_loop fuel queue' ({[current]} ∪ explored) s = (Ok marked, s) /\
      explored ⊆ marked /\ (forall n, n ∈ current :: queue -> n ∈ marked) /\
      closed_upto s marked [] /\
      (forall n, n ∈ marked -> n ∈ explored \/ reach s (current :: queue) n)).
  { intros queue' Hq' Hw' Hcl' Hsub Hreach.
    destruct (IH queue' ({[current]} ∪ explored) Hq' Hw' Hcl')
      as (marked & Hrun & Hex & Hqm & Hclm & Hrm).
    exists marked. split_and!; try done.
    - intros n Hn. apply Hex, elem_of_union. by right.
    - intros n [->|Hn]%elem_of_cons; [|by apply Hqm, Hsub].
      apply Hex, elem_of_union. left. by apply elem_of_singleton.
    - intros n Hn. destruct (Hrm n Hn) as [[Hn'|Hn']%elem_of_union|Hn'].
      + apply elem_of_singleton in Hn' as ->. right. apply reach_root.
        apply list_elem_of_here.
      + by left.
      + right. eapply reach_mono; [|exact Hn']. done. }
  destruct (valid_cases s Hwf current Hc) as [->|[->|(l & h & lo & E & Hn2)]].
  - rewrite clear_loop_terminal by lia. apply Hstep; try done; try lia.
    + intros m l h lo [Hm|Hm]%elem_of_union E.
      * apply elem_of_singleton in Hm as ->.
        by rewrite (wf_terminal_row s Hwf 0) in E by lia.
      * destruct (Hcl m l h lo Hm E) as [H1 H2].
        split; by apply closed_step.
    + intros n Hn. apply reach_root. by apply list_elem_of_further.
  - rewrite clear_loop_terminal by lia. apply Hstep; try done; try lia.
    + intros m l h lo [Hm|Hm]%elem_of_union E.
      * apply elem_of_singleton in Hm as ->.
        by rewrite (wf_terminal_row s Hwf 1) in E by lia.
      * destruct (Hcl m l h lo Hm E) as [H1 H2].
        split; by apply closed_step.
    + intros n Hn. apply reach_root. by apply list_elem_of_further.
  - rewrite (clear_loop_node _ _ _ _ _ _ _ _ Hn2 E). cbn zeta.
    pose proof (wf_rows s Hwf _ _ _ _ E) as (_ & Hvh & Hvlo & Hh & Hlo).
    pose proof (pow3_children current h lo Hh Hlo) as Hch.
    pose proof (pow3_pos h). pose proof (pow3_pos lo).
    apply Hstep.
    + repeat case_decide; rewrite ?Forall_app; repeat split; try done;
        by apply Forall_singleton.
    + repeat case_decide; rewrite ?weight_app; simpl; lia.
    + intros m l' h' lo' [Hm|Hm]%elem_of_union E'.
      * apply elem_of_singleton in Hm as ->. rewrite E in E'.
        injection E' as <- <- <-.
        split; repeat case_decide; rewrite ?elem_of_app, ?list_elem_of_singleton;
          tauto.
      * destruct (Hcl m l' h' lo' Hm E') as [H1 H2].
        apply closed_step in H1, H2.
        split; [destruct H1 as [?|?] | destruct H2 as [?|?]];
          try (by left); right;
          repeat case_decide; rewrite ?elem_of_app; tauto.
    + intros n Hn. repeat case_decide; rewrite ?elem_of_app; tauto.
    + assert (Hrc : reach s (current :: queue) current).
      { apply reach_root, list_elem_of_here. }
      intros n Hn.
      assert (n ∈ queue \/ n = h \/ n = lo) as [Hn'|[->| ->]].
      { revert Hn. repeat case_decide;
          rewrite ?elem_of_app, ?list_elem_of_singleton; tauto. }
      * apply reach_root. by apply list_elem_of_further.
      * by eapply reach_high.
      * by eapply reach_low.
Qed.

Lemma closed_reach s R marked n :
  (forall m, m ∈ R -> m ∈ marked) -> closed_upto s marked [] ->
  reach s R n -> n ∈ marked.
Proof.
  intros HR Hcl. induction 1 as [n Hn|m l h lo _ IH E|m l h lo _ IH E].
  - by apply HR.
  - destruct (Hcl m l h lo IH E) as [[?|Hn] _]; [done|]. by apply elem_of_nil in Hn.
  - destruct (Hcl m l h lo IH E) as [_ [?|Hn]]; [done|]. by apply elem_of_nil in Hn.
Qed.

(** The marking loop of [clear], started on the roots, marks exactly the
    nodes reachable from them. *)
Lemma clear_loop_marks fuel R s :
  wf s -> Forall (valid s) R -> weight R < fuel ->
  exists marked,
    clear_loop fuel R ∅ s = (Ok marked, s) /\
    forall n, n ∈ marked <-> reach s R n.
Proof.
  intros Hwf HR Hw.
  destruct (clear_loop_spec fuel R ∅ s Hwf HR Hw)
    as (marked & Hrun & _ & Hroots & Hcl & Hreach).
  { intros m l h lo Hm. by apply not_elem_of_empty in Hm. }
  exists marked. split; [done|]. intros n. split.
  - intros Hn. destruct (Hreach n Hn) as [Hn'|Hn']; [|done].
    by apply not_elem_of_empty in Hn'.
  - by apply closed_reach.
Qed.

(** [clear] on a well-formed store and known roots: it returns, and keeps
    exactly the rows of the nodes reachable from the roots. *)
Lemma clear_spec fuel R s :
  wf s -> Forall (valid s) R -> weight R < fuel ->
  exists s',
    clear fuel R s = (Ok tt, s') /\ store_inv s' /\
    _node_id s' = _node_id s /\
    _variable_ordering s' = _variable_ordering s /\
    forall n r, _node_to_row s' !! n = Some r <->
                _node_to_row s !! n = Some r /\ reach s R n.
Proof.
  intros Hwf HR Hw.
  destruct (clear_loop_marks fuel R s Hwf HR Hw) as (marked & Hrun & Hm).
  destruct (clear_sweep_inactive marked s (wf_store s Hwf))
    as (s' & Hsweep & Hst & Hid & Hord & Hrows).
  exists s'. split_and!; try done.
  - unfold clear, bind, gets. rewrite Hrun. simpl. done.
  - intros n r. rewrite Hrows. destruct (decide (n ∈ marked)) as [Hn|Hn].
    + apply Hm in Hn. tauto.
    + rewrite Hm in Hn. split; [done | tauto].
Qed.

(** * Managers that satisfy the invariant *)

Lemma Inv_new : Inv new.
Proof.
  split; [|by split].
  split; try done; try apply store_inv_new;
    intros n l h lo E; by rewrite lookup_empty in E.
Qed.

Lemma create_variable_extends x p s : extends s (create_variable x p s).2.
Proof. split; simpl; [by apply prefix_app_r | done]. Qed.

Lemma create_variable_Inv x p s : Inv s -> Inv (create_variable x p s).2.
Proof.
  intros [Hwf Hc]. pose proof (create_variable_extends x p s) as He.
  assert (Hwf' : wf (create_variable x p s).2).
  { destruct Hwf as [Hst Hvar Hord Hrows Hordered]. split.
    - by apply create_variable_store_inv.
    - simpl. rewrite length_app. simpl. lia.
    - intros i v. simpl. intros [Hi|[Hle E]]%lookup_app_Some.
      + by apply Hord.
      + destruct (i - length (_variable_ordering s)) eqn:Ei; [|done].
        injection E as <-. simpl. lia.
    - intros n l h lo E. simpl in E.
      destruct (Hrows n l h lo E) as (? & ? & ? & ? & ?).
      split_and!; try done. simpl. rewrite length_app. lia.
    - done. }
  split; [done|]. by apply (caches_sound_extends s).
Qed.

Lemma returns_Inv {A} (m : M BDD A) s post : returns m s post -> Inv (m s).2.
Proof. intros (r & s' & -> & HI & _). done. Qed.

Lemma returns_run {A} (m : M BDD A) s post r s' :
  returns m s post -> m s = (Ok r, s') -> Inv s' /\ grows s s' /\ post r s'.
Proof. intros (r0 & s0 & E & H) E'. rewrite E in E'. by simplify_eq. Qed.

(** [node_from_variable] returns the node of the function "v". *)
Lemma node_from_variable_spec s l v :
  Inv s -> _variable_ordering s !! l = Some v ->
  returns (node_from_variable v) s (fun r s' =>
    valid s' r /\ forall env, sem s' r env = env l).
Proof.
  intros HI Hv. pose proof HI as [Hwf _]. unfold node_from_variable.
  eapply returns_weaken.
  { apply (make_spec v l 1 0 s); try done.
    - left. lia.
    - left. lia.
    - by rewrite (lvl_terminal s Hwf) by lia.
    - by rewrite (lvl_terminal s Hwf) by lia. }
  intros r s' HI' G [(Hr & _ & _ & _ & _ & Hsem) _]. split; [done|].
  intros env. rewrite Hsem. by destruct (env l).
Qed.

(** [neg] returns the node of the complement. *)
Lemma neg_spec fuel s a :
  Inv s -> valid s a -> rank s a < fuel ->
  returns (neg fuel a) s (fun r s' =>
    valid s' r /\ forall env, sem s' r env = negb (sem s' a env)).
Proof.
  intros HI Ha Hk. pose proof HI as [Hwf _]. unfold neg.
  eapply returns_weaken.
  { apply (ite_spec fuel s a 0 1); try done.
    - left. lia.
    - left. lia.
    - unfold rank3, rank at 2 3. rewrite !(lvl_terminal s Hwf) by lia. lia. }
  intros r s' HI' G (_ & _ & _ & Hr & _ & Hsem). split; [done|].
  intros env. rewrite Hsem. by destruct (sem s' a env).
Qed.

(** The node [build] returns for a formula denotes the formula. *)
Lemma build_spec f fuel s :
  Inv s -> declared (length (_variable_ordering s)) f ->
  length (_variable_ordering s) < fuel ->
  returns (build fuel f) s (fun r s' =>
    valid s' r /\ forall env, sem s' r env = denote f env).
Proof.
  revert s. induction f as [i|[]|f IHf|f IHf g IHg|f IHf g IHg|f IHf g IHg h IHh];
    intros s HI Hd Hk; simpl in *.
  - destruct (variable_at_spec s i (proj1 HI) Hd) as (v & Hrun & Hv & _).
    apply returns_bind_pure with v; [done|]. by apply node_from_variable_spec.
  - apply returns_ret; [done|]. split; [left; unfold get_one_node; lia | done].
  - apply returns_ret; [done|]. split; [left; unfold get_zero_node; lia | done].
  - eapply returns_bind; [by apply IHf|].
    intros a s1 HI1 G1 [Ha Sa]. eapply returns_weaken.
    { apply neg_spec; try done. pose proof (rank_bound s1 a).
      rewrite (proj1 G1) in *. lia. }
    intros r s2 HI2 G2 [Hr Sr]. split; [done|]. intros env.
    rewrite Sr, (extends_sem s1 s2); try done;
      [by rewrite Sa | apply HI1 | apply HI2 | by apply grows_extends].
  - destruct Hd as [Hdf Hdg].
    eapply returns_bind; [by apply IHf|].
    intros a s1 HI1 G1 [Ha Sa].
    eapply returns_bind; [apply IHg; try done; by rewrite (proj1 G1)|].
    intros b s2 HI2 G2 [Hb Sb]. eapply returns_weaken.
    { apply conjunction_spec; try done; [by eapply valid_grows|].
      pose proof (rank_bound s2 a). pose proof (rank_bound s2 b).
      rewrite (proj1 G2), (proj1 G1) in *. lia. }
    intros r s3 HI3 G3 (_ & _ & Hr & _ & Sr). split; [done|]. intros env.
    rewrite Sr. rewrite (extends_sem s2 s3 b);
      [|apply HI2 | apply HI3 | by apply grows_extends | done].
    rewrite (extends_sem s1 s3 a);
      [|apply HI1 | apply HI3 | apply grows_extends; by etrans | done].
    by rewrite Sa, Sb.
  - destruct Hd as [Hdf Hdg].
    eapply returns_bind; [by apply IHf|].
    intros a s1 HI1 G1 [Ha Sa].
    eapply returns_bind; [apply IHg; try done; by rewrite (proj1 G1)|].
    intros b s2 HI2 G2 [Hb Sb]. eapply returns_weaken.
    { apply disjunction_spec; try done; [by eapply valid_grows|].
      pose proof (rank_bound s2 a). pose proof (rank_bound s2 b).
      rewrite (proj1 G2), (proj1 G1) in *. lia. }
    intros r s3 HI3 G3 (_ & _ & Hr & _ & Sr). split; [done|]. intros env.
    rewrite Sr. rewrite (extends_sem s2 s3 b);
      [|apply HI2 | apply HI3 | by apply grows_extends | done].
    rewrite (extends_sem s1 s3 a);
      [|apply HI1 | apply HI3 | apply grows_extends; by etrans | done].
    by rewrite Sa, Sb.
  - destruct Hd as (Hdf & Hdg & Hdh).
    eapply returns_bind; [by apply IHf|].
    intros a s1 HI1 G1 [Ha Sa].
    eapply returns_bind; [apply IHg; try done; by rewrite (proj1 G1)|].
    intros b s2 HI2 G2 [Hb Sb].
    eapply returns_bind;
      [apply IHh; try done; by rewrite (proj1 G2), (proj1 G1)|].
    intros c s3 HI3 G3 [Hc Sc]. eapply returns_weaken.
    { apply ite_spec; try done;
        [eapply valid_grows; [|eapply valid_grows]; done
        |by eapply valid_grows|].
      pose proof (rank_bound s3 a). pose proof (rank_bound s3 b).
      pose proof (rank_bound s3 c). unfold rank3.
      rewrite (proj1 G3), (proj1 G2), (proj1 G1) in *. lia. }
    intros r s4 HI4 G4 (_ & _ & _ & Hr & _ & Sr). split; [done|]. intros env.
    rewrite Sr. rewrite (extends_sem s3 s4 c);
      [|apply HI3 | apply HI4 | by apply grows_extends | done].
    rewrite (extends_sem s2 s4 b);
      [|apply HI2 | apply HI4 | apply grows_extends; by etrans | done].
    rewrite (extends_sem s1 s4 a);
      [|apply HI1 | apply HI4
       |apply grows_extends; etrans; [exact G2|]; by etrans | done].
    by rewrite Sa, Sb, Sc.
Qed.

(** * The claims, and what holds of a manager that satisfies the invariant *)

Lemma Inv_two_variables : Inv two_variables.
Proof. apply create_variable_Inv, create_variable_Inv, Inv_new. Qed.

Lemma Inv_two_nodes : Inv two_nodes.
Proof.
  eapply returns_Inv, build_spec; [apply Inv_two_variables | |]; simpl; lia.
Qed.

(** X25.  Canonicity under the invariant.  In a manager with a well-formed
    store and sound memo tables (the invariant [Inv], which the operators
    keep and a [clear] can break), build a formula [phi] over the declared
    variables with the public operators and then a formula [psi]: both
    builds return, within a recursion depth of the number of variables plus
    one, and the two identifiers are equal if and only if [phi] and [psi]
    denote the same Boolean function. *)
Theorem canonicity s phi psi fuel :
  Inv s ->
  declared (length (_variable_ordering s)) phi ->
  declared (length (_variable_ordering s)) psi ->
  length (_variable_ordering s) < fuel ->
  exists n1 s1 n2 s2,
    build fuel phi s = (Ok n1, s1) /\ build fuel psi s1 = (Ok n2, s2) /\
    (n1 = n2 <-> forall env, denote phi env = denote psi env).
Proof.
  intros HI Hphi Hpsi Hk.
  destruct (build_spec phi fuel s HI Hphi Hk)
    as (n1 & s1 & Hrun1 & HI1 & G1 & Hv1 & Hs1).
  destruct (build_spec psi fuel s1 HI1) as (n2 & s2 & Hrun2 & HI2 & G2 & Hv2 & Hs2);
    [by rewrite (proj1 G1)..|].
  exists n1, s1, n2, s2. split_and!; try done.
  assert (Hs1' : forall env, sem s2 n1 env = denote phi env).
  { intros env. rewrite (extends_sem s1 s2); try done;
      [apply HI1 | apply HI2 | by apply grows_extends]. }
  split.
  - intros -> env. by rewrite <- Hs1', Hs2.
  - intros Heq. apply (sem_injective s2 (proj1 HI2)); try done.
    + by eapply valid_grows.
    + intros env. by rewrite Hs1', Hs2.
Qed.

Lemma canonicity_witness :
  exists n1 s1 n2 s2,
    build 3 (FAnd (FVar 0) (FVar 1)) two_variables = (Ok n1, s1) /\
    build 3 (FNot (FOr (FNot (FVar 1)) (FNot (FVar 0)))) s1 = (Ok n2, s2) /\
    (n1 = n2 <->
     forall env, denote (FAnd (FVar 0) (FVar 1)) env =
                 denote (FNot (FOr (FNot (FVar 1)) (FNot (FVar 0)))) env).
Proof.
  apply (canonicity two_variables (FAnd (FVar 0) (FVar 1))
           (FNot (FOr (FNot (FVar 1)) (FNot (FVar 0)))) 3).
  - apply Inv_two_variables.
  - simpl. lia.
  - simpl. lia.
  - simpl. lia.
Defined.

(** X26.  The base cases of [conjunction] under the invariant.  In a
    manager with a well-formed store and sound memo tables (the invariant
    [Inv], which a [clear] can break), for known identifiers [a] and [b]
    and a recursion depth of the number of variables plus one:
    [and(0, b) = 0], [and(a, 0) = 0], [and(1, b) = b], [and(b, 1) = b] and
    [and(a, a) = a], although the code has a branch of its own for the
    0-node and for two 1-nodes only. *)
Theorem conjunction_base_cases s a b fuel :
  Inv s -> valid s a -> valid s b ->
  length (_variable_ordering s) < fuel ->
  (conjunction fuel 0 b s).1 = Ok 0 /\
  (conjunction fuel a 0 s).1 = Ok 0 /\
  (conjunction fuel 1 b s).1 = Ok b /\
  (conjunction fuel b 1 s).1 = Ok b /\
  (conjunction fuel a a s).1 = Ok a.
Proof.
  intros HI Ha Hb Hk.
  assert (Hconj : forall x y z, valid s x -> valid s y -> valid s z ->
    (forall env, sem s z env = sem s x env && sem s y env) ->
    (conjunction fuel x y s).1 = Ok z).
  { intros x y z Hx Hy Hz Hsem.
    destruct (conjunction_spec fuel s x y HI Hx Hy)
      as (r & s' & Hrun & HI' & G & _ & _ & Hr & _ & Sr).
    { pose proof (rank_bound s x). pose proof (rank_bound s y). lia. }
    rewrite Hrun. simpl. f_equal.
    apply (sem_injective s' (proj1 HI')); try done; [by eapply valid_grows|].
    intros env. rewrite Sr.
    rewrite !(extends_sem s s') by
      (done || apply HI || apply HI' || by apply grows_extends).
    by rewrite Hsem. }
  assert (H0 : valid s 0) by (left; lia). assert (H1 : valid s 1) by (left; lia).
  split_and!; apply Hconj; try done; intros env; cbn [sem interp Nat.eqb].
  - by rewrite andb_false_r.
  - by rewrite andb_true_r.
  - by rewrite andb_diag.
Qed.

Lemma conjunction_base_cases_witness :
  (conjunction 3 0 3 two_nodes).1 = Ok 0 /\
  (conjunction 3 2 0 two_nodes).1 = Ok 0 /\
  (conjunction 3 1 3 two_nodes).1 = Ok 3 /\
  (conjunction 3 3 1 two_nodes).1 = Ok 3 /\
  (conjunction 3 2 2 two_nodes).1 = Ok 2.
Proof.
  apply (conjunction_base_cases two_nodes 2 3 3).
  - apply Inv_two_nodes.
  - right. vm_compute. by eexists.
  - right. vm_compute. by eexists.
  - vm_compute. lia.
Defined.

(** X27.  The operators return under the invariant.  In a manager with a
    well-formed store and sound memo tables (the invariant [Inv], which a
    [clear] can break), a recursion depth of the number of declared
    variables plus one is enough for [ite], [conjunction] and [disjunction]
    on known identifiers, and for [pre_image] when the ordering is
    interleaved and the target set is over unprimed variables: each returns
    a value, no lookup raises.  The last part is the reason: the operands of
    a recursive call are the cofactors of the operands on the minimum level,
    and each lies strictly below that level. *)
Theorem operators_terminate s fuel :
  Inv s -> length (_variable_ordering s) < fuel ->
  (forall a b c, valid s a -> valid s b -> valid s c ->
     exists r, (ite fuel a b c s).1 = Ok r) /\
  (forall a b, valid s a -> valid s b ->
     exists r, (conjunction fuel a b s).1 = Ok r) /\
  (forall a b, valid s a -> valid s b ->
     exists r, (disjunction fuel a b s).1 = Ok r) /\
  (forall a b, interleaved s -> valid s a -> valid s b -> over_unprimed s b ->
     exists r, (pre_image fuel a b s).1 = Ok r) /\
  (forall n l, valid s n -> level_le (Finite l) (lvl s n) ->
     exists h lo, cofactors_of s n l = Some (h, lo) /\
       level_lt (Finite l) (lvl s h) /\ level_lt (Finite l) (lvl s lo)).
Proof.
  intros HI Hk. split_and!.
  - intros a b c Ha Hb Hc.
    destruct (ite_spec fuel s a b c HI Ha Hb Hc) as (r & s' & -> & _); [|by exists r].
    pose proof (rank_bound s a). pose proof (rank_bound s b).
    pose proof (rank_bound s c). unfold rank3. lia.
  - intros a b Ha Hb.
    destruct (conjunction_spec fuel s a b HI Ha Hb) as (r & s' & -> & _);
      [|by exists r].
    pose proof (rank_bound s a). pose proof (rank_bound s b). lia.
  - intros a b Ha Hb.
    destruct (disjunction_spec fuel s a b HI Ha Hb) as (r & s' & -> & _);
      [|by exists r].
    pose proof (rank_bound s a). pose proof (rank_bound s b). lia.
  - intros a b Hint Ha Hb Hu.
    destruct (pre_image_spec fuel s a b HI Hint Ha Hb Hu) as (r & s' & -> & _);
      [|by exists r].
    pose proof (rank_bound s a). pose proof (rank_bound s b). lia.
  - intros n l Hn Hl.
    destruct (cofactors_of_splits s n l (proj1 HI) Hn Hl)
      as (h & lo & Hc & (_ & _ & _ & Lh & Llo & _) & _).
    by exists h, lo.
Qed.

Lemma operators_terminate_witness :
  (forall a b c, valid two_nodes a -> valid two_nodes b -> valid two_nodes c ->
     exists r, (ite 3 a b c two_nodes).1 = Ok r) /\
  (forall a b, valid two_nodes a -> valid two_nodes b ->
     exists r, (conjunction 3 a b two_nodes).1 = Ok r) /\
  (forall a b, valid two_nodes a -> valid two_nodes b ->
     exists r, (disjunction 3 a b two_nodes).1 = Ok r) /\
  (forall a b, interleaved two_nodes -> valid two_nodes a ->
     valid two_nodes b -> over_unprimed two_nodes b ->
     exists r, (pre_image 3 a b two_nodes).1 = Ok r) /\
  (forall n l, valid two_nodes n -> level_le (Finite l) (lvl two_nodes n) ->
     exists h lo, cofactors_of two_nodes n l = Some (h, lo) /\
       level_lt (Finite l) (lvl two_nodes h) /\
       level_lt (Finite l) (lvl two_nodes lo)).
Proof.
  apply (operators_terminate two_nodes 3).
  - apply Inv_two_nodes.
  - vm_compute. lia.
Defined.



(** C8 (store invariants).  Every manager a client can get to from [BDD()]
    by calls of the public methods, with any arguments and whether the
    calls return or raise, satisfies I1 (no stored node has equal children)
    and I2 (no two stored identifiers share a row), and its two tables are
    inverse to each other. *)
Theorem reachable_I1_I2 s :
  reachable s -> I1 s /\ I2 s /\ mutually_inverse s.
Proof.
  intros Hs. pose proof (reachable_store_inv s Hs) as Hst.
  split_and!; [apply Hst | by apply store_inv_I2 | apply Hst].
Qed.

Lemma reachable_after_clear : reachable after_clear.
Proof. repeat apply reachable_call. apply reachable_new. Qed.

Lemma reachable_I1_I2_witness :
  I1 after_clear /\ I2 after_clear /\ mutually_inverse after_clear.
Proof. apply (reachable_I1_I2 after_clear). apply reachable_after_clear. Defined.

(** ** C10: identifiers are never reused *)

(** C10.  Take a manager [s1] a client can get to, an identifier [id1]
    stored in it, any further calls (among them [clear]) that lead to [s2],
    and one more call that stores a node under an identifier [id2] not
    stored in [s2].  Then [2 <= id1 < id2]: the counter, which starts at 2,
    never went down ([_node_id s1 <= _node_id s2 <= id2]), no [clear] resets
    it, and when the call is [make] the fresh identifier is the value
    [make] returns. *)
Theorem node_ids_never_reused s1 s2 c id1 id2 :
  reachable s1 -> steps s1 s2 ->
  is_Some (_node_to_row s1 !! id1) ->
  _node_to_row s2 !! id2 = None ->
  is_Some (_node_to_row (after c s2) !! id2) ->
  _node_id new = 2 /\
  2 <= id1 /\ id1 < id2 /\
  id1 < _node_id s1 /\ _node_id s1 <= _node_id s2 /\ _node_id s2 <= id2 /\
  id2 < _node_id (after c s2) /\
  (forall fuel nodes, _node_id (after (Clear fuel nodes) s2) = _node_id s2) /\
  (forall v n1 n0, c = Make v n1 n0 -> (make v n1 n0 s2).1 = Ok id2).
Proof.
  intros Hr1 Hsteps [r1 E1] E2 [r2 E2'].
  pose proof (reachable_store_inv s1 Hr1) as Hst1.
  assert (Hr2 : reachable s2).
  { clear E2 E2'. induction Hsteps as [|c' s1 s2 _ IH]; [done|].
    apply reachable_call. by apply IH. }
  pose proof (reachable_store_inv _ (reachable_call c s2 Hr2)) as Hst3.
  pose proof (si_ids _ Hst1 _ _ E1) as Hid1.
  pose proof (si_ids _ Hst3 _ _ E2') as Hid2.
  pose proof (steps_allocates_above s1 s2 Hsteps) as [Hle _].
  pose proof (after_allocates_above c s2) as [_ Hnew].
  specialize (Hnew id2 ltac:(by rewrite E2') E2).
  split_and!; try done; try lia.
  - intros fuel nodes. apply clear_node_id.
  - intros v n1 n0 ->. simpl in E2'. revert E2'. rewrite make_eq.
    destruct (n1 =? n0); [simpl; congruence|].
    destruct (_row_to_node s2 !! _); [simpl; congruence|]. simpl.
    destruct (decide (_node_id s2 = id2)) as [<-|Hne]; [done|].
    rewrite lookup_insert_ne by done. congruence.
Qed.

Lemma node_ids_never_reused_witness :
  _node_id new = 2 /\
  2 <= 4 /\ 4 < 5 /\
  4 < _node_id before_clear /\ _node_id before_clear <= _node_id stale /\
  _node_id stale <= 5 /\
  5 < _node_id (after (Disjunction 3 2 3) stale) /\
  (forall fuel nodes, _node_id (after (Clear fuel nodes) stale) = _node_id stale) /\
  (forall v n1 n0, Disjunction 3 2 3 = Make v n1 n0 ->
     (make v n1 n0 stale).1 = Ok 5).
Proof.
  apply (node_ids_never_reused before_clear stale (Disjunction 3 2 3) 4 5).
  - repeat apply reachable_call. apply reachable_new.
  - apply steps_call, steps_refl.
  - vm_compute. by eexists.
  - by vm_compute.
  - vm_compute. by eexists.
Defined.

(** ** C2: the caches across [clear] *)

(** C2 fails on the code: [clear] leaves the five caches as they are.  After
    [x0 = create_variable_node("x0")], [x1 = create_variable_node("x1")],
    [conjunction(x0, x1)] (node 4) and [clear([x0, x1])], node 4 is no
    longer stored, the cache of [conjunction] still maps [(2, 3)] to 4,
    [conjunction(x0, x1)] answers 4 from the cache where a recomputation
    from scratch allocates node 5, and the answer cannot be used:
    [neg] of it raises [KeyError].  The same happens with [ite]. *)
Theorem clear_leaves_stale_cache_entries :
  _node_to_row before_clear !! 4 = Some (0, 3, 0) /\
  _node_to_row stale !! 4 = None /\
  lru_find (2, 3) (conjunction_cache stale) = Some 4 /\
  conjunction_cache stale = conjunction_cache before_clear /\
  (conjunction 3 2 3 stale).1 = Ok 4 /\
  (conjunction 3 2 3 (cache_clear stale)).1 = Ok 5 /\
  ((w <- conjunction 3 2 3 ;; neg 3 w) stale).1 = Raise KeyError /\
  let before := after (Ite 3 2 3 0) (after (CreateVariableNode "x1" false)
                  (after (CreateVariableNode "x0" false) new)) in
  let s := after (Clear 10 [2; 3]) before in
  (ite 3 2 3 0 before).1 = Ok 4 /\
  _node_to_row s !! 4 = None /\
  (ite 3 2 3 0 s).1 = Ok 4 /\
  (ite 3 2 3 0 (cache_clear s)).1 = Ok 5.
Proof. by vm_compute. Qed.

(** ** C1 and C7: the operators after a [clear] *)

(** C1 fails on the code once a [clear] has run, by the defect of C2.  In
    [stale] (two [create_variable_node], [conjunction(x0, x1)] = 4, then
    [clear([x0, x1])]) node 4 is gone and the cache of [conjunction] still
    maps [(2, 3)] to it.  Built with the public operators, [x0 /\ x1] gets
    the identifier 4 from that cache, a node that is not stored, and the
    equivalent [~(~x1 \/ ~x0)], built next (or built first), gets 8: one
    Boolean function, two identifiers. *)
Theorem canonicity_fails_after_clear :
  let phi := FAnd (FVar 0) (FVar 1) in
  let psi := FNot (FOr (FNot (FVar 1)) (FNot (FVar 0))) in
  reachable stale /\
  length (_variable_ordering stale) = 2 /\
  declared 2 phi /\ declared 2 psi /\
  (forall env, denote phi env = denote psi env) /\
  lru_find (2, 3) (conjunction_cache stale) = Some 4 /\
  (build 3 phi stale).1 = Ok 4 /\
  _node_to_row (build 3 phi stale).2 !! 4 = None /\
  (build 3 psi (build 3 phi stale).2).1 = Ok 8 /\
  (build 3 psi stale).1 = Ok 8 /\
  4 <> 8.
Proof.
  split_and!; try by vm_compute.
  - repeat apply reachable_call. apply reachable_new.
  - simpl. lia.
  - simpl. lia.
  - intros env. simpl. by destruct (env 0), (env 1).
Qed.

(** C7 fails on the code once a [clear] has run, by the defect of C2.  In
    [dangling] the identifier 7 is stored, and [and(7, 7)], [and(1, 7)] and
    [and(7, 1)], which the claim has equal to 7, raise [KeyError]: they have
    no branch of their own, the recursion reaches the child 5 of node 7, and
    node 5 was removed by [clear].  Only [and(0, b)] and [and(a, 0)], which
    the code answers before any lookup, are as the claim says. *)
Theorem conjunction_base_cases_fail_after_clear :
  reachable dangling /\
  length (_variable_ordering dangling) = 3 /\
  _node_to_row dangling !! 7 = Some (0, 5, 0) /\
  _node_to_row dangling !! 5 = None /\
  lru_find (3, 4) (conjunction_cache dangling) = Some 5 /\
  (conjunction 4 7 7 dangling).1 = Raise KeyError /\
  (conjunction 4 1 7 dangling).1 = Raise KeyError /\
  (conjunction 4 7 1 dangling).1 = Raise KeyError /\
  (conjunction 4 0 7 dangling).1 = Ok 0 /\
  (conjunction 4 7 0 dangling).1 = Ok 0.
Proof.
  split_and!; try by vm_compute.
  repeat apply reachable_call. apply reachable_new.
Qed.

(** ** C5 and C6: the older copy of the manager *)

(** C5 fails on [src/pydd/bdd/bdd.py]: its [disjunction] returns the 1-node
    on two 0-nodes, in every manager whose cache does not hold the key yet
    (a fresh one among them); [src/pydd/bdd.py] returns the 0-node. *)
Theorem disjunction_zero_zero :
  (forall fuel s,
     lru_find (0, 0) (PyddBdd.disjunction_cache s) = None ->
     (PyddBdd.disjunction (S fuel) 0 0 s).1 = Ok 1) /\
  (PyddBdd.disjunction 1 0 0 PyddBdd.new).1 = Ok 1 /\
  (forall fuel s,
     lru_find (0, 0) (disjunction_cache s) = None ->
     (disjunction (S fuel) 0 0 s).1 = Ok 0).
Proof.
  split_and!.
  - intros fuel s Hf. simpl. unfold lru_cache. by rewrite Hf.
  - done.
  - intros fuel s Hf. simpl. unfold lru_cache. by rewrite Hf.
Qed.

(** C6 fails on [src/pydd/bdd/bdd.py]: its [neg] is [ite(a, 1, 0)], so it
    returns its argument on the terminals, in every manager whose cache does
    not hold the key yet, and on the node of a variable; [src/pydd/bdd.py]
    has [ite(a, 0, 1)] and exchanges the terminals. *)
Theorem neg_is_identity_in_older_copy :
  (forall fuel a, PyddBdd.neg fuel a =
                  PyddBdd.ite fuel a PyddBdd.get_one_node PyddBdd.get_zero_node) /\
  (forall fuel s a, a < 2 ->
     lru_find (a, 1, 0) (PyddBdd.ite_cache s) = None ->
     (PyddBdd.neg (S fuel) a s).1 = Ok a) /\
  (PyddBdd.neg 1 1 PyddBdd.new).1 = Ok 1 /\
  (PyddBdd.neg 1 0 PyddBdd.new).1 = Ok 0 /\
  ((x <- PyddBdd.create_variable_node "x" ;; PyddBdd.neg 2 x) PyddBdd.new).1
    = Ok 2 /\
  (forall fuel a, neg fuel a = ite fuel a get_zero_node get_one_node) /\
  (neg 1 1 new).1 = Ok 0 /\ (neg 1 0 new).1 = Ok 1.
Proof.
  split_and!; try done.
  intros fuel s a Ha Hf. unfold PyddBdd.neg. simpl. unfold lru_cache.
  unfold PyddBdd.get_one_node, PyddBdd.get_zero_node. rewrite Hf.
  by destruct a as [|[|?]]; [| |lia].
Qed.

(** ** C3: [pre_image] *)

Lemma run_result {A S : Type} (p : A * S) (a : A) : p.1 = a -> p = (a, p.2).
Proof. destruct p as [x s]. simpl. by intros ->. Qed.

(** C3 as the spec states it fails on the seed system: the script of
    [src/examples/transition_system.py] gets, for [S = x0 and not x1]
    (state 10), the node of [not x0 and x1] (state 01, the source of the
    transition 01 -> 10), which is not the node of [not x0 and not x1]
    (state 00, whose only transition goes to 01). *)
Lemma seed_pre_image_is_not_x00 :
  exists delta x00 x01 x10 x11 pre s,
    transition_system 5 new = (Ok (delta, (x00, x01, x10, x11), pre), s) /\
    (forall env, sem s x00 env = negb (env 0) && negb (env 2)) /\
    pre <> x00.
Proof.
  exists 33, 8, 9, 10, 11, 9, (transition_system 5 new).2. split_and!.
  - apply run_result. by vm_compute.
  - assert (E8 : _node_to_row (transition_system 5 new).2 !! 8 = Some (0, 0, 7))
      by (by vm_compute).
    assert (E7 : _node_to_row (transition_system 5 new).2 !! 7 = Some (2, 0, 1))
      by (by vm_compute).
    generalize dependent ((transition_system 5 new).2). intros s E8 E7 env.
    unfold sem. cbn [interp Nat.eqb]. rewrite E8. cbn [interp Nat.eqb].
    rewrite E7. by destruct (env 0), (env 2).
  - done.
Qed.

(** C3, amended.  In a manager that satisfies the invariant and whose
    ordering is interleaved, for a known node [T] and a known node [S] over
    unprimed variables, [pre_image] returns, within a recursion depth of the
    number of variables plus one, a node that denotes
    [{x | exists x'. T(x, x') and S(x')}].  For the seed system the script
    gets the node of [not x0 and x1]: state 01 is the one state with a
    transition to [S = x0 and not x1]. *)
Theorem pre_image_correct :
  (forall s T S fuel,
     Inv s -> interleaved s -> valid s T -> valid s S -> over_unprimed s S ->
     length (_variable_ordering s) < fuel ->
     exists r s',
       pre_image fuel T S s = (Ok r, s') /\ Inv s' /\ grows s s' /\
       valid s' r /\ denotes_pre_image s' T S r) /\
  (exists delta x00 x01 x10 x11 pre s,
     transition_system 5 new = (Ok (delta, (x00, x01, x10, x11), pre), s) /\
     (forall env, sem s x10 env = env 0 && negb (env 2)) /\
     (forall env, sem s x01 env = negb (env 0) && env 2) /\
     pre = x01).
Proof.
  split.
  - intros s T S fuel HI Hint HT HS Hu Hk.
    destruct (pre_image_spec fuel s T S HI Hint HT HS Hu)
      as (r & s' & Hrun & HI' & G & (_ & _ & Hr & _ & _ & Hd)).
    { pose proof (rank_bound s T). pose proof (rank_bound s S). lia. }
    by exists r, s'.
  - exists 33, 8, 9, 10, 11, 9, (transition_system 5 new).2.
    split; [apply run_result; by vm_compute|].
    assert (E10 : _node_to_row (transition_system 5 new).2 !! 10 = Some (0, 7, 0))
      by (by vm_compute).
    assert (E9 : _node_to_row (transition_system 5 new).2 !! 9 = Some (0, 0, 4))
      by (by vm_compute).
    assert (E7 : _node_to_row (transition_system 5 new).2 !! 7 = Some (2, 0, 1))
      by (by vm_compute).
    assert (E4 : _node_to_row (transition_system 5 new).2 !! 4 = Some (2, 1, 0))
      by (by vm_compute).
    generalize dependent ((transition_system 5 new).2). intros s E10 E9 E7 E4.
    split_and!; [| |done]; intros env; unfold sem; cbn [interp Nat.eqb];
      rewrite ?E10, ?E9; cbn [interp Nat.eqb]; rewrite ?E7, ?E4;
      by destruct (env 0), (env 2).
Qed.

Lemma Inv_seed_system : Inv seed_system.
Proof.
  eapply returns_Inv, build_spec.
  - repeat apply create_variable_Inv. apply Inv_new.
  - simpl. lia.
  - simpl. lia.
Qed.

Lemma interleaved_seed_system : interleaved seed_system.
Proof.
  split; [by vm_compute|]. intros l v.
  replace (_variable_ordering seed_system) with
    [mkVar "x0" 0 false; mkVar "x0" 1 true; mkVar "x1" 2 false; mkVar "x1" 3 true]
    by (by vm_compute).
  destruct l as [|[|[|[|l]]]]; simpl; intros [= <-]; done.
Qed.

Lemma pre_image_correct_witness :
  exists r s',
    pre_image 5 32 22 seed_system = (Ok r, s') /\ Inv s' /\
    grows seed_system s' /\ valid s' r /\ denotes_pre_image s' 32 22 r.
Proof.
  apply (proj1 pre_image_correct seed_system 32 22 5).
  - apply Inv_seed_system.
  - apply interleaved_seed_system.
  - right. vm_compute. by eexists.
  - right. vm_compute. by eexists.
  - eapply (ou_node _ 22 0 5 0); [by vm_compute | by vm_compute | done | |].
    + eapply (ou_node _ 5 2 0 1); [by vm_compute | by vm_compute | done | |];
        apply ou_terminal; lia.
    + apply ou_terminal; lia.
  - vm_compute. lia.
Defined.

(** * Further properties of [src/pydd/bdd.py] *)

(** ** The operators as Boolean functions *)

Lemma sem_grows s s' n env :
  Inv s -> Inv s' -> grows s s' -> valid s n -> sem s' n env = sem s n env.
Proof.
  intros [Hwf _] [Hwf' _] G Hn. apply extends_sem; try done.
  by apply grows_extends.
Qed.

Lemma fuel_rank s n fuel :
  length (_variable_ordering s) < fuel -> rank s n < fuel.
Proof. pose proof (rank_bound s n). lia. Qed.

Lemma valid_two_nodes n : 2 <= n <= 4 -> valid two_nodes n.
Proof.
  intros Hn. right.
  assert (n = 2 \/ n = 3 \/ n = 4) as [->|[->| ->]] by lia;
    vm_compute; by eexists.
Qed.

Lemma ite_run s a b c fuel :
  Inv s -> valid s a -> valid s b -> valid s c ->
  length (_variable_ordering s) < fuel ->
  exists r s',
    ite fuel a b c s = (Ok r, s') /\ Inv s' /\ grows s s' /\ valid s' r /\
    forall env, sem s' r env = if sem s a env then sem s b env else sem s c env.
Proof.
  intros HI Ha Hb Hc Hk.
  destruct (ite_spec fuel s a b c HI Ha Hb Hc)
    as (r & s' & Hrun & HI' & G & (_ & _ & _ & Hr & _ & Hs)).
  { unfold rank3. pose proof (fuel_rank s a fuel Hk).
    pose proof (fuel_rank s b fuel Hk). pose proof (fuel_rank s c fuel Hk). lia. }
  exists r, s'. split_and!; try done.
  intros env. by rewrite Hs, !(sem_grows s s').
Qed.

(** X1.  [ite(a, b, c)] on known nodes returns a known node that denotes
    "if [a] then [b] else [c]"; the call keeps the variable ordering and
    every stored row, and the manager still satisfies the invariant. *)
Theorem ite_denotes s a b c fuel :
  Inv s -> valid s a -> valid s b -> valid s c ->
  length (_variable_ordering s) < fuel ->
  exists r s',
    ite fuel a b c s = (Ok r, s') /\ Inv s' /\ grows s s' /\ valid s' r /\
    forall env, sem s' r env = if sem s a env then sem s b env else sem s c env.
Proof.
  intros HI Ha Hb Hc Hk.
  destruct (ite_spec fuel s a b c HI Ha Hb Hc)
    as (r & s' & Hrun & HI' & G & (_ & _ & _ & Hr & _ & Hs)).
  { unfold rank3. pose proof (fuel_rank s a fuel Hk).
    pose proof (fuel_rank s b fuel Hk). pose proof (fuel_rank s c fuel Hk). lia. }
  exists r, s'. split_and!; try done.
  intros env. by rewrite Hs, !(sem_grows s s').
Qed.

Lemma ite_denotes_witness :
  exists r s',
    ite 3 2 3 0 two_nodes = (Ok r, s') /\ Inv s' /\ grows two_nodes s' /\
    valid s' r /\
    forall env, sem s' r env =
      if sem two_nodes 2 env then sem two_nodes 3 env else sem two_nodes 0 env.
Proof.
  apply (ite_denotes two_nodes 2 3 0 3).
  - apply Inv_two_nodes.
  - apply valid_two_nodes. lia.
  - apply valid_two_nodes. lia.
  - left. lia.
  - vm_compute. lia.
Defined.

Lemma conjunction_run s a b fuel :
  Inv s -> valid s a -> valid s b ->
  length (_variable_ordering s) < fuel ->
  exists r s',
    conjunction fuel a b s = (Ok r, s') /\ Inv s' /\ grows s s' /\
    valid s' r /\
    forall env, sem s' r env = sem s a env && sem s b env.
Proof.
  intros HI Ha Hb Hk.
  destruct (conjunction_spec fuel s a b HI Ha Hb)
    as (r & s' & Hrun & HI' & G & (_ & _ & Hr & _ & Hs)).
  { pose proof (fuel_rank s a fuel Hk). pose proof (fuel_rank s b fuel Hk). lia. }
  exists r, s'. split_and!; try done.
  intros env. by rewrite Hs, !(sem_grows s s').
Qed.

(** X2.  [conjunction(a, b)] on known nodes returns a known node that
    denotes the conjunction of the two functions, keeps the ordering and
    every stored row, and keeps the invariant. *)
Theorem conjunction_denotes s a b fuel :
  Inv s -> valid s a -> valid s b ->
  length (_variable_ordering s) < fuel ->
  exists r s',
    conjunction fuel a b s = (Ok r, s') /\ Inv s' /\ grows s s' /\
    valid s' r /\
    forall env, sem s' r env = sem s a env && sem s b env.
Proof.
  intros HI Ha Hb Hk.
  destruct (conjunction_spec fuel s a b HI Ha Hb)
    as (r & s' & Hrun & HI' & G & (_ & _ & Hr & _ & Hs)).
  { pose proof (fuel_rank s a fuel Hk). pose proof (fuel_rank s b fuel Hk). lia. }
  exists r, s'. split_and!; try done.
  intros env. by rewrite Hs, !(sem_grows s s').
Qed.

Lemma conjunction_denotes_witness :
  exists r s',
    conjunction 3 3 2 two_nodes = (Ok r, s') /\ Inv s' /\
    grows two_nodes s' /\ valid s' r /\
    forall env, sem s' r env = sem two_nodes 3 env && sem two_nodes 2 env.
Proof.
  apply (conjunction_denotes two_nodes 3 2 3).
  - apply Inv_two_nodes.
  - apply valid_two_nodes. lia.
  - apply valid_two_nodes. lia.
  - vm_compute. lia.
Defined.

Lemma disjunction_run s a b fuel :
  Inv s -> valid s a -> valid s b ->
  length (_variable_ordering s) < fuel ->
  exists r s',
    disjunction fuel a b s = (Ok r, s') /\ Inv s' /\ grows s s' /\
    valid s' r /\
    forall env, sem s' r env = sem s a env || sem s b env.
Proof.
  intros HI Ha Hb Hk.
  destruct (disjunction_spec fuel s a b HI Ha Hb)
    as (r & s' & Hrun & HI' & G & (_ & _ & Hr & _ & Hs)).
  { pose proof (fuel_rank s a fuel Hk). pose proof (fuel_rank s b fuel Hk). lia. }
  exists r, s'. split_and!; try done.
  intros env. by rewrite Hs, !(sem_grows s s').
Qed.

(** X3.  [disjunction(a, b)] on known nodes returns a known node that
    denotes the disjunction of the two functions, keeps the ordering and
    every stored row, and keeps the invariant. *)
Theorem disjunction_denotes s a b fuel :
  Inv s -> valid s a -> valid s b ->
  length (_variable_ordering s) < fuel ->
  exists r s',
    disjunction fuel a b s = (Ok r, s') /\ Inv s' /\ grows s s' /\
    valid s' r /\
    forall env, sem s' r env = sem s a env || sem s b env.
Proof.
  intros HI Ha Hb Hk.
  destruct (disjunction_spec fuel s a b HI Ha Hb)
    as (r & s' & Hrun & HI' & G & (_ & _ & Hr & _ & Hs)).
  { pose proof (fuel_rank s a fuel Hk). pose proof (fuel_rank s b fuel Hk). lia. }
  exists r, s'. split_and!; try done.
  intros env. by rewrite Hs, !(sem_grows s s').
Qed.

Lemma disjunction_denotes_witness :
  exists r s',
    disjunction 3 2 3 two_nodes = (Ok r, s') /\ Inv s' /\
    grows two_nodes s' /\ valid s' r /\
    forall env, sem s' r env = sem two_nodes 2 env || sem two_nodes 3 env.
Proof.
  apply (disjunction_denotes two_nodes 2 3 3).
  - apply Inv_two_nodes.
  - apply valid_two_nodes. lia.
  - apply valid_two_nodes. lia.
  - vm_compute. lia.
Defined.

(** X4.  In a manager with a well-formed store and sound memo tables (the
    invariant [Inv], which the operators keep and a [clear] can break),
    [neg(a)] on a known node returns a node that denotes the complement of
    [a], and negating the result gives back the identifier [a] itself. *)
Theorem neg_involutive s a fuel :
  Inv s -> valid s a -> length (_variable_ordering s) < fuel ->
  exists r s1 s2,
    neg fuel a s = (Ok r, s1) /\
    (forall env, sem s1 r env = negb (sem s a env)) /\
    neg fuel r s1 = (Ok a, s2) /\ Inv s2 /\ grows s s2.
Proof.
  intros HI Ha Hk.
  destruct (neg_spec fuel s a HI Ha (fuel_rank s a fuel Hk))
    as (r & s1 & Hrun1 & HI1 & G1 & Hr & Hs1).
  assert (Hk1 : length (_variable_ordering s1) < fuel) by by rewrite (proj1 G1).
  destruct (neg_spec fuel s1 r HI1 Hr (fuel_rank s1 r fuel Hk1))
    as (r2 & s2 & Hrun2 & HI2 & G2 & Hr2 & Hs2).
  assert (r2 = a) as ->.
  { apply (sem_injective s2 (proj1 HI2)); [done| |].
    - apply (valid_grows s s2); [by etrans | done].
    - intros env. rewrite Hs2, (sem_grows s1 s2), Hs1 by done.
      rewrite negb_involutive. symmetry. apply sem_grows; try done.
      by eapply valid_grows. }
  exists r, s1, s2. split_and!; try done.
  - intros env. by rewrite Hs1, (sem_grows s s1).
  - by etrans.
Qed.

Lemma neg_involutive_witness :
  exists r s1 s2,
    neg 3 4 two_nodes = (Ok r, s1) /\
    (forall env, sem s1 r env = negb (sem two_nodes 4 env)) /\
    neg 3 r s1 = (Ok 4, s2) /\ Inv s2 /\ grows two_nodes s2.
Proof.
  apply (neg_involutive two_nodes 4 3).
  - apply Inv_two_nodes.
  - apply valid_two_nodes. lia.
  - vm_compute. lia.
Defined.

(** X5.  [conjunction] and [disjunction] agree with [ite] on identifiers:
    in a manager with a well-formed store and sound memo tables (the
    invariant [Inv], which a [clear] can break), on known nodes,
    [ite(a, b, 0)] returns the identifier that [conjunction(a, b)] returned,
    and [ite(a, 1, b)] the one that [disjunction(a, b)] returned. *)
Theorem conjunction_disjunction_as_ite s a b fuel :
  Inv s -> valid s a -> valid s b ->
  length (_variable_ordering s) < fuel ->
  exists r1 s1 s2 r2 s3 s4,
    conjunction fuel a b s = (Ok r1, s1) /\
    ite fuel a b get_zero_node s1 = (Ok r1, s2) /\
    disjunction fuel a b s2 = (Ok r2, s3) /\
    ite fuel a get_one_node b s3 = (Ok r2, s4).
Proof.
  intros HI Ha Hb Hk.
  destruct (conjunction_run s a b fuel HI Ha Hb Hk)
    as (r1 & s1 & Hrun1 & HI1 & G1 & Hr1 & Hs1).
  assert (Hk1 : length (_variable_ordering s1) < fuel) by by rewrite (proj1 G1).
  destruct (ite_run s1 a b 0 fuel HI1)
    as (r1' & s2 & Hrun2 & HI2 & G2 & Hr1' & Hs2);
    [by eapply valid_grows | by eapply valid_grows | left; lia | done |].
  assert (r1' = r1) as ->.
  { apply (sem_injective s2 (proj1 HI2)); [done | by eapply valid_grows |].
    intros env. rewrite Hs2, (sem_grows s1 s2 r1), Hs1 by done.
    rewrite !(sem_grows s s1) by done.
    by destruct (sem s a env), (sem s b env). }
  assert (G02 : grows s s2) by by etrans.
  assert (Hk2 : length (_variable_ordering s2) < fuel) by by rewrite (proj1 G02).
  destruct (disjunction_run s2 a b fuel HI2)
    as (r2 & s3 & Hrun3 & HI3 & G3 & Hr2 & Hs3);
    [by eapply valid_grows | by eapply valid_grows | done |].
  assert (Hk3 : length (_variable_ordering s3) < fuel) by by rewrite (proj1 G3).
  assert (G03 : grows s s3) by by etrans.
  destruct (ite_run s3 a 1 b fuel HI3)
    as (r2' & s4 & Hrun4 & HI4 & G4 & Hr2' & Hs4);
    [by eapply valid_grows | left; lia | by eapply valid_grows | done |].
  assert (r2' = r2) as ->.
  { apply (sem_injective s4 (proj1 HI4)); [done | by eapply valid_grows |].
    assert (Ha3 : valid s3 a) by by eapply valid_grows.
    assert (Hb3 : valid s3 b) by by eapply valid_grows.
    assert (Ha2 : valid s2 a) by by eapply valid_grows.
    assert (Hb2 : valid s2 b) by by eapply valid_grows.
    intros env. rewrite Hs4, (sem_grows s3 s4 r2), Hs3 by done.
    rewrite (sem_grows s2 s3 a), (sem_grows s2 s3 b) by done.
    by destruct (sem s2 a env), (sem s2 b env). }
  by exists r1, s1, s2, r2, s3, s4.
Qed.

Lemma conjunction_disjunction_as_ite_witness :
  exists r1 s1 s2 r2 s3 s4,
    conjunction 3 2 3 two_nodes = (Ok r1, s1) /\
    ite 3 2 3 get_zero_node s1 = (Ok r1, s2) /\
    disjunction 3 2 3 s2 = (Ok r2, s3) /\
    ite 3 2 get_one_node 3 s3 = (Ok r2, s4).
Proof.
  apply (conjunction_disjunction_as_ite two_nodes 2 3 3).
  - apply Inv_two_nodes.
  - apply valid_two_nodes. lia.
  - apply valid_two_nodes. lia.
  - vm_compute. lia.
Defined.

(** ** The unique table, cofactors and variables *)

Lemma make_again s v n1 n0 r s' :
  store_inv s -> n1 <> n0 ->
  make v n1 n0 s = (Ok r, s') -> make v n1 n0 s' = (Ok r, s').
Proof.
  intros Hs Hne. rewrite !make_eq. apply Nat.eqb_neq in Hne as ->.
  destruct (_row_to_node s !! (var_id v, n1, n0)) as [n|] eqn:E.
  - intros [= <- <-]. by rewrite E.
  - intros [= <- <-]. simpl. by rewrite lookup_insert_eq.
Qed.

(** X6.  Hash-consing in [make].  Whatever the store holds, for two
    different children [make] returns an identifier of a decision node whose
    row is [(v.var_id, n1, n0)]: [get_succs] of the result gives back the
    two children, a second [make] with the same arguments returns the same
    identifier and changes nothing, and no row stored before is lost. *)
Theorem make_hash_consing s v n1 n0 :
  store_inv s -> n1 <> n0 ->
  exists r s',
    make v n1 n0 s = (Ok r, s') /\ store_inv s' /\ 2 <= r /\
    _node_to_row s' !! r = Some (var_id v, n1, n0) /\
    get_succs r s' = (Ok (n1, n0), s') /\
    make v n1 n0 s' = (Ok r, s') /\
    _node_to_row s ⊆ _node_to_row s'.
Proof.
  intros Hs Hne. pose proof (make_store_inv v n1 n0 s Hs) as Hs'.
  assert (Hget : forall r s', _node_to_row s' !! r = Some (var_id v, n1, n0) ->
                 get_succs r s' = (Ok (n1, n0), s')).
  { intros r s' E. unfold get_succs, bind, gets, subscript, ret. by rewrite E. }
  assert (Hagain : forall r s', _row_to_node s' !! (var_id v, n1, n0) = Some r ->
                   make v n1 n0 s' = (Ok r, s')).
  { intros r s' E. rewrite make_eq, E. by apply Nat.eqb_neq in Hne as ->. }
  rewrite make_eq in Hs' |- *. apply Nat.eqb_neq in Hne as Hne'. rewrite Hne' in *.
  destruct (_row_to_node s !! (var_id v, n1, n0)) as [n|] eqn:E.
  - apply (si_inverse _ Hs) in E as E'. pose proof (si_ids _ Hs _ _ E').
    exists n, s. split_and!; auto. lia.
  - assert (Hnew : _node_to_row s !! _node_id s = None).
    { destruct (_node_to_row s !! _node_id s) as [r|] eqn:E'; [|done].
      apply (si_ids _ Hs) in E'. lia. }
    simpl in Hs'. exists (_node_id s), (allocated (var_id v) n1 n0 s).
    assert (Hrow : _node_to_row (allocated (var_id v) n1 n0 s) !! _node_id s
                   = Some (var_id v, n1, n0)) by (simpl; apply lookup_insert_eq).
    split_and!; auto.
    + apply Hs.
    + apply Hagain. simpl. apply lookup_insert_eq.
    + simpl. by apply insert_subseteq.
Qed.

Lemma make_hash_consing_witness :
  exists r s',
    make (mkVar "x1" 1 false) 2 0 two_nodes = (Ok r, s') /\ store_inv s' /\
    2 <= r /\
    _node_to_row s' !! r = Some (1, 2, 0) /\
    get_succs r s' = (Ok (2, 0), s') /\
    make (mkVar "x1" 1 false) 2 0 s' = (Ok r, s') /\
    _node_to_row two_nodes ⊆ _node_to_row s'.
Proof.
  apply (make_hash_consing two_nodes (mkVar "x1" 1 false) 2 0).
  - apply Inv_two_nodes.
  - lia.
Defined.

(** X7.  Shannon expansion by [get_cofactors].  In a manager with a
    well-formed store and sound memo tables (the invariant [Inv], which a
    [clear] can break), for a known node [n] and a declared variable [v]
    that is not below the variable of [n] in the ordering,
    [get_cofactors(n, v)] returns two known nodes that lie strictly below
    [v] and are the restrictions of [n] to [v = 1] and [v = 0]; the call
    changes nothing but its own cache. *)
Theorem get_cofactors_shannon s n v l :
  Inv s -> valid s n -> _variable_ordering s !! l = Some v ->
  level_le (Finite l) (lvl s n) ->
  exists h lo c,
    get_cofactors n v s = (Ok (h, lo), set_get_cofactors_cache c s) /\
    valid s h /\ valid s lo /\
    level_lt (Finite l) (lvl s h) /\ level_lt (Finite l) (lvl s lo) /\
    forall env, sem s n env = if env l then sem s h env else sem s lo env.
Proof.
  intros [Hwf Hc] Hn Hv Hl.
  pose proof (wf_ordering _ Hwf _ _ Hv) as Hid.
  destruct (cofactors_of_splits s n l Hwf Hn Hl)
    as (h & lo & Hco & (_ & Hh & Hlo & Lh & Llo & Hsem) & _).
  rewrite <- Hid in Hco.
  destruct (get_cofactors_run s n v (h, lo) (cs_cofactors _ Hc) Hco)
    as (c & Hrun & _).
  by exists h, lo, c.
Qed.

Lemma get_cofactors_shannon_witness :
  exists h lo c,
    get_cofactors 4 (mkVar "x0" 0 false) two_nodes =
      (Ok (h, lo), set_get_cofactors_cache c two_nodes) /\
    valid two_nodes h /\ valid two_nodes lo /\
    level_lt (Finite 0) (lvl two_nodes h) /\
    level_lt (Finite 0) (lvl two_nodes lo) /\
    forall env, sem two_nodes 4 env =
      if env 0 then sem two_nodes h env else sem two_nodes lo env.
Proof.
  apply (get_cofactors_shannon two_nodes 4 (mkVar "x0" 0 false) 0).
  - apply Inv_two_nodes.
  - apply valid_two_nodes. lia.
  - by vm_compute.
  - by vm_compute.
Defined.

Lemma create_variable_node_run s x p :
  Inv s ->
  exists s',
    create_variable_node x p s = (Ok (_node_id s), s') /\ Inv s' /\
    extends s s' /\
    _variable_ordering s' =
      _variable_ordering s ++ [mkVar x (length (_variable_ordering s)) p] /\
    _node_to_row s' =
      <[_node_id s := (length (_variable_ordering s), 1, 0)]> (_node_to_row s) /\
    _node_id s' = S (_node_id s) /\
    forall env, sem s' (_node_id s) env = env (length (_variable_ordering s)).
Proof.
  intros HI. pose proof HI as [Hwf _].
  pose proof (create_variable_Inv x p s HI) as HI1.
  pose proof (create_variable_extends x p s) as Hext.
  unfold create_variable_node, bind.
  rewrite create_variable_eq in HI1, Hext |- *.
  rewrite (wf_var_id _ Hwf) in HI1, Hext |- *. simpl in HI1, Hext.
  set (n := length (_variable_ordering s)) in *.
  set (v := mkVar x n p) in *.
  set (s1 := set_variable_ordering (fun l => l ++ [v]) (set_var_id S s)) in *.
  assert (Hv : _variable_ordering s1 !! n = Some v).
  { simpl. rewrite lookup_app_r by done. by rewrite Nat.sub_diag. }
  assert (Hfresh : _row_to_node s1 !! (n, 1, 0) = None).
  { simpl. destruct (_row_to_node s !! (n, 1, 0)) as [m|] eqn:E; [|done].
    apply (si_inverse _ (wf_store _ Hwf)) in E.
    apply (wf_rows _ Hwf) in E as [E _]. unfold n in E. lia. }
  destruct (node_from_variable_spec s1 n v HI1 Hv)
    as (r & s' & Hrun & HI' & G & Hr & Hsem).
  unfold node_from_variable in *. rewrite make_eq in Hrun |- *.
  simpl in Hrun |- *. change (var_id v) with n in Hrun |- *.
  change (_row_to_node s !! (n, get_one_node, get_zero_node))
    with (_row_to_node s1 !! (n, 1, 0)) in Hrun |- *.
  rewrite Hfresh in Hrun |- *. simplify_eq.
  eexists. split; [done|]. split_and!; try done.
  etrans; [exact Hext | by apply grows_extends].
Qed.

(** X8.  [create_variable_node] always allocates.  In a manager that
    satisfies the invariant it returns the next free identifier, appends the
    new variable at the end of the ordering with the next [var_id], adds
    the one row [(var_id, 1, 0)], and the new node denotes the new
    variable. *)
Theorem create_variable_node_fresh s x p :
  Inv s ->
  exists s',
    create_variable_node x p s = (Ok (_node_id s), s') /\ Inv s' /\
    _variable_ordering s' =
      _variable_ordering s ++ [mkVar x (length (_variable_ordering s)) p] /\
    _node_to_row s' =
      <[_node_id s := (length (_variable_ordering s), 1, 0)]> (_node_to_row s) /\
    _node_id s' = S (_node_id s) /\
    forall env, sem s' (_node_id s) env = env (length (_variable_ordering s)).
Proof.
  intros HI.
  destruct (create_variable_node_run s x p HI)
    as (s' & Hrun & HI' & _ & Hord & Hrows & Hid & Hsem).
  by exists s'.
Qed.

Lemma create_variable_node_fresh_witness :
  exists s',
    create_variable_node "x2" false two_nodes = (Ok (_node_id two_nodes), s') /\
    Inv s' /\
    _variable_ordering s' =
      _variable_ordering two_nodes ++
        [mkVar "x2" (length (_variable_ordering two_nodes)) false] /\
    _node_to_row s' =
      <[_node_id two_nodes := (length (_variable_ordering two_nodes), 1, 0)]>
        (_node_to_row two_nodes) /\
    _node_id s' = S (_node_id two_nodes) /\
    forall env, sem s' (_node_id two_nodes) env =
                env (length (_variable_ordering two_nodes)).
Proof.
  apply (create_variable_node_fresh two_nodes "x2" false), Inv_two_nodes.
Defined.

(** X9.  [node_from_variable] on a declared variable returns a node that
    denotes the variable, and is idempotent: a second call returns the same
    identifier and changes nothing. *)
Theorem node_from_variable_idempotent s l v :
  Inv s -> _variable_ordering s !! l = Some v ->
  exists r s',
    node_from_variable v s = (Ok r, s') /\ Inv s' /\ grows s s' /\
    (forall env, sem s' r env = env l) /\
    node_from_variable v s' = (Ok r, s').
Proof.
  intros HI Hv. pose proof HI as [Hwf _].
  destruct (node_from_variable_spec s l v HI Hv)
    as (r & s' & Hrun & HI' & G & Hr & Hsem).
  exists r, s'. split_and!; try done.
  unfold node_from_variable, get_one_node, get_zero_node in *.
  by apply (make_again s v 1 0 r s' (wf_store _ Hwf)).
Qed.

Lemma node_from_variable_idempotent_witness :
  exists r s',
    node_from_variable (mkVar "x1" 1 false) two_variables = (Ok r, s') /\
    Inv s' /\ grows two_variables s' /\
    (forall env, sem s' r env = env 1) /\
    node_from_variable (mkVar "x1" 1 false) s' = (Ok r, s').
Proof.
  apply (node_from_variable_idempotent two_variables 1 (mkVar "x1" 1 false)).
  - apply Inv_two_variables.
  - by vm_compute.
Defined.

(** ** Memoisation and the edges of the operators *)

Section lru_again.
Context {K V S : Type} `{EqDecision K}.
Implicit Types (c : list (K * V)).

Lemma lru_find_hit (k : K) (v : V) c : lru_find k (lru_hit k v c) = Some v.
Proof. unfold lru_hit. simpl. by rewrite decide_True. Qed.

Lemma lru_find_store (k : K) (v : V) c : is_Some (lru_find k (lru_store k v c)).
Proof.
  unfold lru_store. destruct (lru_find k c) as [v'|] eqn:E; [by rewrite E|].
  destruct (length c <? lru_maxsize); simpl; by rewrite decide_True.
Qed.

(** After a call that returned, the key is in the cache, and the next call
    with this key is a hit whatever the function would do. *)
Lemma lru_cache_again (get : S -> list (K * V)) (set : list (K * V) -> S -> S)
    (k : K) (f g : M S V) s r s' :
  (forall c s, get (set c s) = c) ->
  lru_cache get set k f s = (Ok r, s') ->
  exists v, lru_find k (get s') = Some v /\
    lru_cache get set k g s' = (Ok v, set (lru_hit k v (get s')) s').
Proof.
  intros Hget Hrun. unfold lru_cache in Hrun.
  assert (Hin : is_Some (lru_find k (get s'))).
  { destruct (lru_find k (get s)) as [v|] eqn:E.
    - simplify_eq. rewrite Hget, lru_find_hit. by eexists.
    - destruct (f s) as [[v|e] s1]; simplify_eq.
      rewrite Hget. apply lru_find_store. }
  destruct Hin as [v Hv]. exists v. split; [done|].
  unfold lru_cache. by rewrite Hv.
Qed.
End lru_again.

(** X10.  An immediate second call of a memoised operator is a cache hit:
    after [ite], [conjunction] or [disjunction] returned [r] on known nodes,
    the same call returns [r] again without recursion (a depth of one is
    enough) and changes nothing but its cache, where the entry moves to the
    front. *)
Theorem repeated_call_is_a_cache_hit s a b c fuel fuel' :
  Inv s -> valid s a -> valid s b -> valid s c ->
  length (_variable_ordering s) < fuel ->
  (exists r s1,
     ite fuel a b c s = (Ok r, s1) /\
     ite (S fuel') a b c s1 =
       (Ok r, set_ite_cache (lru_hit (a, b, c) r (ite_cache s1)) s1)) /\
  (exists r s1,
     conjunction fuel a b s = (Ok r, s1) /\
     conjunction (S fuel') a b s1 =
       (Ok r, set_conjunction_cache
                (lru_hit (a, b) r (conjunction_cache s1)) s1)) /\
  (exists r s1,
     disjunction fuel a b s = (Ok r, s1) /\
     disjunction (S fuel') a b s1 =
       (Ok r, set_disjunction_cache
                (lru_hit (a, b) r (disjunction_cache s1)) s1)).
Proof.
  intros HI Ha Hb Hc Hk. destruct fuel as [|fuel]; [lia|]. split_and!.
  - destruct (ite_spec (S fuel) s a b c HI Ha Hb Hc)
      as (r & s1 & Hrun & HI1 & G & (_ & _ & _ & Hr & _ & Hs)).
    { unfold rank3. pose proof (fuel_rank s a _ Hk).
      pose proof (fuel_rank s b _ Hk). pose proof (fuel_rank s c _ Hk). lia. }
    exists r, s1. pose proof Hrun as Hrun'. simpl in Hrun' |- *.
    eapply lru_cache_again in Hrun' as (v & Hv & Hhit); [|done].
    split; [done|]. rewrite Hhit. assert (v = r) as ->; [|done].
    apply lru_find_Some in Hv. pose proof (cs_ite _ (proj2 HI1)) as Hall.
    rewrite Forall_forall in Hall. apply Hall in Hv as (_ & _ & _ & Hvv & _ & Hsv).
    apply (sem_injective s1 (proj1 HI1)); try done.
    intros env. by rewrite Hsv, Hs.
  - destruct (conjunction_spec (S fuel) s a b HI Ha Hb)
      as (r & s1 & Hrun & HI1 & G & (_ & _ & Hr & _ & Hs)).
    { pose proof (fuel_rank s a _ Hk). pose proof (fuel_rank s b _ Hk). lia. }
    exists r, s1. pose proof Hrun as Hrun'. simpl in Hrun' |- *.
    eapply lru_cache_again in Hrun' as (v & Hv & Hhit); [|done].
    split; [done|]. rewrite Hhit. assert (v = r) as ->; [|done].
    apply lru_find_Some in Hv. pose proof (cs_conjunction _ (proj2 HI1)) as Hall.
    rewrite Forall_forall in Hall. apply Hall in Hv as (_ & _ & Hvv & _ & Hsv).
    apply (sem_injective s1 (proj1 HI1)); try done.
    intros env. by rewrite Hsv, Hs.
  - destruct (disjunction_spec (S fuel) s a b HI Ha Hb)
      as (r & s1 & Hrun & HI1 & G & (_ & _ & Hr & _ & Hs)).
    { pose proof (fuel_rank s a _ Hk). pose proof (fuel_rank s b _ Hk). lia. }
    exists r, s1. pose proof Hrun as Hrun'. simpl in Hrun' |- *.
    eapply lru_cache_again in Hrun' as (v & Hv & Hhit); [|done].
    split; [done|]. rewrite Hhit. assert (v = r) as ->; [|done].
    apply lru_find_Some in Hv. pose proof (cs_disjunction _ (proj2 HI1)) as Hall.
    rewrite Forall_forall in Hall. apply Hall in Hv as (_ & _ & Hvv & _ & Hsv).
    apply (sem_injective s1 (proj1 HI1)); try done.
    intros env. by rewrite Hsv, Hs.
Qed.

Lemma repeated_call_is_a_cache_hit_witness :
  (exists r s1,
     ite 3 2 3 4 two_nodes = (Ok r, s1) /\
     ite 1 2 3 4 s1 =
       (Ok r, set_ite_cache (lru_hit (2, 3, 4) r (ite_cache s1)) s1)) /\
  (exists r s1,
     conjunction 3 2 3 two_nodes = (Ok r, s1) /\
     conjunction 1 2 3 s1 =
       (Ok r, set_conjunction_cache
                (lru_hit (2, 3) r (conjunction_cache s1)) s1)) /\
  (exists r s1,
     disjunction 3 2 3 two_nodes = (Ok r, s1) /\
     disjunction 1 2 3 s1 =
       (Ok r, set_disjunction_cache
                (lru_hit (2, 3) r (disjunction_cache s1)) s1)).
Proof.
  apply (repeated_call_is_a_cache_hit two_nodes 2 3 4 3 0).
  - apply Inv_two_nodes.
  - apply valid_two_nodes. lia.
  - apply valid_two_nodes. lia.
  - apply valid_two_nodes. lia.
  - vm_compute. lia.
Defined.

Lemma valid_dec s n : valid s n \/ ~ valid s n.
Proof.
  unfold valid. destruct (decide (n < 2)); [by left; left|].
  destruct (_node_to_row s !! n) as [r|]; [left; right; by eexists|].
  right. intros [?|[? ?]]; [lia | done].
Qed.




(** ** [pre_image] outside its precondition *)

Lemma variable_at_run s l v :
  _variable_ordering s !! l = Some v -> variable_at (Finite l) s = (Ok v, s).
Proof. intros E. unfold variable_at, bind, gets, list_index. by rewrite E. Qed.

Lemma variable_at_past_end s l :
  length (_variable_ordering s) <= l ->
  variable_at (Finite l) s = (Raise IndexError, s).
Proof.
  intros Hl. unfold variable_at, bind, gets, list_index.
  by rewrite lookup_ge_None_2.
Qed.

(** X12.  An unprimed variable without a primed successor.  When the
    topmost variable of the two operands is unprimed and is the last of the
    ordering, [pre_image] looks up [self._variable_ordering[min_var_id + 1]]
    past the end of the list and raises [IndexError]; the manager is left
    as it was. *)
Theorem pre_image_unpaired_variable s a b l v fuel :
  wf s -> valid s a -> valid s b -> a <> 0 -> b <> 0 ->
  level_min (lvl s a) (lvl s b) = Finite l ->
  _variable_ordering s !! l = Some v -> is_primed v = false ->
  S l = length (_variable_ordering s) ->
  lru_find (a, b) (pre_image_cache s) = None ->
  pre_image (S fuel) a b s = (Raise IndexError, s).
Proof.
  intros Hwf Ha Hb Ha0 Hb0 Hmin Hv Hp Hlast Hmiss.
  simpl. unfold lru_cache. rewrite Hmiss.
  apply Nat.eqb_neq in Ha0, Hb0. unfold get_zero_node, get_one_node.
  rewrite Ha0, Hb0. simpl.
  destruct ((a =? 1) && (b =? 1)) eqn:E.
  { apply andb_prop in E as [E1 E2]. apply Nat.eqb_eq in E1, E2. subst.
    by rewrite !(lvl_terminal s Hwf) in Hmin by lia. }
  unfold bind at 1. rewrite (node_level_valid s Hwf a Ha). cbv beta iota.
  unfold bind at 1. rewrite (node_level_valid s Hwf b Hb). cbv beta iota.
  rewrite Hmin.
  unfold bind at 1. rewrite (variable_at_run s l v Hv). cbv beta iota.
  rewrite Hp. cbn [level_succ].
  unfold bind at 1. by rewrite (variable_at_past_end s (S l)) by lia.
Qed.

Lemma pre_image_unpaired_variable_witness :
  pre_image 3 3 3 two_nodes = (Raise IndexError, two_nodes).
Proof.
  apply (pre_image_unpaired_variable two_nodes 3 3 1 (mkVar "x1" 1 false) 2).
  - apply Inv_two_nodes.
  - apply valid_two_nodes. lia.
  - apply valid_two_nodes. lia.
  - lia.
  - lia.
  - by vm_compute.
  - by vm_compute.
  - done.
  - by vm_compute.
  - by vm_compute.
Defined.

Lemma Inv_primed_pair : Inv primed_pair.
Proof.
  eapply returns_Inv, build_spec;
    [apply create_variable_Inv, create_variable_Inv, Inv_new | |]; simpl; lia.
Qed.

Lemma cofactors_of_above s a l :
  wf s -> valid s a -> level_lt (Finite l) (lvl s a) ->
  cofactors_of s a l = Some (a, a).
Proof.
  intros Hwf Ha Hl. unfold cofactors_of.
  destruct (valid_cases s Hwf a Ha) as [->|[->|(l' & h & lo & E & Hn2)]];
    [done..|].
  destruct (Nat.eqb_spec a 0); [lia|]. destruct (Nat.eqb_spec a 1); [lia|].
  simpl. rewrite (si_level _ (wf_store _ Hwf)) by done. rewrite E. simpl.
  rewrite (lvl_row s _ _ _ _ E) in Hl. unfold level_lt in Hl. simpl in Hl.
  by rewrite Hl.
Qed.

(** The recursive call of [pre_image] on a primed level above [a]: the
    cofactors of [a] are [a] itself, so the call repeats with the same
    arguments. *)
Lemma pre_image_primed_loop fuel : forall s a b l v,
  wf s -> Forall (cofactors_entry s) (get_cofactors_cache s) ->
  valid s a -> a <> 0 ->
  lvl s b = Finite l -> level_lt (Finite l) (lvl s a) ->
  _variable_ordering s !! l = Some v -> is_primed v = true ->
  lru_find (a, b) (pre_image_cache s) = None ->
  (pre_image fuel a b s).1 = Raise OutOfFuel.
Proof.
  induction fuel as [|fuel IH]; intros s a b l v Hwf Hc Ha Ha0 Hb Hl Hv Hp Hmiss;
    [done|].
  assert (Hvb : valid s b).
  { right. unfold lvl in Hb. destruct (_node_to_row s !! b); [by eexists | done]. }
  assert (Hb2 : 2 <= b).
  { destruct (decide (b < 2)); [|lia].
    by rewrite (lvl_terminal s Hwf) in Hb by done. }
  simpl. unfold lru_cache. rewrite Hmiss.
  apply Nat.eqb_neq in Ha0. unfold get_zero_node, get_one_node. rewrite Ha0.
  destruct (Nat.eqb_spec b 0); [lia|]. destruct (Nat.eqb_spec b 1); [lia|].
  rewrite andb_false_r. cbn [orb].
  unfold bind at 1. rewrite (node_level_valid s Hwf a Ha). cbv beta iota.
  unfold bind at 1. rewrite (node_level_valid s Hwf b Hvb). cbv beta iota.
  rewrite Hb. unfold level_min. rewrite Hl.
  unfold bind at 1. rewrite (variable_at_run s l v Hv). cbv beta iota.
  rewrite Hp.
  pose proof (wf_ordering _ Hwf _ _ Hv) as Hid.
  destruct (get_cofactors_run s a v (a, a) Hc) as (c & Hrun & Hc').
  { rewrite Hid. by apply cofactors_of_above. }
  unfold bind at 1. rewrite Hrun. cbv beta iota.
  unfold bind at 1.
  assert (IH' : (pre_image fuel a b (set_get_cofactors_cache c s)).1
                = Raise OutOfFuel).
  { apply (IH _ a b l v); try done;
      [by apply (same_store_wf s) | by apply Nat.eqb_neq]. }
  destruct (pre_image fuel a b (set_get_cofactors_cache c s)) as [[r|e] s3];
    simpl in *; [discriminate | done].
Qed.

(** X13.  A target set at a primed level.  When the variable of [b] is a
    primed variable above the variable of [a] (or [a] is the 1-node),
    [pre_image(a, b)] calls itself with the same arguments and never
    returns: every recursion depth is used up (a [RecursionError] in
    Python). *)
Theorem pre_image_diverges_on_primed_target s a b l v :
  Inv s -> valid s a -> a <> 0 ->
  lvl s b = Finite l -> level_lt (Finite l) (lvl s a) ->
  _variable_ordering s !! l = Some v -> is_primed v = true ->
  lru_find (a, b) (pre_image_cache s) = None ->
  forall fuel, (pre_image fuel a b s).1 = Raise OutOfFuel.
Proof.
  intros [Hwf Hc] Ha Ha0 Hb Hl Hv Hp Hmiss fuel.
  eapply pre_image_primed_loop; try done. apply Hc.
Qed.

Lemma pre_image_diverges_on_primed_target_witness :
  (pre_image 1000 1 3 primed_pair).1 = Raise OutOfFuel.
Proof.
  apply (pre_image_diverges_on_primed_target primed_pair 1 3 1
           (mkVar "x0" 1 true)).
  - apply Inv_primed_pair.
  - left. lia.
  - lia.
  - by vm_compute.
  - by vm_compute.
  - by vm_compute.
  - done.
  - by vm_compute.
Defined.

(** ** More on [clear] *)

Global Instance same_registry_preorder : PreOrder same_registry.
Proof.
  split.
  - by intros s.
  - intros s1 s2 s3 H1 H2. unfold same_registry in *.
    destruct_and!. split_and!; congruence.
Qed.

Lemma clear_same_registry fuel nodes s :
  same_registry s (clear fuel nodes s).2.
Proof.
  revert s. change (stable same_registry (clear fuel nodes)).
  unfold clear. apply stable_bind; [apply _ | apply stable_clear_loop; apply _ |].
  intros explored. apply stable_bind; [apply _ | stable_step |].
  intros keys. by apply stable_clear_sweep; [apply _|..].
Qed.

Lemma reach_valid s R n :
  wf s -> Forall (valid s) R -> reach s R n -> valid s n.
Proof.
  intros Hwf HR. rewrite Forall_forall in HR.
  induction 1 as [n Hn|m l h lo _ IH E|m l h lo _ IH E].
  - by apply HR.
  - by apply (wf_rows _ Hwf) in E as (_ & ? & _).
  - by apply (wf_rows _ Hwf) in E as (_ & _ & ? & _).
Qed.

(** A store that keeps the rows of the nodes reachable from [R], and only
    rows of [s], is well formed and gives those nodes their meaning. *)
Lemma kept_rows_wf s s' R :
  wf s -> Forall (valid s) R -> store_inv s' -> same_registry s s' ->
  (forall n r, _node_to_row s' !! n = Some r <->
               _node_to_row s !! n = Some r /\ reach s R n) ->
  wf s' /\
  forall n, reach s R n ->
    valid s' n /\ lvl s' n = lvl s n /\ forall env, sem s' n env = sem s n env.
Proof.
  intros Hwf HR Hst (Eo & Ev & _) Hrows.
  assert (Hkeep : forall n, reach s R n -> valid s' n /\ lvl s' n = lvl s n).
  { intros n Hn. pose proof (reach_valid s R n Hwf HR Hn) as Hv.
    destruct (valid_cases s Hwf n Hv) as [->|[->|(l & h & lo & E & Hn2)]].
    - split; [left; lia|]. unfold lvl.
      rewrite (wf_terminal_row s Hwf 0) by lia.
      destruct (_node_to_row s' !! 0) as [r|] eqn:E'; [|done].
      apply (si_ids _ Hst) in E'. lia.
    - split; [left; lia|]. unfold lvl.
      rewrite (wf_terminal_row s Hwf 1) by lia.
      destruct (_node_to_row s' !! 1) as [r|] eqn:E'; [|done].
      apply (si_ids _ Hst) in E'. lia.
    - assert (E' : _node_to_row s' !! n = Some (l, h, lo)) by by apply Hrows.
      split; [right; by eexists|]. unfold lvl. by rewrite E, E'. }
  assert (Hwf' : wf s').
  { split.
    - done.
    - rewrite Ev, Eo. apply Hwf.
    - rewrite Eo. apply Hwf.
    - intros n l h lo E. apply Hrows in E as [E Hn].
      pose proof (wf_rows _ Hwf _ _ _ _ E) as (Hl & _ & _ & Hh & Hlo).
      rewrite Eo. split_and!; try done.
      + by apply (Hkeep h), (reach_high s R n l h lo).
      + by apply (Hkeep lo), (reach_low s R n l h lo).
    - intros n l h lo E. apply Hrows in E as [E Hn].
      pose proof (wf_ordered _ Hwf _ _ _ _ E) as [Hh Hlo].
      rewrite (proj2 (Hkeep h (reach_high s R n l h lo Hn E))).
      by rewrite (proj2 (Hkeep lo (reach_low s R n l h lo Hn E))). }
  split; [done|]. intros n Hn. destruct (Hkeep n Hn) as [Hv Hl].
  split_and!; try done. revert Hn Hv Hl.
  induction (lt_wf n) as [n _ IH]. intros Hn Hv _ env.
  pose proof (reach_valid s R n Hwf HR Hn) as Hvs.
  destruct (valid_cases s Hwf n Hvs) as [->|[->|(l & h & lo & E & Hn2)]];
    [done..|].
  assert (E' : _node_to_row s' !! n = Some (l, h, lo)) by by apply Hrows.
  rewrite (sem_row s Hwf _ _ _ _ env E), (sem_row s' Hwf' _ _ _ _ env E').
  pose proof (wf_rows _ Hwf _ _ _ _ E) as (_ & _ & _ & Hh & Hlo).
  pose proof (reach_high s R n l h lo Hn E) as Rh.
  pose proof (reach_low s R n l h lo Hn E) as Rlo.
  destruct (env l); apply IH; try done; by apply Hkeep.
Qed.

Lemma clear_run s R fuel :
  wf s -> Forall (valid s) R -> weight R < fuel ->
  exists s',
    clear fuel R s = (Ok tt, s') /\ wf s' /\ same_registry s s' /\
    (forall n r, _node_to_row s' !! n = Some r <->
                 _node_to_row s !! n = Some r /\ reach s R n) /\
    forall n, reach s R n ->
      valid s' n /\ lvl s' n = lvl s n /\
      forall env, sem s' n env = sem s n env.
Proof.
  intros Hwf HR Hw.
  destruct (clear_spec fuel R s Hwf HR Hw) as (s' & Hrun & Hst & _ & _ & Hrows).
  pose proof (clear_same_registry fuel R s) as Hreg. rewrite Hrun in Hreg.
  destruct (kept_rows_wf s s' R Hwf HR Hst Hreg Hrows) as [Hwf' Hkeep].
  by exists s'.
Qed.

(** X14.  [clear] keeps the meaning of what it keeps.  On a well-formed
    store and known roots, once the marking loop has rounds enough, [clear]
    returns a well-formed store in which every node reachable from the
    roots is still known and denotes the function it denoted before; the
    ordering, the two counters and the five caches are untouched. *)
Theorem clear_preserves_roots s R :
  wf s -> Forall (valid s) R ->
  exists fuel0, forall fuel, fuel0 <= fuel ->
    exists s',
      clear fuel R s = (Ok tt, s') /\ wf s' /\ same_registry s s' /\
      forall n, reach s R n ->
        valid s' n /\ forall env, sem s' n env = sem s n env.
Proof.
  intros Hwf HR. exists (S (weight R)). intros fuel Hfuel.
  destruct (clear_run s R fuel Hwf HR) as (s' & Hrun & Hwf' & Hreg & _ & Hkeep);
    [lia|].
  exists s'. split_and!; try done. intros n Hn.
  by destruct (Hkeep n Hn) as (? & _ & ?).
Qed.

Lemma clear_preserves_roots_witness :
  exists fuel0, forall fuel, fuel0 <= fuel ->
    exists s',
      clear fuel [3] two_nodes = (Ok tt, s') /\ wf s' /\
      same_registry two_nodes s' /\
      forall n, reach two_nodes [3] n ->
        valid s' n /\ forall env, sem s' n env = sem two_nodes n env.
Proof.
  apply (clear_preserves_roots two_nodes [3]).
  - apply Inv_two_nodes.
  - apply Forall_singleton, valid_two_nodes. lia.
Defined.

(** X15.  [clear] is idempotent: a second [clear] with the same roots
    returns and leaves the manager exactly as the first one left it. *)
Theorem clear_idempotent s R :
  wf s -> Forall (valid s) R ->
  exists fuel0, forall fuel, fuel0 <= fuel ->
    exists s',
      clear fuel R s = (Ok tt, s') /\ clear fuel R s' = (Ok tt, s').
Proof.
  intros Hwf HR. exists (S (weight R)). intros fuel Hfuel.
  destruct (clear_run s R fuel Hwf HR) as (s' & Hrun & Hwf' & Hreg & Hrows & Hkeep);
    [lia|].
  exists s'. split; [done|].
  assert (HR' : Forall (valid s') R).
  { rewrite Forall_forall. intros n Hn. by apply Hkeep, reach_root. }
  assert (Hreach : forall n, reach s R n -> reach s' R n).
  { induction 1 as [n Hn|m l h lo Hm IH E|m l h lo Hm IH E].
    - by apply reach_root.
    - apply (reach_high s' R m l h lo); [done|]. by apply Hrows.
    - apply (reach_low s' R m l h lo); [done|]. by apply Hrows. }
  destruct (clear_loop_marks fuel R s' Hwf' HR') as (marked & Hloop & Hm); [lia|].
  unfold clear, bind, gets. rewrite Hloop.
  assert (dom (_node_to_row s') ∖ marked = ∅) as ->; [|by rewrite elements_empty].
  apply set_eq. intros n. rewrite elem_of_difference, elem_of_dom, Hm.
  split; [|by intros ?%not_elem_of_empty].
  intros [[r Hr] Hn]. destruct Hn. apply Hreach. by apply Hrows in Hr as [_ ?].
Qed.

Lemma clear_idempotent_witness :
  exists fuel0, forall fuel, fuel0 <= fuel ->
    exists s',
      clear fuel [2; 3] two_nodes = (Ok tt, s') /\
      clear fuel [2; 3] s' = (Ok tt, s').
Proof.
  apply (clear_idempotent two_nodes [2; 3]).
  - apply Inv_two_nodes.
  - apply Forall_cons_2; [apply valid_two_nodes; lia|].
    apply Forall_singleton, valid_two_nodes. lia.
Defined.

(** X16.  [clear([])] removes every decision node.  With no roots the loop
    marks nothing, so both tables end up empty; the terminals keep their
    level entries, and the ordering, the counters (so no identifier comes
    back) and the caches stay as they were. *)
Theorem clear_without_roots s fuel :
  store_inv s ->
  exists s',
    clear fuel [] s = (Ok tt, s') /\
    _node_to_row s' = ∅ /\ _row_to_node s' = ∅ /\
    _node_to_var_id s' !! get_zero_node = Some Infinity /\
    _node_to_var_id s' !! get_one_node = Some Infinity /\
    same_registry s s'.
Proof.
  intros Hs.
  destruct (clear_sweep_inactive ∅ s Hs) as (s' & Hsweep & Hs' & _ & _ & Hrows).
  assert (Hrun : clear fuel [] s = (Ok tt, s')).
  { unfold clear, bind, gets. by destruct fuel. }
  pose proof (clear_same_registry fuel [] s) as Hreg. rewrite Hrun in Hreg.
  assert (Hempty : _node_to_row s' = ∅).
  { apply map_empty. intros n. rewrite Hrows. by rewrite decide_False. }
  exists s'. split_and!; try done; try apply Hs'.
  apply map_empty. intros r.
  destruct (_row_to_node s' !! r) as [n|] eqn:E; [|done].
  apply (si_inverse _ Hs') in E. by rewrite Hempty in E.
Qed.

Lemma clear_without_roots_witness :
  exists s',
    clear 0 [] two_nodes = (Ok tt, s') /\
    _node_to_row s' = ∅ /\ _row_to_node s' = ∅ /\
    _node_to_var_id s' !! get_zero_node = Some Infinity /\
    _node_to_var_id s' !! get_one_node = Some Infinity /\
    same_registry two_nodes s'.
Proof.
  apply (clear_without_roots two_nodes 0). apply Inv_two_nodes.
Defined.

Lemma clear_loop_unknown fuel current queue explored s :
  2 <= current -> _node_to_row s !! current = None ->
  clear_loop (S fuel) (current :: queue) explored s = (Raise KeyError, s).
Proof.
  intros Hc E. simpl. unfold get_one_node, get_zero_node.
  destruct (Nat.eqb_spec current 1); [lia|].
  destruct (Nat.eqb_spec current 0); [lia|]. simpl.
  unfold get_succs, bind, gets; simpl. by rewrite E.
Qed.

(** The marking loop stops with [KeyError] at the first identifier of the
    queue that is not known. *)
Lemma clear_loop_raises fuel : forall queue explored s,
  wf s -> Exists (fun n => ~ valid s n) queue -> weight queue < fuel ->
  clear_loop fuel queue explored s = (Raise KeyError, s).
Proof.
  induction fuel as [|fuel IH]; intros queue explored s Hwf Hex Hw; [lia|].
  destruct queue as [|current queue]; [by apply Exists_nil in Hex|].
  simpl in Hw. pose proof (pow3_pos current) as Hpos.
  destruct (valid_dec s current) as [Hc|Hc].
  - apply Exists_cons in Hex as [Hex|Hex]; [done|].
    destruct (valid_cases s Hwf current Hc) as [->|[->|(l & h & lo & E & Hn2)]].
    + rewrite clear_loop_terminal by lia. apply IH; try done. lia.
    + rewrite clear_loop_terminal by lia. apply IH; try done. lia.
    + rewrite (clear_loop_node _ _ _ _ _ _ _ _ Hn2 E). cbn zeta.
      pose proof (wf_rows s Hwf _ _ _ _ E) as (_ & _ & _ & Hh & Hlo).
      pose proof (pow3_children current h lo Hh Hlo) as Hch.
      pose proof (pow3_pos h). pose proof (pow3_pos lo).
      apply IH; [done | |].
      * repeat case_decide; rewrite ?Exists_app; tauto.
      * repeat case_decide; rewrite ?weight_app; simpl; lia.
  - apply clear_loop_unknown.
    + unfold valid in Hc. lia.
    + destruct (_node_to_row s !! current) eqn:E; [|done].
      destruct Hc. right. by eexists.
Qed.

(** X17.  [clear] with a root the manager does not know raises [KeyError]
    while it marks, before any deletion: the manager is left exactly as it
    was. *)
Theorem clear_unknown_root s R :
  wf s -> Exists (fun n => ~ valid s n) R ->
  exists fuel0, forall fuel, fuel0 <= fuel ->
    clear fuel R s = (Raise KeyError, s).
Proof.
  intros Hwf Hex. exists (S (weight R)). intros fuel Hfuel.
  unfold clear, bind. rewrite (clear_loop_raises fuel R ∅ s Hwf Hex); [done|lia].
Qed.

Lemma clear_unknown_root_witness :
  exists fuel0, forall fuel, fuel0 <= fuel ->
    clear fuel [4; 7] two_nodes = (Raise KeyError, two_nodes).
Proof.
  apply (clear_unknown_root two_nodes [4; 7]).
  - apply Inv_two_nodes.
  - apply Exists_cons_tl, Exists_cons_hd.
    intros [?|[r Hr]]; [lia | by vm_compute in Hr].
Defined.

(** * The older copy [src/pydd/bdd/bdd.py] against [src/pydd/bdd.py] *)

Lemma older_newer t : older (PyddBdd.disjunction_cache t) (newer t) = t.
Proof.
  destruct t as [ord ? ? ? ? ? ? ? ? ?]. unfold older, newer. simpl. f_equal.
  rewrite <- list_fmap_compose. rewrite <- (list_fmap_id ord) at 2.
  apply list_fmap_ext. by intros i [x n] _.
Qed.

Section agrees.
Context {A B C : Type}.

Lemma agrees_ret (f : A -> B) a : agrees f (ret a) (ret (f a)).
Proof. by intros d s. Qed.

Lemma agrees_raise (f : A -> B) e : agrees f (raise e) (raise e).
Proof. by intros d s. Qed.

Lemma agrees_bind (f : A -> B) (g : C -> C) (m : M BDD A) m' (k : A -> M BDD C) k' :
  agrees f m m' -> (forall a, agrees g (k a) (k' (f a))) ->
  agrees g (bind m k) (bind m' k').
Proof.
  intros Hm Hk d s. unfold bind. rewrite Hm. unfold older_run.
  destruct (m s) as [[a|e] s1]; simpl; [apply Hk | done].
Qed.

Lemma agrees_gets (p : BDD -> A) (p' : PyddBdd.BDD -> A) :
  (forall d s, p' (older d s) = p s) -> agrees id (gets p) (gets p').
Proof. intros Hp d s. unfold gets, older_run. simpl. by rewrite Hp. Qed.

Lemma agrees_subscript (o : option A) : agrees id (subscript o) (subscript o).
Proof. by destruct o; intros d s. Qed.
End agrees.

Lemma agrees_bind_id {A C} (g : C -> C) (m : M BDD A) m' (k : A -> M BDD C) k' :
  agrees id m m' -> (forall a, agrees g (k a) (k' a)) ->
  agrees g (bind m k) (bind m' k').
Proof. intros Hm Hk. by apply (agrees_bind id). Qed.

Lemma agrees_modify (g : BDD -> BDD) (g' : PyddBdd.BDD -> PyddBdd.BDD) :
  (forall d s, g' (older d s) = older d (g s)) ->
  agrees id (modify g) (modify g').
Proof. intros Hg d s. unfold modify, older_run. simpl. by rewrite Hg. Qed.

Lemma agrees_lru_cache {K V} `{EqDecision K}
    (get : BDD -> list (K * V)) (set : list (K * V) -> BDD -> BDD)
    (get' : PyddBdd.BDD -> list (K * V))
    (set' : list (K * V) -> PyddBdd.BDD -> PyddBdd.BDD) k f f' :
  (forall d s, get' (older d s) = get s) ->
  (forall c d s, set' c (older d s) = older d (set c s)) ->
  agrees id f f' ->
  agrees id (lru_cache get set k f) (lru_cache get' set' k f').
Proof.
  intros Hget Hset Hf d s. unfold lru_cache, older_run. rewrite Hget.
  destruct (lru_find k (get s)) as [v|]; simpl; [by rewrite Hset|].
  rewrite Hf. unfold older_run. destruct (f s) as [[v|e] s1]; simpl; [|done].
  by rewrite Hget, Hset.
Qed.

Ltac agrees_step :=
  first
    [ assumption
    | apply (agrees_ret id)
    | apply (agrees_raise id)
    | apply agrees_subscript
    | apply agrees_gets; solve [auto]
    | apply agrees_modify; solve [auto]
    | apply agrees_bind_id; [|intros ?]
    | match goal with
      | |- agrees _ (if ?b then _ else _) _ => destruct b
      | |- agrees _ (match ?x with _ => _ end) _ => destruct x
      end ].

Lemma agrees_get_succs n : agrees id (get_succs n) (PyddBdd.get_succs n).
Proof. unfold get_succs, PyddBdd.get_succs. repeat agrees_step. Qed.

Lemma agrees_node_level n : agrees id (node_level n) (PyddBdd.node_level n).
Proof. unfold node_level, PyddBdd.node_level. repeat agrees_step. Qed.

Lemma agrees_variable_at i :
  agrees older_variable (variable_at i) (PyddBdd.variable_at i).
Proof.
  intros d s. unfold variable_at, PyddBdd.variable_at, bind, gets, older_run.
  simpl. destruct i as [n|]; simpl; [|done].
  rewrite list_lookup_fmap. by destruct (_variable_ordering s !! n).
Qed.

Lemma agrees_get_cofactors n v :
  agrees id (get_cofactors n v) (PyddBdd.get_cofactors n (older_variable v)).
Proof.
  unfold get_cofactors, PyddBdd.get_cofactors.
  apply agrees_lru_cache; [done..|].
  unfold get_zero_node, get_one_node, PyddBdd.get_zero_node, PyddBdd.get_one_node.
  destruct ((n =? 0) || (n =? 1)); [apply (agrees_ret id)|].
  apply agrees_bind_id; [by apply agrees_gets|]. intros l.
  apply agrees_bind_id; [apply agrees_subscript|]. intros l'.
  change (PyddBdd.var_id (older_variable v)) with (var_id v).
  destruct (level_ltb (Finite (var_id v)) l');
    [apply (agrees_ret id) | apply agrees_get_succs].
Qed.

Lemma agrees_make v n1 n0 :
  agrees id (make v n1 n0) (PyddBdd.make (older_variable v) n1 n0).
Proof. unfold make, PyddBdd.make. simpl. repeat agrees_step. Qed.

Lemma agrees_ite fuel a b c :
  agrees id (ite fuel a b c) (PyddBdd.ite fuel a b c).
Proof.
  revert a b c. induction fuel as [|fuel IH]; intros a b c; simpl;
    [apply (agrees_raise id)|].
  apply agrees_lru_cache; [done..|].
  unfold get_zero_node, get_one_node, PyddBdd.get_zero_node, PyddBdd.get_one_node.
  destruct (a =? 1); [apply (agrees_ret id)|].
  destruct (a =? 0); [apply (agrees_ret id)|].
  apply agrees_bind_id; [apply agrees_node_level|]. intros la.
  apply agrees_bind_id; [apply agrees_node_level|]. intros lb.
  apply agrees_bind_id; [apply agrees_node_level|]. intros lc.
  apply (agrees_bind older_variable id); [apply agrees_variable_at|]. intros v.
  apply agrees_bind_id; [apply agrees_get_cofactors|]. intros [a1 a0].
  apply agrees_bind_id; [apply agrees_get_cofactors|]. intros [b1 b0].
  apply agrees_bind_id; [apply agrees_get_cofactors|]. intros [c1 c0].
  apply agrees_bind_id; [apply IH|]. intros w1.
  apply agrees_bind_id; [apply IH|]. intros w0.
  destruct (w0 =? w1); [apply (agrees_ret id) | apply agrees_make].
Qed.

Lemma agrees_conjunction fuel a b :
  agrees id (conjunction fuel a b) (PyddBdd.conjunction fuel a b).
Proof.
  revert a b. induction fuel as [|fuel IH]; intros a b; simpl;
    [apply (agrees_raise id)|].
  apply agrees_lru_cache; [done..|].
  unfold get_zero_node, get_one_node, PyddBdd.get_zero_node, PyddBdd.get_one_node.
  destruct ((a =? 0) || (b =? 0)); [apply (agrees_ret id)|].
  destruct ((a =? b) && (a =? 1)); [apply (agrees_ret id)|].
  apply agrees_bind_id; [apply agrees_node_level|]. intros la.
  apply agrees_bind_id; [apply agrees_node_level|]. intros lb.
  apply (agrees_bind older_variable id); [apply agrees_variable_at|]. intros v.
  apply agrees_bind_id; [apply agrees_get_cofactors|]. intros [a1 a0].
  apply agrees_bind_id; [apply agrees_get_cofactors|]. intros [b1 b0].
  apply agrees_bind_id; [apply IH|]. intros w1.
  apply agrees_bind_id; [apply IH|]. intros w0.
  apply agrees_make.
Qed.

Lemma agrees_create_variable x p :
  agrees older_variable (create_variable x p) (PyddBdd.create_variable x).
Proof.
  intros d s. unfold create_variable, PyddBdd.create_variable, older_run, older.
  cbn. by rewrite fmap_app.
Qed.

Lemma agrees_create_variable_node x p :
  agrees id (create_variable_node x p) (PyddBdd.create_variable_node x).
Proof.
  unfold create_variable_node, PyddBdd.create_variable_node, node_from_variable.
  apply (agrees_bind older_variable id); [apply agrees_create_variable|].
  intros v. apply agrees_make.
Qed.

(** X18.  The two copies of the manager run the same code in [get_succs],
    [get_cofactors], [make], [ite], [conjunction] and
    [create_variable_node]: on corresponding managers each call has the
    same outcome, value or exception, and leads to corresponding managers.
    Every manager of the older copy corresponds to one of
    [src/pydd/bdd.py], and a fresh one to a fresh one. *)
Theorem older_copy_agrees :
  (forall n, agrees id (get_succs n) (PyddBdd.get_succs n)) /\
  (forall n v,
     agrees id (get_cofactors n v) (PyddBdd.get_cofactors n (older_variable v))) /\
  (forall v n1 n0,
     agrees id (make v n1 n0) (PyddBdd.make (older_variable v) n1 n0)) /\
  (forall fuel a b c, agrees id (ite fuel a b c) (PyddBdd.ite fuel a b c)) /\
  (forall fuel a b,
     agrees id (conjunction fuel a b) (PyddBdd.conjunction fuel a b)) /\
  (forall x p,
     agrees id (create_variable_node x p) (PyddBdd.create_variable_node x)) /\
  (forall t, older (PyddBdd.disjunction_cache t) (newer t) = t) /\
  older [] new = PyddBdd.new.
Proof.
  split_and!.
  - apply agrees_get_succs.
  - apply agrees_get_cofactors.
  - apply agrees_make.
  - apply agrees_ite.
  - apply agrees_conjunction.
  - apply agrees_create_variable_node.
  - apply older_newer.
  - done.
Qed.

(** ** What the older copy computes *)

Lemma interp_same_rows s s' k n env :
  _node_to_row s = _node_to_row s' -> interp s k n env = interp s' k n env.
Proof.
  intros E. revert n. induction k as [|k IH]; intros n; simpl; [done|].
  rewrite E. destruct (n =? 0); [done|]. destruct (n =? 1); [done|].
  destruct (_node_to_row s' !! n) as [[[l h] lo]|]; [|done].
  by rewrite !IH.
Qed.

Lemma sem_newer_older d s n env : sem (newer (older d s)) n env = sem s n env.
Proof. by apply interp_same_rows. Qed.

Lemma older_node_level d s n :
  wf s -> valid s n ->
  PyddBdd.node_level n (older d s) = (Ok (lvl s n), older d s).
Proof.
  intros Hwf Hn. rewrite (agrees_node_level n d s).
  by rewrite (node_level_valid s Hwf n Hn).
Qed.

Lemma older_variable_at d s l v :
  _variable_ordering s !! l = Some v ->
  PyddBdd.variable_at (Finite l) (older d s) = (Ok (older_variable v), older d s).
Proof.
  intros Hv. rewrite (agrees_variable_at (Finite l) d s).
  by rewrite (variable_at_run s l v Hv).
Qed.

Lemma older_get_cofactors d s n v l :
  Inv s -> valid s n -> var_id v = l -> level_le (Finite l) (lvl s n) ->
  exists p s',
    PyddBdd.get_cofactors n (older_variable v) (older d s) = (Ok p, older d s') /\
    Inv s' /\ grows s s' /\ splits s' l n p.1 p.2.
Proof.
  intros HI Hn Hid Hl.
  destruct (get_cofactors_spec s n v l HI Hn Hid Hl)
    as (p & s' & Hrun & HI' & G & Hs & _).
  exists p, s'. rewrite (agrees_get_cofactors n v d s), Hrun. done.
Qed.

(** The older [disjunction] on known nodes: every leaf of the recursion is
    one of its two base cases, and both return the 1-node. *)
Lemma older_disjunction_run fuel : forall d s a b,
  Inv s -> Forall (fun e : nat * nat * nat => e.2 = 1) d ->
  valid s a -> valid s b -> Nat.max (rank s a) (rank s b) < fuel ->
  exists d' s',
    PyddBdd.disjunction fuel a b (older d s) = (Ok 1, older d' s') /\
    Inv s' /\ grows s s' /\ Forall (fun e : nat * nat * nat => e.2 = 1) d'.
Proof.
  induction fuel as [|fuel IH]; intros d s a b HI Hd Ha Hb Hk; [lia|].
  pose proof HI as [Hwf _]. simpl. unfold lru_cache.
  change (PyddBdd.disjunction_cache (older d s)) with d.
  destruct (lru_find (a, b) d) as [v|] eqn:Hf.
  { assert (v = 1) as ->.
    { apply lru_find_Some in Hf. rewrite Forall_forall in Hd.
      by apply Hd in Hf. }
    exists (lru_hit (a, b) 1 d), s. split_and!; try done.
    by apply Forall_lru_hit. }
  match goal with
  | |- context [match ?body (older d s) with _ => _ end] =>
      assert (Hbody : exists d1 s1,
        body (older d s) = (Ok 1, older d1 s1) /\ Inv s1 /\ grows s s1 /\
        Forall (fun e : nat * nat * nat => e.2 = 1) d1)
  end.
  2:{ destruct Hbody as (d1 & s1 & -> & HI1 & G1 & Hd1).
      exists (lru_store (a, b) 1 d1), s1. split_and!; try done.
      by apply Forall_lru_store. }
  unfold PyddBdd.get_one_node, PyddBdd.get_zero_node.
  destruct (Nat.eqb_spec a 1) as [->|Ha1]; [by exists d, s|].
  destruct (Nat.eqb_spec b 1) as [->|Hb1]; [by exists d, s|].
  destruct ((a =? b) && (a =? 0)) eqn:Eab; [by exists d, s|]. cbn [orb].
  assert (Hnt : ~ (a < 2 /\ b < 2)).
  { intros [Ha2 Hb2]. assert (a = 0) as -> by lia. assert (b = 0) as -> by lia.
    done. }
  destruct (min_level_rank s a b Hwf Ha Hb Hnt) as (l & Hmin & Hl & Hrank).
  assert (Hla : level_le (Finite l) (lvl s a)).
  { rewrite <- Hmin. apply level_min_le_l. }
  assert (Hlb : level_le (Finite l) (lvl s b)).
  { rewrite <- Hmin. apply level_min_le_r. }
  destruct (variable_at_spec s l Hwf Hl) as (v & _ & Hv & Hid).
  unfold bind at 1. rewrite (older_node_level d s a Hwf Ha). cbv beta iota.
  unfold bind at 1. rewrite (older_node_level d s b Hwf Hb). cbv beta iota.
  rewrite Hmin.
  unfold bind at 1. rewrite (older_variable_at d s l v Hv). cbv beta iota.
  destruct (older_get_cofactors d s a v l HI Ha Hid Hla)
    as ([a1 a0] & s1 & Hrun1 & HI1 & G1 & Sa).
  unfold bind at 1. rewrite Hrun1. cbv beta iota.
  destruct (older_get_cofactors d s1 b v l HI1)
    as ([b1 b0] & s2 & Hrun2 & HI2 & G2 & Sb);
    [by eapply valid_grows | done | by rewrite (lvl_grows s s1) |].
  unfold bind at 1. rewrite Hrun2. cbv beta iota.
  cbn [fst snd] in Sa, Sb.
  pose proof (splits_grows _ _ _ _ _ _ HI1 HI2 G2 Sa) as Sa2.
  assert (E2 : _variable_ordering s2 = _variable_ordering s).
  { rewrite (proj1 G2). apply G1. }
  assert (Hl2 : l < length (_variable_ordering s2)) by (by rewrite E2).
  destruct (IH d s2 a1 b1 HI2 Hd) as (d3 & s3 & Hrun3 & HI3 & G3 & Hd3);
    [apply Sa2 | apply Sb | |].
  { pose proof (rank_below s2 l a1 (proj1 HI2) Hl2 ltac:(apply Sa2)).
    pose proof (rank_below s2 l b1 (proj1 HI2) Hl2 ltac:(apply Sb)).
    rewrite E2 in *. lia. }
  unfold bind at 1. rewrite Hrun3. cbv beta iota.
  pose proof (splits_grows _ _ _ _ _ _ HI2 HI3 G3 Sa2) as Sa3.
  pose proof (splits_grows _ _ _ _ _ _ HI2 HI3 G3 Sb) as Sb3.
  assert (E3 : _variable_ordering s3 = _variable_ordering s).
  { by rewrite (proj1 G3). }
  assert (Hl3 : l < length (_variable_ordering s3)) by (by rewrite E3).
  destruct (IH d3 s3 a0 b0 HI3 Hd3) as (d4 & s4 & Hrun4 & HI4 & G4 & Hd4);
    [apply Sa3 | apply Sb3 | |].
  { pose proof (rank_below s3 l a0 (proj1 HI3) Hl3 ltac:(apply Sa3)).
    pose proof (rank_below s3 l b0 (proj1 HI3) Hl3 ltac:(apply Sb3)).
    rewrite E3 in *. lia. }
  unfold bind at 1. rewrite Hrun4. cbv beta iota.
  exists d4, s4. split_and!; try done.
  etrans; [exact G1|]. etrans; [exact G2|]. by etrans.
Qed.

Lemma newer_older_two_nodes : newer older_two_nodes = two_nodes.
Proof. by vm_compute. Qed.

(** X19.  In the older copy [neg] is the identity on every known node, not
    only on the terminals: [neg(a)] returns the identifier [a]. *)
Theorem older_neg_is_identity t a fuel :
  Inv (newer t) -> valid (newer t) a ->
  length (PyddBdd._variable_ordering t) < fuel ->
  exists t', PyddBdd.neg fuel a t = (Ok a, t').
Proof.
  intros HI Ha Hk. rewrite <- (older_newer t). unfold PyddBdd.neg.
  rewrite (agrees_ite fuel a 1 0 _ (newer t)).
  destruct (ite_run (newer t) a 1 0 fuel HI Ha)
    as (r & s' & Hrun & HI' & G & Hr & Hs); [left; lia | left; lia | |].
  { simpl. by rewrite length_fmap. }
  rewrite Hrun. unfold older_run. simpl. eexists. repeat f_equal.
  apply (sem_injective s' (proj1 HI')); [done | by eapply valid_grows |].
  intros env. rewrite Hs, (sem_grows (newer t) s') by done.
  by destruct (sem (newer t) a env).
Qed.

Lemma older_neg_is_identity_witness :
  exists t', PyddBdd.neg 3 4 older_two_nodes = (Ok 4, t').
Proof.
  apply (older_neg_is_identity older_two_nodes 4 3).
  - rewrite newer_older_two_nodes. apply Inv_two_nodes.
  - rewrite newer_older_two_nodes. apply valid_two_nodes. lia.
  - vm_compute. lia.
Defined.

(** X20.  In the older copy [disjunction] is constant: on known nodes,
    with a cache that holds no other value than the 1-node (an empty one,
    or one filled by earlier calls on known nodes), it returns the 1-node
    whatever the operands denote, and leaves such a cache behind. *)
Theorem older_disjunction_is_constant t a b fuel :
  Inv (newer t) ->
  Forall (fun e : nat * nat * nat => e.2 = 1) (PyddBdd.disjunction_cache t) ->
  valid (newer t) a -> valid (newer t) b ->
  length (PyddBdd._variable_ordering t) < fuel ->
  exists t',
    PyddBdd.disjunction fuel a b t = (Ok 1, t') /\
    Forall (fun e : nat * nat * nat => e.2 = 1) (PyddBdd.disjunction_cache t').
Proof.
  intros HI Hd Ha Hb Hk. rewrite <- (older_newer t).
  destruct (older_disjunction_run fuel (PyddBdd.disjunction_cache t) (newer t) a b)
    as (d' & s' & Hrun & _ & _ & Hd'); try done.
  { pose proof (rank_bound (newer t) a). pose proof (rank_bound (newer t) b).
    simpl in *. rewrite length_fmap in *. lia. }
  by exists (older d' s').
Qed.

Lemma older_disjunction_is_constant_witness :
  exists t',
    PyddBdd.disjunction 3 2 0 older_two_nodes = (Ok 1, t') /\
    Forall (fun e : nat * nat * nat => e.2 = 1) (PyddBdd.disjunction_cache t').
Proof.
  apply (older_disjunction_is_constant older_two_nodes 2 0 3).
  - rewrite newer_older_two_nodes. apply Inv_two_nodes.
  - apply Forall_nil_2.
  - rewrite newer_older_two_nodes. apply valid_two_nodes. lia.
  - left. lia.
  - vm_compute. lia.
Defined.

(** ** The script [src/pydd/bdd/main.py] *)

Lemma agrees_conjoin_fresh fuel i count n :
  agrees id (conjoin_fresh fuel i count n) (PyddBddMain.loop fuel i count n).
Proof.
  revert i n. induction count as [|count IH]; intros i n; simpl;
    [apply (agrees_ret id)|].
  apply agrees_bind_id; [apply agrees_create_variable_node|]. intros x.
  apply agrees_bind_id; [apply agrees_conjunction|]. intros n'. apply IH.
Qed.

Lemma forallb_seq_S (env : nat -> bool) k :
  forallb env (seq 0 (S k)) = forallb env (seq 0 k) && env k.
Proof. rewrite seq_S, forallb_app. simpl. by rewrite andb_true_r. Qed.

Lemma conjoin_fresh_run fuel count : forall s n,
  Inv s -> valid s n ->
  (forall env, sem s n env = forallb env (seq 0 (length (_variable_ordering s)))) ->
  length (_variable_ordering s) + count < fuel ->
  exists r s',
    conjoin_fresh fuel (length (_variable_ordering s)) count n s = (Ok r, s') /\
    Inv s' /\ valid s' r /\
    length (_variable_ordering s') = length (_variable_ordering s) + count /\
    forall env, sem s' r env =
      forallb env (seq 0 (length (_variable_ordering s) + count)).
Proof.
  induction count as [|count IH]; intros s n HI Hn Hsem Hk.
  { exists n, s. rewrite !Nat.add_0_r. by split_and!. }
  simpl. set (k := length (_variable_ordering s)) in *.
  destruct (create_variable_node_run s ("x" +:+ pretty k) false HI)
    as (s1 & Hrun1 & HI1 & Hext & Hord & Hrows & _ & Hx).
  assert (Hlen : length (_variable_ordering s1) = S k).
  { rewrite Hord, length_app. simpl. unfold k. lia. }
  assert (Hx1 : valid s1 (_node_id s)).
  { right. rewrite Hrows, lookup_insert_eq. by eexists. }
  assert (Hn1 : valid s1 n) by by eapply extends_valid.
  destruct (conjunction_run s1 n (_node_id s) fuel HI1 Hn1 Hx1)
    as (r & s2 & Hrun2 & HI2 & G2 & Hr & Hs2); [lia|].
  unfold bind at 1. rewrite Hrun1. cbv beta iota.
  unfold bind at 1. rewrite Hrun2. cbv beta iota.
  assert (Hlen2 : length (_variable_ordering s2) = S k).
  { by rewrite (proj1 G2). }
  destruct (IH s2 r HI2 Hr) as (r' & s' & Hrun & HI' & Hr' & Hlen' & Hs').
  { intros env. rewrite Hlen2, Hs2, Hx, forallb_seq_S. f_equal.
    rewrite (extends_sem s s1) by (done || apply HI || apply HI1).
    apply Hsem. }
  { lia. }
  rewrite Hlen2 in Hrun, Hlen', Hs'.
  exists r', s'. replace (k + S count) with (S k + count) by lia.
  by split_and!.
Qed.

(** X21.  The loop of [main.py], run from a fresh manager for any number
    of rounds, returns with a recursion depth of one more than that number:
    it declares [count] variables and ends with the node of the conjunction
    of them all.  The script is the loop with 400 rounds. *)
Theorem main_conjoins_all_variables count fuel :
  count < fuel ->
  (exists n t',
     PyddBddMain.loop fuel 0 count PyddBdd.get_one_node PyddBdd.new = (Ok n, t') /\
     length (PyddBdd._variable_ordering t') = count /\
     valid (newer t') n /\
     forall env, sem (newer t') n env = forallb env (seq 0 count)) /\
  PyddBddMain.main fuel =
    PyddBddMain.loop fuel 0 400 PyddBdd.get_one_node PyddBdd.new.
Proof.
  intros Hk. split; [|done].
  destruct (conjoin_fresh_run fuel count new 1 Inv_new)
    as (r & s' & Hrun & HI' & Hr & Hlen & Hs); [left; lia | done | simpl; lia |].
  simpl in Hrun, Hlen, Hs.
  change PyddBdd.new with (older [] new). unfold PyddBdd.get_one_node.
  rewrite (agrees_conjoin_fresh fuel 0 count 1 [] new), Hrun.
  eexists _, _. split; [done|]. simpl. rewrite length_fmap.
  split_and!; [done | |].
  - done.
  - intros env. by rewrite sem_newer_older.
Qed.

Lemma main_conjoins_all_variables_witness :
  (exists n t',
     PyddBddMain.loop 401 0 400 PyddBdd.get_one_node PyddBdd.new = (Ok n, t') /\
     length (PyddBdd._variable_ordering t') = 400 /\
     valid (newer t') n /\
     forall env, sem (newer t') n env = forallb env (seq 0 400)) /\
  PyddBddMain.main 401 =
    PyddBddMain.loop 401 0 400 PyddBdd.get_one_node PyddBdd.new.
Proof.
  apply (main_conjoins_all_variables 400 401). lia.
Defined.

(** ** Identities between identifiers in [src/pydd/bdd.py] *)

(** An operator call returns the known node that denotes the right
    function, whichever it is. *)
Lemma disjunction_returns s x y z fuel :
  Inv s -> valid s x -> valid s y -> valid s z ->
  length (_variable_ordering s) < fuel ->
  (forall env, sem s z env = sem s x env || sem s y env) ->
  (disjunction fuel x y s).1 = Ok z.
Proof.
  intros HI Hx Hy Hz Hk Hsem.
  destruct (disjunction_run s x y fuel HI Hx Hy Hk)
    as (r & s' & Hrun & HI' & G & Hr & Hs).
  rewrite Hrun. simpl. f_equal.
  apply (sem_injective s' (proj1 HI')); [done | by eapply valid_grows |].
  intros env. by rewrite Hs, (sem_grows s s'), Hsem.
Qed.

(** X22.  The base cases of [disjunction] in [src/pydd/bdd.py].  In a
    manager with a well-formed store and sound memo tables (the invariant
    [Inv], which a [clear] can break), for known identifiers [a] and [b]:
    [or(1, b) = 1], [or(a, 1) = 1], [or(0, b) = b], [or(b, 0) = b] and
    [or(a, a) = a], although the code has a branch of its own for the first
    two and for two 0-nodes only. *)
Theorem disjunction_base_cases s a b fuel :
  Inv s -> valid s a -> valid s b ->
  length (_variable_ordering s) < fuel ->
  (disjunction fuel 1 b s).1 = Ok 1 /\
  (disjunction fuel a 1 s).1 = Ok 1 /\
  (disjunction fuel 0 b s).1 = Ok b /\
  (disjunction fuel b 0 s).1 = Ok b /\
  (disjunction fuel a a s).1 = Ok a.
Proof.
  intros HI Ha Hb Hk.
  assert (H0 : valid s 0) by (left; lia). assert (H1 : valid s 1) by (left; lia).
  split_and!; apply disjunction_returns; try done; intros env;
    cbn [sem interp Nat.eqb]; try done.
  - by rewrite orb_true_r.
  - by rewrite orb_false_r.
  - by rewrite orb_diag.
Qed.

Lemma disjunction_base_cases_witness :
  (disjunction 3 1 3 two_nodes).1 = Ok 1 /\
  (disjunction 3 4 1 two_nodes).1 = Ok 1 /\
  (disjunction 3 0 3 two_nodes).1 = Ok 3 /\
  (disjunction 3 3 0 two_nodes).1 = Ok 3 /\
  (disjunction 3 4 4 two_nodes).1 = Ok 4.
Proof.
  apply (disjunction_base_cases two_nodes 4 3 3).
  - apply Inv_two_nodes.
  - apply valid_two_nodes. lia.
  - apply valid_two_nodes. lia.
  - vm_compute. lia.
Defined.

(** X23.  Absorption on identifiers.  In a manager with a well-formed
    store and sound memo tables (the invariant [Inv], which a [clear] can
    break), for known nodes [x] and [y],
    [conjunction(x, disjunction(x, y))] and
    [disjunction(x, conjunction(x, y))] both return the identifier [x]. *)
Theorem absorption s x y fuel :
  Inv s -> valid s x -> valid s y ->
  length (_variable_ordering s) < fuel ->
  ((d <- disjunction fuel x y ;; conjunction fuel x d) s).1 = Ok x /\
  ((c <- conjunction fuel x y ;; disjunction fuel x c) s).1 = Ok x.
Proof.
  intros HI Hx Hy Hk. split.
  - destruct (disjunction_run s x y fuel HI Hx Hy Hk)
      as (d & s1 & Hrun1 & HI1 & G1 & Hd & Hs1).
    assert (Hk1 : length (_variable_ordering s1) < fuel) by by rewrite (proj1 G1).
    assert (Hx1 : valid s1 x) by by eapply valid_grows.
    destruct (conjunction_run s1 x d fuel HI1 Hx1 Hd Hk1)
      as (r & s2 & Hrun2 & HI2 & G2 & Hr & Hs2).
    unfold bind. rewrite Hrun1, Hrun2. simpl. f_equal.
    apply (sem_injective s2 (proj1 HI2)); [done | by eapply valid_grows |].
    intros env. rewrite Hs2, Hs1, (sem_grows s1 s2 x), (sem_grows s s1 x) by done.
    by destruct (sem s x env), (sem s y env).
  - destruct (conjunction_run s x y fuel HI Hx Hy Hk)
      as (c & s1 & Hrun1 & HI1 & G1 & Hc & Hs1).
    assert (Hk1 : length (_variable_ordering s1) < fuel) by by rewrite (proj1 G1).
    assert (Hx1 : valid s1 x) by by eapply valid_grows.
    destruct (disjunction_run s1 x c fuel HI1 Hx1 Hc Hk1)
      as (r & s2 & Hrun2 & HI2 & G2 & Hr & Hs2).
    unfold bind. rewrite Hrun1, Hrun2. simpl. f_equal.
    apply (sem_injective s2 (proj1 HI2)); [done | by eapply valid_grows |].
    intros env. rewrite Hs2, Hs1, (sem_grows s1 s2 x), (sem_grows s s1 x) by done.
    by destruct (sem s x env), (sem s y env).
Qed.

Lemma absorption_witness :
  ((d <- disjunction 3 2 3 ;; conjunction 3 2 d) two_nodes).1 = Ok 2 /\
  ((c <- conjunction 3 2 3 ;; disjunction 3 2 c) two_nodes).1 = Ok 2.
Proof.
  apply (absorption two_nodes 2 3 3).
  - apply Inv_two_nodes.
  - apply valid_two_nodes. lia.
  - apply valid_two_nodes. lia.
  - vm_compute. lia.
Defined.

(** ** [to_dot] *)

Lemma node_to_label_run s n :
  wf s -> valid s n -> exists label, node_to_label n s = (Ok label, s).
Proof.
  intros Hwf Hn. unfold node_to_label, get_one_node, get_zero_node.
  destruct (valid_cases s Hwf n Hn) as [->|[->|(l & h & lo & E & Hn2)]];
    [by eexists..|].
  destruct (Nat.eqb_spec n 1); [lia|]. destruct (Nat.eqb_spec n 0); [lia|].
  cbn [orb]. unfold bind at 1. rewrite (node_level_valid s Hwf n Hn).
  cbv beta iota. rewrite (lvl_row s _ _ _ _ E).
  pose proof (wf_rows s Hwf _ _ _ _ E) as (Hl & _).
  destruct (variable_at_spec s l Hwf Hl) as (v & Hv & _).
  unfold bind. rewrite Hv. by eexists.
Qed.

Lemma dot_edge_run s n child label out :
  wf s -> valid s n -> valid s child ->
  exists out', dot_edge n child label out s = (Ok out', s).
Proof.
  intros Hwf Hn Hc. unfold dot_edge. destruct (child =? get_zero_node);
    [by eexists|].
  destruct (node_to_label_run s n Hwf Hn) as (a & Ha).
  destruct (node_to_label_run s child Hwf Hc) as (b & Hb).
  unfold bind. rewrite Ha, Hb. by eexists.
Qed.

Lemma to_dot_loop_run s items : forall out,
  wf s -> Forall (fun e : nat * row => _node_to_row s !! e.1 = Some e.2) items ->
  exists out', to_dot_loop items out s = (Ok out', s).
Proof.
  induction items as [|[n [[v n1] n0]] items IH]; intros out Hwf Hall;
    [by eexists|].
  apply Forall_cons in Hall as [E Hall]. simpl in E.
  pose proof (wf_rows s Hwf _ _ _ _ E) as (_ & H1 & H0 & _).
  assert (Hn : valid s n) by (right; by eexists).
  destruct (dot_edge_run s n n1 "1" out Hwf Hn H1) as (out1 & E1).
  destruct (dot_edge_run s n n0 "0" out1 Hwf Hn H0) as (out0 & E0).
  destruct (IH out0 Hwf Hall) as (out' & E').
  exists out'. simpl. unfold bind. by rewrite E1, E0.
Qed.

(** X24.  [to_dot] returns on every well-formed manager, in whatever
    order the dict gives its entries: no label lookup raises, and the
    manager is left as it was. *)
Theorem to_dot_returns s items :
  wf s -> items ≡ₚ map_to_list (_node_to_row s) ->
  exists out, to_dot items s = (Ok out, s).
Proof.
  intros Hwf Hitems.
  destruct (to_dot_loop_run s items ("digraph{" +:+ newline) Hwf) as (out & E).
  { rewrite Forall_forall. intros [n r] Hin. simpl.
    rewrite Hitems in Hin. by apply elem_of_map_to_list in Hin. }
  unfold to_dot, bind. rewrite E. by eexists.
Qed.

Lemma to_dot_returns_witness :
  exists out,
    to_dot (map_to_list (_node_to_row two_nodes)) two_nodes = (Ok out, two_nodes).
Proof.
  apply (to_dot_returns two_nodes (map_to_list (_node_to_row two_nodes))).
  - apply Inv_two_nodes.
  - done.
Defined.

(** * Termination in every manager a client can get to *)

(** ** Levels *)

Ltac hlvl_solve :=
  unfold lev, floor, hlvl in *;
  repeat match goal with
         | H : context [?a <? 2] |- _ => destruct (Nat.ltb_spec a 2); simpl in H
         | |- context [?a <? 2] => destruct (Nat.ltb_spec a 2); simpl
         end;
  level_solve.

Lemma hlvl_terminal L n : n < 2 -> hlvl L n = Infinity.
Proof. intros. hlvl_solve. Qed.

Lemma hlvl_node L n : 2 <= n -> hlvl L n = Finite (L n).
Proof. intros. hlvl_solve. Qed.

Lemma lev_terminal L s k n : 2 <= _node_id s -> n < 2 -> lev L s k n.
Proof. intros. split; [lia | hlvl_solve]. Qed.

Lemma lev_weaken L s k k' n : k' <= k -> lev L s k n -> lev L s k' n.
Proof. intros Hk [Hn Hl]. split; [done | hlvl_solve]. Qed.

Lemma lev_floor L s k n : lev L s k n -> floor L s k n.
Proof. by right. Qed.

Lemma lev_below L s l k n :
  n < _node_id s -> level_lt (Finite l) (hlvl L n) -> k <= S l -> lev L s k n.
Proof. intros Hn Hl Hk. split; [done | hlvl_solve]. Qed.

(** ** From a manager to a later one *)

Lemma later_refl L s : later L s L s.
Proof. by split_and!. Qed.

Lemma later_trans L1 s1 L2 s2 L3 s3 :
  later L1 s1 L2 s2 -> later L2 s2 L3 s3 -> later L1 s1 L3 s3.
Proof.
  intros (E1 & N1 & R1 & H1) (E2 & N2 & R2 & H2). split_and!.
  - congruence.
  - lia.
  - intros n Hn. rewrite R2 by lia. by apply R1.
  - intros n Hn. rewrite H2 by lia. by apply H1.
Qed.

Lemma later_same_store L s s' : same_store s s' -> later L s L s'.
Proof.
  intros (E1 & _ & E3 & E4 & _). split_and!; [done | lia | |done].
  intros n _. by rewrite E4.
Qed.

Lemma hlvl_later L s L' s' n :
  later L s L' s' -> n < _node_id s -> hlvl L' n = hlvl L n.
Proof. intros (_ & _ & _ & H) Hn. unfold hlvl. by rewrite H. Qed.

Lemma lev_later L s L' s' k n :
  later L s L' s' -> lev L s k n -> lev L' s' k n.
Proof.
  intros H [Hn Hl]. split; [destruct H as (_ & ? & _); lia|].
  by rewrite (hlvl_later L s L' s').
Qed.

Lemma floor_later L s L' s' k n :
  later L s L' s' -> floor L s k n -> floor L' s' k n.
Proof. intros H [->|Hl]; [by left | right; by eapply lev_later]. Qed.

Lemma deep_later L s L' s' k fuel :
  later L s L' s' -> deep s k fuel -> deep s' k fuel.
Proof. intros (E & _). unfold deep. by rewrite E. Qed.

Lemma valid_small L s n : history L s -> valid s n -> n < _node_id s.
Proof.
  intros H [Hn|[r E]].
  - pose proof (si_node_id _ (h_store _ _ H)). lia.
  - apply (si_ids _ (h_store _ _ H)) in E. lia.
Qed.

Lemma valid_later L s L' s' n :
  history L s -> later L s L' s' -> valid s n -> valid s' n.
Proof.
  intros H (_ & _ & R & _) Hn. pose proof (valid_small L s n H Hn) as Hs.
  destruct Hn as [Hn|Hn]; [by left | right]. by rewrite R.
Qed.

Lemma over_unprimed_later L s L' s' n :
  history L s -> later L s L' s' -> over_unprimed s n -> over_unprimed s' n.
Proof.
  intros H (E & _ & R & _). induction 1 as [n Hn|n l h lo v Er Ev Hp _ IHh _ IHlo].
  - by apply ou_terminal.
  - apply (ou_node s' n l h lo v); try done; [|by rewrite E].
    rewrite R; [done|]. apply (si_ids _ (h_store _ _ H)) in Er. lia.
Qed.

Lemma cofactors_kept_later L s L' s' e :
  later L s L' s' -> cofactors_kept L s e -> cofactors_kept L' s' e.
Proof.
  intros HL. pose proof HL as (_ & N & R & H).
  destruct e as [[n i] [h lo]]. intros (Hn & Hh & Hlo & Lh & Llo & Hrow).
  split_and!; try lia.
  - by rewrite !(hlvl_later L s L' s').
  - by rewrite !(hlvl_later L s L' s').
  - intros l h0 lo0. rewrite R by done. apply Hrow.
Qed.

Lemma ite_kept_later L s L' s' e :
  later L s L' s' -> ite_kept L s e -> ite_kept L' s' e.
Proof.
  intros HL. pose proof HL as (_ & N & _ & _).
  destruct e as [[[a b] c] r]. intros [?|[?|(Ha & Hb & Hc & Hr & Hl)]];
    [by left | by right; left | right; right].
  split_and!; try lia. by rewrite !(hlvl_later L s L' s').
Qed.

Lemma binary_kept_later L s L' s' e :
  later L s L' s' -> binary_kept L s e -> binary_kept L' s' e.
Proof.
  intros HL. pose proof HL as (_ & N & _ & _).
  destruct e as [[a b] r]. intros [?|(Ha & Hb & Hr & Hl)]; [by left | right].
  split_and!; try lia. by rewrite !(hlvl_later L s L' s').
Qed.

(** ** What an entry says of the result *)

Lemma binary_kept_lev L s k a b r :
  2 <= _node_id s -> binary_kept L s ((a, b), r) ->
  lev L s k a -> lev L s k b -> lev L s k r.
Proof.
  intros Hid [Hr|(_ & _ & Hr & Hl)] [_ La] [_ Lb].
  - by apply lev_terminal.
  - split; [done|]. eapply level_le_trans; [|exact Hl]. by apply level_min_glb.
Qed.

Lemma ite_kept_lev L s k a b c r :
  ite_kept L s ((a, b, c), r) ->
  lev L s k a -> lev L s k b -> lev L s k c -> lev L s k r.
Proof.
  intros [[_ ->]|[[_ ->]|(_ & _ & _ & Hr & Hl)]] [_ La] Hb Hc; [done..|].
  destruct Hb as [_ Lb], Hc as [_ Lc].
  split; [done|]. eapply level_le_trans; [|exact Hl].
  by repeat apply level_min_glb.
Qed.

Lemma cofactors_kept_lev L s k n i h lo :
  cofactors_kept L s ((n, i), (h, lo)) -> lev L s k n ->
  lev L s k h /\ lev L s k lo.
Proof.
  intros (_ & Hh & Hlo & Lh & Llo & _) [_ Ln].
  split; (split; [done | by eapply level_le_trans]).
Qed.

(** For a node that is stored (or a terminal) and lies at the level of
    the variable or deeper, the cofactors lie strictly deeper. *)
Lemma cofactors_kept_split L s n i h lo :
  history L s -> cofactors_kept L s ((n, i), (h, lo)) ->
  valid s n -> lev L s i n ->
  lev L s (S i) h /\ lev L s (S i) lo.
Proof.
  intros H (_ & Hh & Hlo & Lh & Llo & Hrow) Hv [Hn Ln].
  destruct Hv as [Hv|[[[l h0] lo0] E]].
  - rewrite (hlvl_terminal L n Hv) in Lh, Llo.
    split; (split; [done|]); hlvl_solve.
  - destruct (h_rows _ _ H _ _ _ _ E) as (El & Hh0 & Hlo0 & Lh0 & Llo0).
    pose proof (si_ids _ (h_store _ _ H) _ _ E) as Hn2.
    rewrite (hlvl_node L n) in Ln, Lh, Llo by lia. rewrite El in Ln, Lh, Llo.
    specialize (Hrow _ _ _ E).
    destruct (Nat.ltb_spec i l).
    + injection Hrow as -> ->.
      split; (split; [done|]); rewrite (hlvl_node L n) by lia; rewrite El;
        level_solve.
    + injection Hrow as -> ->. assert (i = l) as -> by level_solve.
      split; (split; [done|]); hlvl_solve.
Qed.

Lemma cofactors_kept_unprimed L s n i h lo :
  cofactors_kept L s ((n, i), (h, lo)) -> over_unprimed s n ->
  over_unprimed s h /\ over_unprimed s lo.
Proof.
  intros (_ & _ & _ & Lh & Llo & Hrow) Hu.
  destruct Hu as [n Hn|n l h0 lo0 v E Ev Hp Hu1 Hu0].
  - rewrite (hlvl_terminal L n Hn) in Lh, Llo.
    split; apply ou_terminal; hlvl_solve.
  - specialize (Hrow _ _ _ E). destruct (i <? l); injection Hrow as -> ->;
      [|done]. split; by eapply ou_node.
Qed.

(** ** Writes that keep the history *)

Lemma history_same_store L s s' :
  history L s -> same_store s s' ->
  Forall (cofactors_kept L s) (get_cofactors_cache s') ->
  Forall (ite_kept L s) (ite_cache s') ->
  Forall (binary_kept L s) (conjunction_cache s') ->
  Forall (binary_kept L s) (disjunction_cache s') ->
  Forall (binary_kept L s) (pre_image_cache s') ->
  history L s'.
Proof.
  intros H Hsame Hc Hi Hcj Hd Hp.
  pose proof (later_same_store L s s' Hsame) as HL.
  destruct Hsame as (E1 & E2 & E3 & E4 & E5 & E6). split.
  - by apply (store_inv_insensitive s), H.
  - rewrite E1, E2. apply H.
  - rewrite E1. apply H.
  - rewrite E4. apply H.
  - eapply Forall_impl; [exact Hc|]. intros e. by apply cofactors_kept_later.
  - eapply Forall_impl; [exact Hi|]. intros e. by apply ite_kept_later.
  - eapply Forall_impl; [exact Hcj|]. intros e. by apply binary_kept_later.
  - eapply Forall_impl; [exact Hd|]. intros e. by apply binary_kept_later.
  - eapply Forall_impl; [exact Hp|]. intros e. by apply binary_kept_later.
Qed.

Lemma history_set_get_cofactors_cache L c s :
  history L s -> Forall (cofactors_kept L s) c ->
  history L (set_get_cofactors_cache c s).
Proof. intros H Hc. apply (history_same_store L s); try done; apply H. Qed.

Lemma history_set_ite_cache L c s :
  history L s -> Forall (ite_kept L s) c -> history L (set_ite_cache c s).
Proof. intros H Hc. apply (history_same_store L s); try done; apply H. Qed.

Lemma history_set_conjunction_cache L c s :
  history L s -> Forall (binary_kept L s) c ->
  history L (set_conjunction_cache c s).
Proof. intros H Hc. apply (history_same_store L s); try done; apply H. Qed.

Lemma history_set_disjunction_cache L c s :
  history L s -> Forall (binary_kept L s) c ->
  history L (set_disjunction_cache c s).
Proof. intros H Hc. apply (history_same_store L s); try done; apply H. Qed.

Lemma history_set_pre_image_cache L c s :
  history L s -> Forall (binary_kept L s) c ->
  history L (set_pre_image_cache c s).
Proof. intros H Hc. apply (history_same_store L s); try done; apply H. Qed.

(** ** Rules for [ends] *)

Section ends.
Context {A B : Type} (strict : Prop).
Implicit Types (L : nat -> nat) (s : BDD).

Lemma ends_ret L s (a : A) (Q : (nat -> nat) -> BDD -> A -> Prop) :
  history L s -> Q L s a -> ends strict L s (ret a) Q.
Proof. intros H HQ. exists L. split_and!; [done | apply later_refl | done]. Qed.

Lemma ends_raise L s e (Q : (nat -> nat) -> BDD -> A -> Prop) :
  history L s -> e <> OutOfFuel -> ends strict L s (raise e) Q.
Proof.
  intros H He. exists L. split_and!; [done | apply later_refl | by intros _].
Qed.

Lemma ends_out_of_fuel L s (Q : (nat -> nat) -> BDD -> A -> Prop) :
  history L s -> ~ strict -> ends strict L s (raise OutOfFuel) Q.
Proof.
  intros H He. exists L. split_and!; [done | apply later_refl | by intros ?].
Qed.

Lemma ends_bind L s (m : M BDD A) (k : A -> M BDD B)
    (Q : (nat -> nat) -> BDD -> A -> Prop) (R : (nat -> nat) -> BDD -> B -> Prop) :
  ends strict L s m Q ->
  (forall L1 s1 a, history L1 s1 -> later L s L1 s1 -> Q L1 s1 a ->
     ends strict L1 s1 (k a) R) ->
  ends strict L s (bind m k) R.
Proof.
  intros (L1 & H1 & HL1 & HQ) Hk. unfold ends, bind.
  destruct (m s) as [[a|e] s1]; simpl in *.
  - destruct (Hk L1 s1 a H1 HL1 HQ) as (L2 & H2 & HL2 & HR).
    exists L2. split_and!; [done | by eapply later_trans | done].
  - by exists L1.
Qed.

Lemma ends_weaken L s (m : M BDD A)
    (Q R : (nat -> nat) -> BDD -> A -> Prop) :
  ends strict L s m Q ->
  (forall L1 s1 a, history L1 s1 -> later L s L1 s1 -> Q L1 s1 a -> R L1 s1 a) ->
  ends strict L s m R.
Proof.
  intros (L1 & H1 & HL1 & HQ) HR. exists L1. split_and!; [done..|].
  destruct (m s).1; [by apply HR | done].
Qed.

Lemma ends_mono (strict' : Prop) L s (m : M BDD A)
    (Q : (nat -> nat) -> BDD -> A -> Prop) :
  (strict -> strict') -> ends strict' L s m Q -> ends strict L s m Q.
Proof.
  intros Hs (L1 & H1 & HL1 & HQ). exists L1. split_and!; [done..|].
  destruct (m s).1; [done | auto].
Qed.

(** A step that leaves the manager as it is, such as a lookup. *)
Lemma ends_bind_pure L s (m : M BDD A) (k : A -> M BDD B)
    (R : (nat -> nat) -> BDD -> B -> Prop) :
  history L s -> (m s).2 = s -> (m s).1 <> Raise OutOfFuel ->
  (forall a, (m s).1 = Ok a -> ends strict L s (k a) R) ->
  ends strict L s (bind m k) R.
Proof.
  intros H Hs Hne Hk. unfold ends, bind.
  destruct (m s) as [[a|e] s1] eqn:Em; simpl in *; subst s1.
  - by apply Hk.
  - exists L. split_and!; [done | apply later_refl |]. intros _ ->. done.
Qed.
End ends.

(** ** The lookups *)

Lemma node_level_run L s n :
  history L s ->
  node_level n s = (Raise KeyError, s) \/
  node_level n s = (Ok (hlvl L n), s) /\ valid s n.
Proof.
  intros H. pose proof (h_store _ _ H) as Hst.
  unfold node_level, bind, gets, subscript; simpl.
  destruct (decide (n < 2)) as [Hn|Hn].
  - right. rewrite (hlvl_terminal L n Hn). split; [|by left].
    destruct n as [|[|?]]; [| |lia].
    + by rewrite (si_zero _ Hst).
    + by rewrite (si_one _ Hst).
  - rewrite (si_level _ Hst) by lia.
    destruct (_node_to_row s !! n) as [[[l h] lo]|] eqn:E; simpl; [right | by left].
    destruct (h_rows _ _ H _ _ _ _ E) as (<- & _).
    rewrite (hlvl_node L n) by lia. split; [done|]. right. by rewrite E.
Qed.

Lemma ends_node_level {B} strict L s n (k : level -> M BDD B)
    (R : (nat -> nat) -> BDD -> B -> Prop) :
  history L s ->
  (valid s n -> ends strict L s (k (hlvl L n)) R) ->
  ends strict L s (bind (node_level n) k) R.
Proof.
  intros H Hk. destruct (node_level_run L s n H) as [E|[E Hv]].
  - apply ends_bind_pure; rewrite ?E; try done.
  - apply ends_bind_pure; rewrite ?E; try done. intros a [= <-]. by apply Hk.
Qed.

Lemma ends_variable_at {B} strict L s i (k : BDDVariable -> M BDD B)
    (R : (nat -> nat) -> BDD -> B -> Prop) :
  history L s ->
  (forall m v, i = Finite m -> _variable_ordering s !! m = Some v ->
     var_id v = m -> ends strict L s (k v) R) ->
  ends strict L s (bind (variable_at i) k) R.
Proof.
  intros H Hk.
  assert (E : variable_at i s =
    (match i with
     | Infinity => Raise TypeError
     | Finite m => match _variable_ordering s !! m with
                   | Some v => Ok v
                   | None => Raise IndexError
                   end
     end, s)).
  { unfold variable_at, bind, gets, list_index. simpl.
    destruct i as [m|]; [|done]. by destruct (_variable_ordering s !! m). }
  apply ends_bind_pure; rewrite ?E; try done.
  - destruct i as [m|]; [|done]. by destruct (_variable_ordering s !! m).
  - simpl. intros v Hv. destruct i as [m|]; [|done].
    destruct (_variable_ordering s !! m) as [v'|] eqn:Em; [|done].
    injection Hv as ->. apply (Hk m v); try done. by apply (h_ordering _ _ H).
Qed.

(** ** [get_cofactors] and [make] *)

Lemma get_cofactors_body_kept L s n i p :
  history L s -> cofactors_of s n i = Some p -> cofactors_kept L s ((n, i), p).
Proof.
  intros H. pose proof (h_store _ _ H) as Hst.
  pose proof (si_node_id _ Hst) as Hid. unfold cofactors_of.
  destruct (decide (n < 2)) as [Hn|Hn].
  - assert ((n =? 0) || (n =? 1) = true) as ->.
    { destruct n as [|[|?]]; [done | done | lia]. }
    intros [= <-]. split_and!; try lia; try apply level_le_refl.
    intros l h0 lo0 E. apply (si_ids _ Hst) in E. lia.
  - assert ((n =? 0) || (n =? 1) = false) as ->.
    { destruct n as [|[|?]]; [lia | lia | done]. }
    rewrite (si_level _ Hst) by lia.
    destruct (_node_to_row s !! n) as [[[l h] lo]|] eqn:E; simpl; [|done].
    destruct (h_rows _ _ H _ _ _ _ E) as (El & Hh & Hlo & Lh & Llo).
    pose proof (si_ids _ Hst _ _ E) as Hn2.
    destruct (Nat.ltb_spec i l) as [Hi|Hi]; intros [= <-].
    + split_and!; try lia; try apply level_le_refl.
      intros l' h' lo' E'. rewrite E in E'. injection E' as <- <- <-.
      by destruct (Nat.ltb_spec i l); [|lia].
    + split_and!; try lia.
      * rewrite (hlvl_node L n), El by lia. by apply level_lt_le.
      * rewrite (hlvl_node L n), El by lia. by apply level_lt_le.
      * intros l' h' lo' E'. rewrite E in E'. injection E' as <- <- <-.
        by destruct (Nat.ltb_spec i l); [lia|].
Qed.

Lemma ends_get_cofactors {B} strict L s n v (k : nat * nat -> M BDD B)
    (R : (nat -> nat) -> BDD -> B -> Prop) :
  history L s ->
  (forall c h lo,
     history L (set_get_cofactors_cache c s) ->
     cofactors_kept L s ((n, var_id v), (h, lo)) ->
     ends strict L (set_get_cofactors_cache c s) (k (h, lo)) R) ->
  ends strict L s (bind (get_cofactors n v) k) R.
Proof.
  intros H Hk.
  assert (Hrun :
    (exists c h lo,
       get_cofactors n v s = (Ok (h, lo), set_get_cofactors_cache c s) /\
       history L (set_get_cofactors_cache c s) /\
       cofactors_kept L s ((n, var_id v), (h, lo))) \/
    get_cofactors n v s = (Raise KeyError, s)).
  { unfold get_cofactors, lru_cache.
    destruct (lru_find _ _) as [[h lo]|] eqn:Hf.
    - pose proof (h_cofactors _ _ H) as Hc. left.
      assert (He : cofactors_kept L s ((n, var_id v), (h, lo))).
      { rewrite Forall_forall in Hc. by apply Hc, lru_find_Some. }
      eexists _, h, lo. split_and!; [done | | done].
      apply history_set_get_cofactors_cache; [done|]. by apply Forall_lru_hit.
    - rewrite get_cofactors_body.
      destruct (cofactors_of s n (var_id v)) as [[h lo]|] eqn:Ec; [left | by right].
      pose proof (get_cofactors_body_kept L s n _ _ H Ec) as He.
      eexists _, h, lo. split_and!; [done | | done].
      apply history_set_get_cofactors_cache; [done|].
      apply Forall_lru_store; [done | apply H]. }
  destruct Hrun as [(c & h & lo & E & Hh & He)|E].
  - specialize (Hk c h lo Hh He). unfold ends, bind in *. rewrite E. exact Hk.
  - unfold ends, bind. rewrite E. exists L.
    split_and!; [done | apply later_refl | by intros _].
Qed.

Lemma later_allocated L s l n1 n0 :
  later L s (allocated_at (_node_id s) l L) (allocated l n1 n0 s).
Proof.
  split_and!; simpl; [done | lia | |].
  - intros n Hn. rewrite lookup_insert_ne; [done | lia].
  - intros n Hn. unfold allocated_at. by destruct (Nat.eqb_spec n (_node_id s)); [lia|].
Qed.

Lemma history_allocated L s l n1 n0 :
  history L s -> n1 <> n0 -> _row_to_node s !! (l, n1, n0) = None ->
  lev L s (S l) n1 -> lev L s (S l) n0 ->
  history (allocated_at (_node_id s) l L) (allocated l n1 n0 s).
Proof.
  intros H Hne Hnone [H1 L1] [H0 L0].
  pose proof (later_allocated L s l n1 n0) as HL.
  pose proof (h_store _ _ H) as Hst. split.
  - by apply allocated_store_inv.
  - apply H.
  - apply H.
  - intros n l' h lo. simpl. destruct (decide (n = _node_id s)) as [->|Hn].
    + rewrite lookup_insert_eq. intros [= <- <- <-].
      rewrite !(hlvl_later L s _ _ _ HL) by done.
      unfold allocated_at. rewrite Nat.eqb_refl. split_and!; try done; hlvl_solve.
    + rewrite lookup_insert_ne by done. intros E.
      pose proof (si_ids _ Hst _ _ E) as Hn2.
      destruct (h_rows _ _ H _ _ _ _ E) as (El & Hh & Hlo & Lh & Llo).
      rewrite !(hlvl_later L s _ _ _ HL) by lia.
      split_and!; try done. unfold allocated_at.
      by destruct (Nat.eqb_spec n (_node_id s)).
  - eapply Forall_impl; [apply (h_cofactors _ _ H)|].
    intros e. by apply cofactors_kept_later.
  - eapply Forall_impl; [apply (h_ite _ _ H)|].
    intros e. by apply ite_kept_later.
  - eapply Forall_impl; [apply (h_conjunction _ _ H)|].
    intros e. by apply binary_kept_later.
  - eapply Forall_impl; [apply (h_disjunction _ _ H)|].
    intros e. by apply binary_kept_later.
  - eapply Forall_impl; [apply (h_pre_image _ _ H)|].
    intros e. by apply binary_kept_later.
Qed.

(** [make] on two allocated identifiers that lie deeper than [v]: the row
    it stores is ordered whether the children are still stored or not. *)
Lemma make_ends strict L s v n1 n0 :
  history L s -> lev L s (S (var_id v)) n1 -> lev L s (S (var_id v)) n0 ->
  ends strict L s (make v n1 n0) (fun L' s' r => lev L' s' (var_id v) r).
Proof.
  intros H H1 H0. pose proof (h_store _ _ H) as Hst.
  unfold ends. rewrite make_eq.
  destruct (Nat.eqb_spec n1 n0) as [->|Hne].
  { exists L. split_and!; [done | apply later_refl |]. simpl.
    eapply lev_weaken; [|exact H0]. lia. }
  destruct (_row_to_node s !! (var_id v, n1, n0)) as [n|] eqn:E.
  { exists L. split_and!; [done | apply later_refl |]. simpl.
    apply (si_inverse _ Hst) in E. pose proof (si_ids _ Hst _ _ E) as Hn.
    destruct (h_rows _ _ H _ _ _ _ E) as (El & _).
    split; [lia|]. rewrite (hlvl_node L n), El by lia. apply level_le_refl. }
  exists (allocated_at (_node_id s) (var_id v) L). simpl. split_and!.
  - by apply history_allocated.
  - apply later_allocated.
  - split; [simpl; lia|]. pose proof (si_node_id _ Hst).
    rewrite hlvl_node by lia. unfold allocated_at. rewrite Nat.eqb_refl.
    apply level_le_refl.
Qed.

(** ** The memoised operators *)

(** A memoised method whose body keeps the history and leaves an entry
    that is right behind does so itself, on a hit and on a miss; a hit is
    never cut short. *)
Lemma ends_lru_cache {K} `{EqDecision K} strict
    (get : BDD -> list (K * nat)) (set : list (K * nat) -> BDD -> BDD)
    (entry : (nat -> nat) -> BDD -> K * nat -> Prop) (k : K) (body : M BDD nat)
    L s :
  (forall c s, same_store s (set c s)) ->
  (forall c L s, history L s -> Forall (entry L s) c -> history L (set c s)) ->
  (forall L s, history L s -> Forall (entry L s) (get s)) ->
  (forall L s L' s' e, later L s L' s' -> entry L s e -> entry L' s' e) ->
  history L s ->
  ends strict L s body (fun L' s' r => entry L' s' (k, r)) ->
  ends strict L s (lru_cache get set k body) (fun L' s' r => entry L' s' (k, r)).
Proof.
  intros Hsame Hset Hget Hmono H Hbody. unfold ends, lru_cache.
  destruct (lru_find k (get s)) as [v|] eqn:Hf.
  - exists L. simpl.
    pose proof (Hget L s H) as Hc.
    assert (He : entry L s (k, v)).
    { rewrite Forall_forall in Hc. by apply Hc, lru_find_Some. }
    split_and!.
    + apply Hset; [done|]. by apply Forall_lru_hit.
    + apply later_same_store, Hsame.
    + apply (Hmono L s); [apply later_same_store, Hsame | done].
  - destruct Hbody as (L1 & H1 & HL1 & HQ).
    destruct (body s) as [[v|e] s1]; simpl in *; [|by exists L1].
    exists L1. split_and!.
    + apply Hset; [done|]. apply Forall_lru_store; [done | by apply Hget].
    + eapply later_trans; [exact HL1 | apply later_same_store, Hsame].
    + apply (Hmono L1 s1); [apply later_same_store, Hsame | done].
Qed.

Lemma floor_min L s k a b m :
  floor L s k a -> floor L s k b ->
  level_min (hlvl L a) (hlvl L b) = Finite m -> k <= m.
Proof.
  intros Fa Fb Em. destruct Fa as [->|[_ La]]; [lia|].
  destruct Fb as [->|[_ Lb]]; [lia|].
  assert (Hkm : level_le (Finite k) (Finite m)).
  { rewrite <- Em. by apply level_min_glb. }
  clear -Hkm. level_solve.
Qed.

Lemma deep_step s k m fuel :
  deep s k (S fuel) -> k <= m -> m < length (_variable_ordering s) ->
  deep s (S m) fuel.
Proof. unfold deep. lia. Qed.

Lemma apply_step_ends fuel rec L s a b :
  binary_rec fuel rec -> history L s ->
  ends (exists k, floor L s k a /\ floor L s k b /\ deep s k (S fuel)) L s
    (apply_step rec a b)
    (fun L' s' r => binary_kept L' s' ((a, b), r)).
Proof.
  intros Hrec H. unfold apply_step.
  apply ends_node_level; [done|]. intros Va.
  apply ends_node_level; [done|]. intros Vb.
  apply ends_variable_at; [done|]. intros m v Em Ev Hid. cbv zeta.
  pose proof (valid_small L s a H Va) as Sa.
  pose proof (valid_small L s b H Vb) as Sb.
  assert (La : lev L s m a).
  { split; [done|]. rewrite <- Em. apply level_min_le_l. }
  assert (Lb : lev L s m b).
  { split; [done|]. rewrite <- Em. apply level_min_le_r. }
  assert (Hdeep : (exists k, floor L s k a /\ floor L s k b /\ deep s k (S fuel)) ->
                  deep s (S m) fuel).
  { intros (k & Fa & Fb & Hd). apply (deep_step s k); [done | |].
    - by apply (floor_min L s k a b).
    - by apply lookup_lt_Some in Ev. }
  apply (ends_weaken _ _ _ _ (fun L' s' r => lev L' s' m r)).
  2:{ intros L' s' r H' HL' Hr. right. pose proof HL' as (_ & N & _).
      split_and!; try lia; [apply Hr|].
      rewrite !(hlvl_later L s L' s') by done. rewrite Em. apply Hr. }
  subst m.
  apply ends_get_cofactors; [done|]. intros c1 a1 a0 H1 Ka. cbv beta iota.
  apply ends_get_cofactors; [done|]. intros c2 b1 b0 H2 Kb. cbv beta iota.
  destruct (cofactors_kept_split L s a _ a1 a0 H Ka Va La) as [La1 La0].
  destruct (cofactors_kept_split L s b _ b1 b0 H Kb Vb Lb) as [Lb1 Lb0].
  eapply ends_bind.
  { eapply ends_mono; [|by apply Hrec]. intros Hs.
    exists (S (var_id v)). split_and!; [by right | by right | by apply Hdeep]. }
  cbv beta. intros L3 s3 w1 H3 HL3 Kw1.
  pose proof (lev_later _ _ _ _ _ _ HL3 La1) as La1'.
  pose proof (lev_later _ _ _ _ _ _ HL3 Lb1) as Lb1'.
  pose proof (lev_later _ _ _ _ _ _ HL3 La0) as La0'.
  pose proof (lev_later _ _ _ _ _ _ HL3 Lb0) as Lb0'.
  pose proof (binary_kept_lev _ _ _ _ _ _ (si_node_id _ (h_store _ _ H3))
                Kw1 La1' Lb1') as Lw1.
  eapply ends_bind.
  { eapply ends_mono; [|by apply Hrec]. intros Hs.
    exists (S (var_id v)). split_and!; [by right | by right |].
    apply (deep_later _ _ _ _ _ _ HL3). by apply Hdeep. }
  cbv beta. intros L4 s4 w0 H4 HL4 Kw0.
  pose proof (lev_later _ _ _ _ _ _ HL4 La0') as La0''.
  pose proof (lev_later _ _ _ _ _ _ HL4 Lb0') as Lb0''.
  pose proof (lev_later _ _ _ _ _ _ HL4 Lw1) as Lw1'.
  pose proof (binary_kept_lev _ _ _ _ _ _ (si_node_id _ (h_store _ _ H4))
                Kw0 La0'' Lb0'') as Lw0.
  by apply make_ends.
Qed.

Lemma conjunction_ends fuel : binary_rec fuel (conjunction fuel).
Proof.
  induction fuel as [|fuel IH]; intros L s a b H.
  { apply ends_out_of_fuel; [done|]. intros (k & _ & _ & Hd).
    unfold deep in Hd. lia. }
  change (conjunction (S fuel) a b) with
    (lru_cache conjunction_cache set_conjunction_cache (a, b)
       (if (a =? get_zero_node) || (b =? get_zero_node) then ret get_zero_node
        else if (a =? b) && (a =? get_one_node) then ret get_one_node
        else apply_step (conjunction fuel) a b)).
  apply (ends_lru_cache _ _ _ binary_kept); try done.
  - intros c L1 s1. apply history_set_conjunction_cache.
  - apply h_conjunction.
  - apply binary_kept_later.
  - destruct ((a =? get_zero_node) || (b =? get_zero_node)).
    { apply ends_ret; [done|]. left. unfold get_zero_node. lia. }
    destruct ((a =? b) && (a =? get_one_node)).
    { apply ends_ret; [done|]. left. unfold get_one_node. lia. }
    by apply apply_step_ends.
Qed.

Lemma disjunction_ends fuel : binary_rec fuel (disjunction fuel).
Proof.
  induction fuel as [|fuel IH]; intros L s a b H.
  { apply ends_out_of_fuel; [done|]. intros (k & _ & _ & Hd).
    unfold deep in Hd. lia. }
  change (disjunction (S fuel) a b) with
    (lru_cache disjunction_cache set_disjunction_cache (a, b)
       (if (a =? get_one_node) || (b =? get_one_node) then ret get_one_node
        else if (a =? b) && (a =? get_zero_node) then ret get_zero_node
        else apply_step (disjunction fuel) a b)).
  apply (ends_lru_cache _ _ _ binary_kept); try done.
  - intros c L1 s1. apply history_set_disjunction_cache.
  - apply h_disjunction.
  - apply binary_kept_later.
  - destruct ((a =? get_one_node) || (b =? get_one_node)).
    { apply ends_ret; [done|]. left. unfold get_one_node. lia. }
    destruct ((a =? b) && (a =? get_zero_node)).
    { apply ends_ret; [done|]. left. unfold get_zero_node. lia. }
    by apply apply_step_ends.
Qed.

Lemma floor_min3 L s k a b c m :
  floor L s k a -> floor L s k b -> floor L s k c ->
  level_min (level_min (hlvl L a) (hlvl L b)) (hlvl L c) = Finite m -> k <= m.
Proof.
  intros Fa Fb Fc Em. destruct Fa as [->|[_ La]]; [lia|].
  destruct Fb as [->|[_ Lb]]; [lia|]. destruct Fc as [->|[_ Lc]]; [lia|].
  assert (Hkm : level_le (Finite k) (Finite m)).
  { rewrite <- Em. by repeat apply level_min_glb. }
  clear -Hkm. level_solve.
Qed.

Lemma ite_step_ends fuel rec L s a b c :
  ite_rec fuel rec -> history L s ->
  ends (exists k, floor L s k a /\ floor L s k b /\ floor L s k c /\
                  deep s k (S fuel)) L s
    (ite_step rec a b c)
    (fun L' s' r => ite_kept L' s' ((a, b, c), r)).
Proof.
  intros Hrec H. unfold ite_step.
  apply ends_node_level; [done|]. intros Va.
  apply ends_node_level; [done|]. intros Vb.
  apply ends_node_level; [done|]. intros Vc.
  apply ends_variable_at; [done|]. intros m v Em Ev Hid. cbv zeta.
  pose proof (valid_small L s a H Va) as Sa.
  pose proof (valid_small L s b H Vb) as Sb.
  pose proof (valid_small L s c H Vc) as Sc.
  assert (La : lev L s m a).
  { split; [done|]. rewrite <- Em.
    eapply level_le_trans; [apply level_min_le_l | apply level_min_le_l]. }
  assert (Lb : lev L s m b).
  { split; [done|]. rewrite <- Em.
    eapply level_le_trans; [apply level_min_le_l | apply level_min_le_r]. }
  assert (Lc : lev L s m c).
  { split; [done|]. rewrite <- Em. apply level_min_le_r. }
  assert (Hdeep : (exists k, floor L s k a /\ floor L s k b /\ floor L s k c /\
                             deep s k (S fuel)) ->
                  deep s (S m) fuel).
  { intros (k & Fa & Fb & Fc & Hd). apply (deep_step s k); [done | |].
    - by apply (floor_min3 L s k a b c).
    - by apply lookup_lt_Some in Ev. }
  apply (ends_weaken _ _ _ _ (fun L' s' r => lev L' s' m r)).
  2:{ intros L' s' r H' HL' Hr. right. right. pose proof HL' as (_ & N & _).
      split_and!; try lia; [apply Hr|].
      rewrite !(hlvl_later L s L' s') by done. rewrite Em. apply Hr. }
  subst m.
  apply ends_get_cofactors; [done|]. intros c1 a1 a0 H1 Ka. cbv beta iota.
  apply ends_get_cofactors; [done|]. intros c2 b1 b0 H2 Kb. cbv beta iota.
  apply ends_get_cofactors; [done|]. intros c3 c1' c0' H3 Kc. cbv beta iota.
  destruct (cofactors_kept_split L s a _ a1 a0 H Ka Va La) as [La1 La0].
  destruct (cofactors_kept_split L s b _ b1 b0 H Kb Vb Lb) as [Lb1 Lb0].
  destruct (cofactors_kept_split L s c _ c1' c0' H Kc Vc Lc) as [Lc1 Lc0].
  eapply ends_bind.
  { eapply ends_mono; [|by apply Hrec]. intros Hs.
    exists (S (var_id v)).
    split_and!; [by right | by right | by right | by apply Hdeep]. }
  cbv beta. intros L4 s4 w1 H4 HL4 Kw1.
  pose proof (lev_later _ _ _ _ _ _ HL4 La1) as La1'.
  pose proof (lev_later _ _ _ _ _ _ HL4 Lb1) as Lb1'.
  pose proof (lev_later _ _ _ _ _ _ HL4 Lc1) as Lc1'.
  pose proof (lev_later _ _ _ _ _ _ HL4 La0) as La0'.
  pose proof (lev_later _ _ _ _ _ _ HL4 Lb0) as Lb0'.
  pose proof (lev_later _ _ _ _ _ _ HL4 Lc0) as Lc0'.
  pose proof (ite_kept_lev _ _ _ _ _ _ _ Kw1 La1' Lb1' Lc1') as Lw1.
  eapply ends_bind.
  { eapply ends_mono; [|by apply Hrec]. intros Hs.
    exists (S (var_id v)). split_and!; [by right | by right | by right |].
    apply (deep_later _ _ _ _ _ _ HL4). by apply Hdeep. }
  cbv beta. intros L5 s5 w0 H5 HL5 Kw0.
  pose proof (lev_later _ _ _ _ _ _ HL5 La0') as La0''.
  pose proof (lev_later _ _ _ _ _ _ HL5 Lb0') as Lb0''.
  pose proof (lev_later _ _ _ _ _ _ HL5 Lc0') as Lc0''.
  pose proof (lev_later _ _ _ _ _ _ HL5 Lw1) as Lw1'.
  pose proof (ite_kept_lev _ _ _ _ _ _ _ Kw0 La0'' Lb0'' Lc0'') as Lw0.
  destruct (w0 =? w1); [|by apply make_ends].
  apply ends_ret; [done|]. eapply lev_weaken; [|exact Lw0]. lia.
Qed.

Lemma ite_ends fuel : ite_rec fuel (ite fuel).
Proof.
  induction fuel as [|fuel IH]; intros L s a b c H.
  { apply ends_out_of_fuel; [done|]. intros (k & _ & _ & _ & Hd).
    unfold deep in Hd. lia. }
  change (ite (S fuel) a b c) with
    (lru_cache ite_cache set_ite_cache (a, b, c)
       (if a =? get_one_node then ret b
        else if a =? get_zero_node then ret c
        else ite_step (ite fuel) a b c)).
  apply (ends_lru_cache _ _ _ ite_kept); try done.
  - intros c' L1 s1. apply history_set_ite_cache.
  - apply h_ite.
  - apply ite_kept_later.
  - destruct (Nat.eqb_spec a get_one_node) as [->|_].
    { apply ends_ret; [done|]. by left. }
    destruct (Nat.eqb_spec a get_zero_node) as [->|_].
    { apply ends_ret; [done|]. by right; left. }
    by apply ite_step_ends.
Qed.

(** ** [pre_image] *)

Lemma under_later P L s L' s' k fuel n :
  history L s -> later L s L' s' ->
  under P s k fuel n -> under P s' k fuel n.
Proof.
  intros H HL Hu HP. destruct (Hu HP) as [Ho Hd].
  split; [by eapply over_unprimed_later | by eapply deep_later].
Qed.

Ltac forward H HL :=
  repeat match goal with
  | X : lev _ _ _ _ |- _ => progress (apply (lev_later _ _ _ _ _ _ HL) in X)
  | X : under _ _ _ _ _ |- _ =>
      progress (apply (under_later _ _ _ _ _ _ _ _ H HL) in X)
  end.

Lemma rec_call_ends fuel rec strict L s k x y :
  pre_image_call fuel rec -> history L s ->
  lev L s k x -> lev L s k y -> under strict s k fuel y ->
  ends strict L s (rec x y) (fun L' s' r => lev L' s' k r).
Proof.
  intros Hrec H Lx Ly Hu.
  eapply ends_weaken.
  { eapply ends_mono; [|by apply Hrec]. intros Hs. destruct (Hu Hs) as [Ho Hd].
    split; [done|]. exists k. split_and!; [by right | by right | done]. }
  cbv beta. intros L1 s1 r H1 HL1 Kr. forward H HL1.
  by apply (binary_kept_lev _ _ _ x y); [apply (si_node_id _ (h_store _ _ H1))|..].
Qed.

Lemma disjunction_call_ends fuel strict L s k x y z :
  history L s -> lev L s k x -> lev L s k y -> under strict s k fuel z ->
  ends strict L s (disjunction fuel x y) (fun L' s' r => lev L' s' k r).
Proof.
  intros H Lx Ly Hu.
  eapply ends_weaken.
  { eapply ends_mono; [|by apply disjunction_ends]. intros Hs.
    destruct (Hu Hs) as [_ Hd].
    exists k. split_and!; [by right | by right | done]. }
  cbv beta. intros L1 s1 r H1 HL1 Kr. forward H HL1.
  by apply (binary_kept_lev _ _ _ x y); [apply (si_node_id _ (h_store _ _ H1))|..].
Qed.

(** A stored node at the level of a primed variable is not over unprimed
    variables. *)
Lemma over_unprimed_primed L s b m v :
  history L s -> hlvl L b = Finite m ->
  _variable_ordering s !! m = Some v -> is_primed v = true ->
  ~ over_unprimed s b.
Proof.
  intros H Eb Ev Hp Hu. destruct Hu as [n Hn|n l h lo v' E Ev' Hp' _ _].
  - by rewrite (hlvl_terminal L n Hn) in Eb.
  - pose proof (si_ids _ (h_store _ _ H) _ _ E) as Hn.
    destruct (h_rows _ _ H _ _ _ _ E) as (El & _).
    rewrite (hlvl_node L n) in Eb by lia. injection Eb as Eb.
    rewrite <- Eb, El, Ev' in Ev. injection Ev as <-. congruence.
Qed.

(** The primed case, after the cofactors of the transition relation were
    taken. *)
Lemma pre_image_primed_ends fuel rec strict L s k a1 a0 b :
  pre_image_call fuel rec -> history L s ->
  lev L s k a1 -> lev L s k a0 -> lev L s k b -> under strict s k fuel b ->
  ends strict L s
    (w1 <- rec a1 b ;; w0 <- rec a0 b ;; disjunction fuel w1 w0)
    (fun L' s' r => lev L' s' k r).
Proof.
  intros Hrec H La1 La0 Lb Hu.
  eapply ends_bind; [by apply (rec_call_ends fuel rec strict L s k a1 b)|].
  cbv beta. intros L1 s1 w1 H1 HL1 Lw1. forward H HL1.
  eapply ends_bind; [by apply (rec_call_ends fuel rec strict L1 s1 k a0 b)|].
  cbv beta. intros L2 s2 w0 H2 HL2 Lw0. forward H1 HL2.
  by apply (disjunction_call_ends fuel strict L2 s2 k w1 w0 b).
Qed.

(** The unprimed case, after the four pairs of cofactors were taken. *)
Lemma pre_image_unprimed_ends fuel rec strict L s v a11 a10 a01 a00 b1 b0 :
  pre_image_call fuel rec -> history L s ->
  lev L s (S (var_id v)) a11 -> lev L s (S (var_id v)) a10 ->
  lev L s (S (var_id v)) a01 -> lev L s (S (var_id v)) a00 ->
  lev L s (S (var_id v)) b1 -> lev L s (S (var_id v)) b0 ->
  under strict s (S (var_id v)) fuel b1 ->
  under strict s (S (var_id v)) fuel b0 ->
  ends strict L s
    (w10 <- rec a10 b0 ;;
     w11 <- rec a11 b1 ;;
     w00 <- rec a00 b0 ;;
     w01 <- rec a01 b1 ;;
     n1 <- disjunction fuel w10 w11 ;;
     n0 <- disjunction fuel w00 w01 ;;
     make v n1 n0)
    (fun L' s' r => lev L' s' (var_id v) r).
Proof.
  intros Hrec H La11 La10 La01 La00 Lb1 Lb0 Hu1 Hu0.
  eapply ends_bind; [by apply (rec_call_ends fuel rec strict L s (S (var_id v)) a10 b0)|].
  cbv beta. intros L1 s1 w10 H1 HL1 Lw10. forward H HL1.
  eapply ends_bind; [by apply (rec_call_ends fuel rec strict L1 s1 (S (var_id v)) a11 b1)|].
  cbv beta. intros L2 s2 w11 H2 HL2 Lw11. forward H1 HL2.
  eapply ends_bind; [by apply (rec_call_ends fuel rec strict L2 s2 (S (var_id v)) a00 b0)|].
  cbv beta. intros L3 s3 w00 H3 HL3 Lw00. forward H2 HL3.
  eapply ends_bind; [by apply (rec_call_ends fuel rec strict L3 s3 (S (var_id v)) a01 b1)|].
  cbv beta. intros L4 s4 w01 H4 HL4 Lw01. forward H3 HL4.
  eapply ends_bind;
    [by apply (disjunction_call_ends fuel strict L4 s4 (S (var_id v)) w10 w11 b1)|].
  cbv beta. intros L5 s5 n1 H5 HL5 Ln1. forward H4 HL5.
  eapply ends_bind;
    [by apply (disjunction_call_ends fuel strict L5 s5 (S (var_id v)) w00 w01 b1)|].
  cbv beta. intros L6 s6 n0 H6 HL6 Ln0. forward H5 HL6.
  by apply make_ends.
Qed.

Lemma pre_image_step_ends fuel rec L s a b :
  pre_image_call fuel rec -> history L s ->
  ends (over_unprimed s b /\
        exists k, floor L s k a /\ floor L s k b /\ deep s k (S fuel)) L s
    (pre_image_step fuel rec a b)
    (fun L' s' r => binary_kept L' s' ((a, b), r)).
Proof.
  intros Hrec H. unfold pre_image_step.
  set (strict := over_unprimed s b /\ _).
  apply ends_node_level; [done|]. intros Va.
  apply ends_node_level; [done|]. intros Vb.
  apply ends_variable_at; [done|]. intros m v Em Ev Hid. cbv zeta.
  pose proof (valid_small L s a H Va) as Sa.
  pose proof (valid_small L s b H Vb) as Sb.
  assert (La : lev L s m a).
  { split; [done|]. rewrite <- Em. apply level_min_le_l. }
  assert (Lb : lev L s m b).
  { split; [done|]. rewrite <- Em. apply level_min_le_r. }
  assert (Hdeep : strict -> deep s (S m) fuel).
  { intros (_ & k & Fa & Fb & Hd). apply (deep_step s k); [done | |].
    - by apply (floor_min L s k a b).
    - by apply lookup_lt_Some in Ev. }
  apply (ends_weaken _ _ _ _ (fun L' s' r => lev L' s' m r)).
  2:{ intros L' s' r H' HL' Hr. right. pose proof HL' as (_ & N & _).
      split_and!; try lia; [apply Hr|].
      rewrite !(hlvl_later L s L' s') by done. rewrite Em. apply Hr. }
  rewrite Em. subst m.
  destruct (is_primed v) eqn:Hp.
  - (* a primed variable: it is quantified away *)
    apply ends_get_cofactors; [done|]. intros c1 a1 a0 H1 Ka. cbv beta iota.
    assert (HL1 : later L s L (set_get_cofactors_cache c1 s)).
    { by apply later_same_store. }
    destruct (decide (hlvl L b = Finite (var_id v))) as [Eb|Nb].
    + destruct (cofactors_kept_lev L s _ a _ a1 a0 Ka La) as [La1 La0].
      apply (pre_image_primed_ends fuel rec strict L _ (var_id v)); try done.
      intros Hs. destruct (over_unprimed_primed L s b _ v H Eb Ev Hp).
      apply Hs.
    + destruct (cofactors_kept_split L s a _ a1 a0 H Ka Va La) as [La1 La0].
      assert (Lb' : lev L s (S (var_id v)) b).
      { destruct Lb as [? Lb]. split; [done|]. clear -Lb Nb.
        destruct (hlvl L b) as [l|]; [|done].
        assert (l <> var_id v) by congruence. level_solve. }
      eapply ends_weaken.
      { apply (pre_image_primed_ends fuel rec strict L _ (S (var_id v)));
          try done.
        apply (under_later strict L s L _ _ _ _ H HL1).
        intros Hs. split; [apply Hs | by apply Hdeep]. }
      cbv beta. intros L2 s2 r _ _ Hr. eapply lev_weaken; [|exact Hr]. lia.
  - (* an unprimed variable: its primed successor is the next one *)
    apply ends_variable_at; [done|]. intros m' v' Em' Ev' Hid'.
    injection Em' as <-.
    apply ends_get_cofactors; [done|]. intros c1 a1 a0 H1 Ka. cbv beta iota.
    apply ends_get_cofactors; [done|]. intros c2 b1 b0 H2 Kb. cbv beta iota.
    apply ends_get_cofactors; [done|]. intros c3 a11 a10 H3 Ka1. cbv beta iota.
    apply ends_get_cofactors; [done|]. intros c4 a01 a00 H4 Ka0. cbv beta iota.
    destruct (cofactors_kept_split L s a _ a1 a0 H Ka Va La) as [La1 La0].
    destruct (cofactors_kept_split L s b _ b1 b0 H Kb Vb Lb) as [Lb1 Lb0].
    destruct (cofactors_kept_lev L s _ a1 _ a11 a10 Ka1 La1) as [La11 La10].
    destruct (cofactors_kept_lev L s _ a0 _ a01 a00 Ka0 La0) as [La01 La00].
    assert (HL4 : later L s L
              (set_get_cofactors_cache c4
                 (set_get_cofactors_cache c3
                    (set_get_cofactors_cache c2
                       (set_get_cofactors_cache c1 s))))).
    { by apply later_same_store. }
    assert (Hu : strict -> over_unprimed s b1 /\ over_unprimed s b0).
    { intros Hs. apply (cofactors_kept_unprimed L s b (var_id v)); [done|].
      apply Hs. }
    apply (pre_image_unprimed_ends fuel rec strict L _ v a11 a10 a01 a00 b1 b0);
      try done.
    + apply (under_later strict L s L _ _ _ _ H HL4).
      intros Hs. split; [by apply Hu | by apply Hdeep].
    + apply (under_later strict L s L _ _ _ _ H HL4).
      intros Hs. split; [by apply Hu | by apply Hdeep].
Qed.

Lemma pre_image_ends fuel : pre_image_call fuel (pre_image fuel).
Proof.
  induction fuel as [|fuel IH]; intros L s a b H.
  { apply ends_out_of_fuel; [done|]. intros (_ & k & _ & _ & Hd).
    unfold deep in Hd. lia. }
  change (pre_image (S fuel) a b) with
    (lru_cache pre_image_cache set_pre_image_cache (a, b)
       (if (a =? get_zero_node) || (b =? get_zero_node) then ret get_zero_node
        else if (a =? get_one_node) && (b =? get_one_node) then ret get_one_node
        else pre_image_step fuel (pre_image fuel) a b)).
  apply (ends_lru_cache _ _ _ binary_kept); try done.
  - intros c L1 s1. apply history_set_pre_image_cache.
  - apply h_pre_image.
  - apply binary_kept_later.
  - destruct ((a =? get_zero_node) || (b =? get_zero_node)).
    { apply ends_ret; [done|]. left. unfold get_zero_node. lia. }
    destruct ((a =? get_one_node) && (b =? get_one_node)).
    { apply ends_ret; [done|]. left. unfold get_one_node. lia. }
    by apply pre_image_step_ends.
Qed.

(** ** Every manager a client can get to has a history *)

Lemma history_new : history (fun _ => 0) new.
Proof.
  split; try done; try apply Forall_nil_2.
  - apply store_inv_new.
Qed.

Lemma history_create_variable L x p s :
  history L s -> history L (create_variable x p s).2.
Proof.
  intros H. rewrite create_variable_eq. simpl. split.
  - pose proof (create_variable_store_inv x p s (h_store _ _ H)) as Hs.
    by rewrite create_variable_eq in Hs.
  - simpl. rewrite length_app. simpl. rewrite (h_var_id _ _ H). lia.
  - simpl. intros i v Hv. apply lookup_app_Some in Hv as [Hv|[Hi Hv]].
    + by apply (h_ordering _ _ H).
    + apply list_lookup_singleton_Some in Hv as [Hi' <-]. simpl.
      rewrite (h_var_id _ _ H). lia.
  - apply (h_rows _ _ H).
  - apply (h_cofactors _ _ H).
  - apply (h_ite _ _ H).
  - apply (h_conjunction _ _ H).
  - apply (h_disjunction _ _ H).
  - apply (h_pre_image _ _ H).
Qed.

Global Instance shrinks_preorder : PreOrder shrinks.
Proof.
  split; unfold shrinks; [by intros s | intros s1 s2 s3 H1 H2; by etrans].
Qed.

Lemma clear_shrinks fuel nodes s : shrinks s (clear fuel nodes s).2.
Proof.
  revert s. change (stable shrinks (clear fuel nodes)).
  unfold clear. apply stable_bind; [apply _ | apply stable_clear_loop; apply _ |].
  intros explored. apply stable_bind; [apply _ | stable_step |].
  intros keys. apply stable_clear_sweep; [apply _|..]; intros n s;
    unfold shrinks; simpl; [done | done | apply delete_subseteq].
Qed.

Lemma history_clear L fuel nodes s :
  history L s -> history L (clear fuel nodes s).2.
Proof.
  intros H.
  pose proof (after_store_inv (Clear fuel nodes) s (h_store _ _ H)) as Hst.
  pose proof (clear_same_registry fuel nodes s)
    as (E1 & E2 & E3 & E4 & E5 & E6 & E7 & E8).
  pose proof (clear_shrinks fuel nodes s) as Hsub. simpl in Hst.
  set (s' := (clear fuel nodes s).2) in *. unfold shrinks in Hsub.
  assert (Hb : forall e, binary_kept L s e -> binary_kept L s' e).
  { intros [[a b] r]. unfold binary_kept. by rewrite E3. }
  split.
  - done.
  - by rewrite E1, E2, (h_var_id _ _ H).
  - rewrite E1. apply (h_ordering _ _ H).
  - intros n l h lo E. apply (h_rows _ _ H). by eapply lookup_weaken.
  - rewrite E4. eapply Forall_impl; [apply (h_cofactors _ _ H)|].
    intros [[n i] [h lo]] (Hn & Hh & Hlo & Lh & Llo & Hrow).
    unfold cofactors_kept. rewrite E3. split_and!; try done.
    intros l h0 lo0 E. apply Hrow. by eapply lookup_weaken.
  - rewrite E5. eapply Forall_impl; [apply (h_ite _ _ H)|].
    intros [[[a b] c] r]. unfold ite_kept. by rewrite E3.
  - rewrite E6. eapply Forall_impl; [apply (h_conjunction _ _ H) | done].
  - rewrite E7. eapply Forall_impl; [apply (h_disjunction _ _ H) | done].
  - rewrite E8. eapply Forall_impl; [apply (h_pre_image _ _ H) | done].
Qed.

Lemma ends_history {A} strict L s (m : M BDD A) Q :
  ends strict L s m Q -> exists L', history L' (m s).2.
Proof. intros (L' & H' & _). by exists L'. Qed.

Lemma ends_not_cut {A} (strict : Prop) L s (m : M BDD A) Q :
  ends strict L s m Q -> strict -> (m s).1 <> Raise OutOfFuel.
Proof.
  intros (L' & _ & _ & HQ) Hs. destruct (m s).1 as [r|e]; [done|].
  intros [= ->]. by apply HQ.
Qed.

Lemma lev_valid L s k n :
  history L s -> valid s n -> level_lt (Finite k) (lvl s n) ->
  lev L s (S k) n.
Proof.
  intros H Hv Hl. split; [by eapply valid_small|].
  unfold lvl in Hl. destruct (_node_to_row s !! n) as [[[l h] lo]|] eqn:E.
  - pose proof (si_ids _ (h_store _ _ H) _ _ E) as Hn.
    destruct (h_rows _ _ H _ _ _ _ E) as (El & _).
    rewrite (hlvl_node L n), El by lia. level_solve.
  - destruct Hv as [Hn|[r Hr]]; [|congruence].
    rewrite (hlvl_terminal L n Hn). level_solve.
Qed.

Lemma history_after L c s :
  history L s -> within_contract s c -> exists L', history L' (after c s).
Proof.
  intros H Hc. pose proof (si_node_id _ (h_store _ _ H)) as Hid.
  destruct c as [x p|x p|v|n v|v n1 n0|fuel a b c|fuel a|fuel a b|fuel a b
                 |fuel a b|fuel nodes]; simpl.
  - exists L. by apply history_create_variable.
  - pose proof (history_create_variable L x p s H) as H1.
    unfold create_variable_node, bind. rewrite create_variable_eq in H1 |- *.
    simpl in H1 |- *.
    unfold node_from_variable.
    eapply (ends_history True), make_ends; [exact H1 | |];
      (apply lev_terminal; [simpl; lia | unfold get_one_node, get_zero_node; lia]).
  - unfold node_from_variable.
    eapply (ends_history True), make_ends; [done | |];
      (apply lev_terminal; [lia | unfold get_one_node, get_zero_node; lia]).
  - assert (Hb : forall s, (bind (get_cofactors n v) ret s).2
                           = (get_cofactors n v s).2).
    { intros s0. unfold bind. by destruct (get_cofactors n v s0) as [[r|e] s1]. }
    rewrite <- Hb.
    eapply (ends_history True L s _ (fun _ _ _ => True)).
    apply ends_get_cofactors; [done|]. intros c h lo Hh _. by apply ends_ret.
  - destruct Hc as (V1 & V0 & L1 & L0).
    eapply (ends_history True), make_ends; [done | |]; by apply lev_valid.
  - eapply ends_history. by apply ite_ends.
  - eapply ends_history. by apply ite_ends.
  - eapply ends_history. by apply conjunction_ends.
  - eapply ends_history. by apply disjunction_ends.
  - eapply ends_history. by apply pre_image_ends.
  - exists L. by apply history_clear.
Qed.

Lemma client_reachable_history s : client_reachable s -> exists L, history L s.
Proof.
  induction 1 as [|c s _ [L H] Hc].
  - eexists. apply history_new.
  - by apply (history_after L).
Qed.

Lemma client_reachable_reachable s : client_reachable s -> reachable s.
Proof. induction 1; [apply reachable_new | by apply reachable_call]. Qed.

(** Stored children lie strictly below their parent; a child that [clear]
    removed has no level at all. *)
Lemma history_I3 L s : history L s -> I3 s.
Proof.
  intros H n l h lo E.
  destruct (h_rows _ _ H _ _ _ _ E) as (_ & _ & _ & Lh & Llo).
  assert (Hlvl : forall c, level_lt (Finite l) (hlvl L c) ->
                           level_lt (Finite l) (lvl s c)).
  { intros c Lc. unfold lvl.
    destruct (_node_to_row s !! c) as [[[l' h'] lo']|] eqn:Ec; [|done].
    pose proof (si_ids _ (h_store _ _ H) _ _ Ec) as Hc.
    destruct (h_rows _ _ H _ _ _ _ Ec) as (El & _).
    by rewrite (hlvl_node L c), El in Lc by lia. }
  split; by apply Hlvl.
Qed.

(** ** The script of the seed system as calls *)

Lemma client_reachable_bind {A B} (m : M BDD A) (k : A -> M BDD B) s :
  client_reachable (m s).2 ->
  (forall a s', client_reachable s' -> client_reachable (k a s').2) ->
  client_reachable (bind m k s).2.
Proof.
  intros Hm Hk. unfold bind. destruct (m s) as [[a|e] s']; simpl in *; auto.
Qed.

Ltac client_step Hs :=
  first
    [ exact (client_call (CreateVariableNode _ _) _ Hs I)
    | exact (client_call (Neg _ _) _ Hs I)
    | exact (client_call (Conjunction _ _ _) _ Hs I)
    | exact (client_call (Disjunction _ _ _) _ Hs I)
    | exact (client_call (PreImage _ _ _) _ Hs I) ].

Lemma client_reachable_transition_system fuel s :
  client_reachable s -> client_reachable (transition_system fuel s).2.
Proof.
  intros Hs. unfold transition_system.
  repeat (apply client_reachable_bind; [client_step Hs|];
          clear s Hs; intros ? s Hs).
  exact Hs.
Qed.

Lemma client_reachable_seed_cleared : client_reachable seed_cleared.
Proof.
  apply client_call; [|exact I].
  apply client_reachable_transition_system, client_new.
Qed.

(** ** Termination within the number of declared variables *)

Lemma wf_seed_cleared : wf seed_cleared.
Proof.
  pose proof client_reachable_seed_cleared as Hs.
  destruct (client_reachable_history _ Hs) as [L H].
  assert (Hord : _variable_ordering seed_cleared =
    [mkVar "x0" 0 false; mkVar "x0" 1 true; mkVar "x1" 2 false; mkVar "x1" 3 true])
    by (by vm_compute).
  assert (Hrows : map_Forall (fun n (r : row) =>
            r.1.1 < 4 /\
            (r.1.2 < 2 \/ is_Some (_node_to_row seed_cleared !! r.1.2)) /\
            (r.2 < 2 \/ is_Some (_node_to_row seed_cleared !! r.2)) /\
            r.1.2 < n /\ r.2 < n) (_node_to_row seed_cleared)).
  { apply (bool_decide_unpack _). by vm_compute. }
  split.
  - apply (h_store _ _ H).
  - by vm_compute.
  - rewrite Hord. intros i v.
    destruct i as [|[|[|[|i]]]]; simpl; intros [= <-]; done.
  - intros n l h lo E. rewrite Hord. apply Hrows in E. apply E.
  - by apply (history_I3 L).
Qed.

(** The store of [seed_cleared] is well formed and its ordering
    interleaved, and still the stale cache entries make a call raise: the
    target set 7 is the node of [x1], over unprimed variables, and
    [pre_image(29, 7)] on two stored nodes ends with [KeyError]. *)
Lemma seed_cleared_raises :
  wf seed_cleared /\ interleaved seed_cleared /\
  length (_variable_ordering seed_cleared) = 4 /\
  valid seed_cleared 29 /\ valid seed_cleared 7 /\
  over_unprimed seed_cleared 7 /\
  (pre_image 5 29 7 seed_cleared).1 = Raise KeyError.
Proof.
  split_and!.
  - apply wf_seed_cleared.
  - split; [by vm_compute|]. intros l v.
    replace (_variable_ordering seed_cleared) with
      [mkVar "x0" 0 false; mkVar "x0" 1 true; mkVar "x1" 2 false; mkVar "x1" 3 true]
      by (by vm_compute).
    destruct l as [|[|[|[|l]]]]; simpl; intros [= <-]; done.
  - by vm_compute.
  - right. vm_compute. by eexists.
  - right. vm_compute. by eexists.
  - apply (ou_node _ 7 2 0 1 (mkVar "x1" 2 false));
      [by vm_compute | by vm_compute | done | apply ou_terminal; lia..].
  - by vm_compute.
Qed.

(** C9 (termination).  Take any manager a client can get to from [BDD()]
    by calls of the public methods, with any arguments and whether the calls
    return or raise, [clear] among them (the client's own calls of [make]
    respecting the contract of [make]).  Its store may be well formed or
    not: after a [clear] the memo tables may hold entries for nodes that
    are stored no longer, and a row may have a child that was removed.  In
    every such manager a recursion depth of the number of declared
    variables plus one is enough for [ite], [conjunction] and [disjunction]
    on any operands, and for [pre_image] when the target set is over
    unprimed variables (the interleaving of the ordering is not needed for
    this): the call is not cut short, it returns a value or raises a Python
    exception, such as [KeyError] on an identifier that [clear] removed.
    The reason is the ordering I3, which holds of the stored rows whatever
    [clear] and the caches did: every recursive call runs on cofactors that
    lie strictly below the minimum level of the operands. *)
Theorem recursion_depth_bounded s fuel :
  client_reachable s -> length (_variable_ordering s) < fuel ->
  I3 s /\
  (forall a b c, (ite fuel a b c s).1 <> Raise OutOfFuel) /\
  (forall a b, (conjunction fuel a b s).1 <> Raise OutOfFuel) /\
  (forall a b, (disjunction fuel a b s).1 <> Raise OutOfFuel) /\
  (forall a b, over_unprimed s b ->
     (pre_image fuel a b s).1 <> Raise OutOfFuel).
Proof.
  intros Hs Hk. destruct (client_reachable_history s Hs) as [L H].
  assert (Hd : deep s 0 fuel) by (unfold deep; lia).
  split_and!.
  - by apply (history_I3 L).
  - intros a b c. eapply ends_not_cut; [by apply ite_ends|].
    exists 0. split_and!; by try left.
  - intros a b. eapply ends_not_cut; [by apply conjunction_ends|].
    exists 0. split_and!; by try left.
  - intros a b. eapply ends_not_cut; [by apply disjunction_ends|].
    exists 0. split_and!; by try left.
  - intros a b Hu. eapply ends_not_cut; [by apply pre_image_ends|].
    split; [done|]. exists 0. split_and!; by try left.
Qed.

Lemma recursion_depth_bounded_witness :
  I3 seed_cleared /\
  (forall a b c, (ite 5 a b c seed_cleared).1 <> Raise OutOfFuel) /\
  (forall a b, (conjunction 5 a b seed_cleared).1 <> Raise OutOfFuel) /\
  (forall a b, (disjunction 5 a b seed_cleared).1 <> Raise OutOfFuel) /\
  (forall a b, over_unprimed seed_cleared b ->
     (pre_image 5 a b seed_cleared).1 <> Raise OutOfFuel).
Proof.
  apply (recursion_depth_bounded seed_cleared 5).
  - apply client_reachable_seed_cleared.
  - vm_compute. lia.
Defined.
